(** * The assistant bot's address book: a shallow embedding of
      [assistant_bot.py] and the properties of its contact repository.

    Python values are modelled as the interpreter has them: a [str] is a
    sequence of Unicode code points, a [date] a triple of a year in
    [1..9999], a month and a day, the [dict] behind [AddressBook] an
    insertion-ordered list of bindings with distinct keys, and a raised
    exception a value of [result].  The current date, which the program
    reads from the clock, is an explicit argument [today]. *)

From Stdlib Require Import String Ascii.
From Stdlib Require Import List NArith ZArith Lia Bool Permutation Sorted.
Import ListNotations.

(* ================================================================== *)
(** * Part I: the model                                                 *)
(* ================================================================== *)

(** ** Python strings *)

Module PyStr.

(** A character is its code point.  The tables below are those of the
    Unicode character database on Basic Latin and Latin-1 Supplement
    (U+0000..U+00FF), on the three code points that the case mappings
    of that range reach (U+0178, U+039C, U+03BC), and on U+0149 with
    U+02BC.  On every other code point they are not Python's: the
    functions below take such a character for a caseless one that is
    neither a space nor a digit, where Python has more letters, spaces
    and digits.  So nothing is said here about text beyond Latin-1: the
    properties that depend on a table are stated for strings of Latin-1
    characters ([latin1_str], [latin1_book]). *)
Definition char : Type := N.
Definition str : Type := list char.

Definition in_range (lo hi c : N) : bool := ((lo <=? c) && (c <=? hi))%N.

(** [str.isspace] on one character; these are also the characters that
    [str.split()] and [str.strip()] treat as white space. *)
Definition isspace (c : char) : bool :=
  in_range 0x09 0x0D c || in_range 0x1C 0x20 c || (c =? 0x85)%N || (c =? 0xA0)%N.

(** [str.isdigit] on one character: the decimal digits and the
    superscript digits of Latin-1. *)
Definition isdigit (c : char) : bool :=
  in_range 0x30 0x39 c || in_range 0xB2 0xB3 c || (c =? 0xB9)%N.

(** The class [\d] of [re], and the digits [int] reads: decimal digits
    only. *)
Definition isdecimal (c : char) : bool := in_range 0x30 0x39 c.

(** Lower-case mapping; one code point to one code point everywhere in
    the tables. *)
Definition lower (c : char) : char :=
  if in_range 0x41 0x5A c || in_range 0xC0 0xD6 c || in_range 0xD8 0xDE c
     || (c =? 0x39C)%N
  then (c + 32)%N
  else if (c =? 0x178)%N then 0xFF%N
  else c.

(** Title-case mapping, which [str.capitalize] applies to the first
    character; two code points for U+00DF and U+0149. *)
Definition title (c : char) : str :=
  if in_range 0x61 0x7A c || in_range 0xE0 0xF6 c || in_range 0xF8 0xFE c
     || (c =? 0x3BC)%N
  then [(c - 32)%N]
  else if (c =? 0xB5)%N then [0x39C%N]
  else if (c =? 0xDF)%N then [0x53%N; 0x73%N]
  else if (c =? 0xFF)%N then [0x178%N]
  else if (c =? 0x149)%N then [0x2BC%N; 0x4E%N]
  else [c].

(** A literal of the source. *)
Definition lit (s : string) : str := map N_of_ascii (list_ascii_of_string s).

Arguments lit s%_string.

Fixpoint str_eqb (a b : str) : bool :=
  match a, b with
  | [], [] => true
  | x :: a', y :: b' => (x =? y)%N && str_eqb a' b'
  | _, _ => false
  end.

(** [s.lower()] *)
Definition str_lower (s : str) : str := map lower s.

(** [s.isdigit()]: every character a digit, and at least one. *)
Definition str_isdigit (s : str) : bool :=
  match s with
  | [] => false
  | _ => forallb isdigit s
  end.

(** [s.capitalize()] *)
Definition str_capitalize (s : str) : str :=
  match s with
  | [] => []
  | c :: rest => title c ++ str_lower rest
  end.

(** [s.lstrip()], [s.rstrip()], [s.strip()] *)
Fixpoint str_lstrip (s : str) : str :=
  match s with
  | [] => []
  | c :: rest => if isspace c then str_lstrip rest else s
  end.

Fixpoint str_rstrip (s : str) : str :=
  match s with
  | [] => []
  | c :: rest =>
      match str_rstrip rest with
      | [] => if isspace c then [] else [c]
      | kept => c :: kept
      end
  end.

Definition str_strip (s : str) : str := str_rstrip (str_lstrip s).

(** [s.split()]: the scan of the interpreter, which skips white space,
    then collects characters up to the next white space.  [word] is the
    word being collected, if any. *)
Fixpoint split_scan (word : option str) (s : str) : list str :=
  match s with
  | [] => match word with Some w => [w] | None => [] end
  | c :: rest =>
      if isspace c then
        match word with
        | Some w => w :: split_scan None rest
        | None => split_scan None rest
        end
      else
        match word with
        | Some w => split_scan (Some (w ++ [c])) rest
        | None => split_scan (Some [c]) rest
        end
  end.

Definition str_split (s : str) : list str := split_scan None s.

(** [s.split(sep)] for a separator of one character: [piece] is the
    piece being collected. *)
Fixpoint split_char_scan (sep : char) (piece : str) (s : str) : list str :=
  match s with
  | [] => [piece]
  | c :: rest =>
      if (c =? sep)%N then piece :: split_char_scan sep [] rest
      else split_char_scan sep (piece ++ [c]) rest
  end.

Definition str_split_char (sep : char) (s : str) : list str :=
  split_char_scan sep [] s.

(** [sep.join(parts)] *)
Fixpoint str_join (sep : str) (parts : list str) : str :=
  match parts with
  | [] => []
  | [p] => p
  | p :: more => p ++ sep ++ str_join sep more
  end.

(** [s.startswith(prefix)] *)
Fixpoint str_startswith (s prefix : str) : bool :=
  match prefix, s with
  | [], _ => true
  | p :: prefix', c :: s' => (c =? p)%N && str_startswith s' prefix'
  | _ :: _, [] => false
  end.

(** [q in s] *)
Fixpoint str_in (q s : str) : bool :=
  str_startswith s q ||
  match s with
  | [] => false
  | _ :: s' => str_in q s'
  end.

End PyStr.

Import PyStr.

(** ** Exceptions

    [ValueError msg] carries the text of the exception where the
    program's own code raises it, since the command handlers return that
    text; the texts of the library's exceptions, which the program never
    reads, are left empty. *)

Inductive exn : Type :=
| ValueError (msg : str)
| KeyError
| IndexError
| OverflowError.

Inductive result (A : Type) : Type :=
| Ok (a : A)
| Raise (e : exn).

Arguments Ok {A} a.
Arguments Raise {A} e.

Definition bind {A B : Type} (c : result A) (k : A -> result B) : result B :=
  match c with
  | Ok a => k a
  | Raise e => Raise e
  end.

Notation "x <- c ;; k" := (bind c (fun x => k))
  (at level 61, c at next level, right associativity).

(** ** Python dates *)

Module PyDate.

Local Open Scope Z_scope.

(** [datetime.date]: the proleptic Gregorian calendar, years
    [MINYEAR..MAXYEAR]. *)
Record date : Type := mkdate { year : Z; month : Z; day : Z }.

Definition MINYEAR : Z := 1.
Definition MAXYEAR : Z := 9999.
Definition _MAXORDINAL : Z := 3652059.

Definition _is_leap (y : Z) : bool :=
  (y mod 4 =? 0) && (negb (y mod 100 =? 0) || (y mod 400 =? 0)).

Definition _DAYS_IN_MONTH (m : Z) : Z :=
  match m with
  | 1 => 31 | 2 => 28 | 3 => 31 | 4 => 30 | 5 => 31 | 6 => 30
  | 7 => 31 | 8 => 31 | 9 => 30 | 10 => 31 | 11 => 30 | 12 => 31
  | _ => -1
  end.

Definition _DAYS_BEFORE_MONTH (m : Z) : Z :=
  match m with
  | 1 => 0 | 2 => 31 | 3 => 59 | 4 => 90 | 5 => 120 | 6 => 151
  | 7 => 181 | 8 => 212 | 9 => 243 | 10 => 273 | 11 => 304 | 12 => 334
  | _ => -1
  end.

Definition _days_before_year (y : Z) : Z :=
  let y' := y - 1 in y' * 365 + y' / 4 - y' / 100 + y' / 400.

Definition _days_in_month (y m : Z) : Z :=
  if (m =? 2) && _is_leap y then 29 else _DAYS_IN_MONTH m.

Definition _days_before_month (y m : Z) : Z :=
  _DAYS_BEFORE_MONTH m + (if (2 <? m) && _is_leap y then 1 else 0).

Definition _ymd2ord (y m d : Z) : Z :=
  _days_before_year y + _days_before_month y m + d.

Definition _DI400Y : Z := 146097.
Definition _DI100Y : Z := 36524.
Definition _DI4Y : Z := 1461.

(** ordinal -> (year, month, day), 1 January of year 1 being day 1. *)
Definition _ord2ymd (n : Z) : date :=
  let n := n - 1 in
  let n400 := n / _DI400Y in
  let n := n mod _DI400Y in
  let n100 := n / _DI100Y in
  let n := n mod _DI100Y in
  let n4 := n / _DI4Y in
  let n := n mod _DI4Y in
  let n1 := n / 365 in
  let n := n mod 365 in
  let y := n400 * 400 + 1 + n100 * 100 + n4 * 4 + n1 in
  if (n1 =? 4) || (n100 =? 4) then mkdate (y - 1) 12 31
  else
    let leapyear := (n1 =? 3) && (negb (n4 =? 24) || (n100 =? 3)) in
    let m := Z.shiftr (n + 50) 5 in
    let preceding :=
      _DAYS_BEFORE_MONTH m + (if (2 <? m) && leapyear then 1 else 0) in
    if n <? preceding then
      let m' := m - 1 in
      let preceding' :=
        preceding
        - (_DAYS_IN_MONTH m' + (if (m' =? 2) && leapyear then 1 else 0)) in
      mkdate y m' (n - preceding' + 1)
    else mkdate y m (n - preceding + 1).

(** [_check_date_fields]: what the constructor accepts. *)
Definition valid_date (d : date) : bool :=
  (MINYEAR <=? year d) && (year d <=? MAXYEAR)
  && (1 <=? month d) && (month d <=? 12)
  && (1 <=? day d) && (day d <=? _days_in_month (year d) (month d)).

(** [date(y, m, d)] *)
Definition date_new (y m d : Z) : result date :=
  if valid_date (mkdate y m d) then Ok (mkdate y m d) else Raise (ValueError []).

(** [d.replace(year=y)] *)
Definition replace_year (d : date) (y : Z) : result date :=
  date_new y (month d) (day d).

Definition toordinal (d : date) : Z := _ymd2ord (year d) (month d) (day d).

Definition fromordinal (n : Z) : date := _ord2ymd n.

(** [d + timedelta(days=n)] *)
Definition add_days (d : date) (n : Z) : result date :=
  let o := toordinal d + n in
  if (0 <? o) && (o <=? _MAXORDINAL) then Ok (fromordinal o)
  else Raise OverflowError.

(** [d.weekday()]: Monday is 0, Sunday is 6. *)
Definition weekday (d : date) : Z := (toordinal d + 6) mod 7.

(** Comparison of dates is that of the triples (year, month, day). *)
Definition date_ltb (a b : date) : bool :=
  (year a <? year b)
  || ((year a =? year b)
      && ((month a <? month b)
          || ((month a =? month b) && (day a <? day b)))).

Definition date_eqb (a b : date) : bool :=
  (year a =? year b) && (month a =? month b) && (day a =? day b).

Definition date_leb (a b : date) : bool := date_ltb a b || date_eqb a b.

(** *** [strftime('%d.%m.%Y')] *)

Definition digit_char (n : Z) : char := Z.to_N (48 + n).

Definition two_digits (n : Z) : str := [digit_char (n / 10); digit_char (n mod 10)].

(** A year in decimal, as the C library writes [%Y]: no padding. *)
Definition decimal_year (y : Z) : str :=
  if y <? 10 then [digit_char y]
  else if y <? 100 then two_digits y
  else if y <? 1000 then digit_char (y / 100) :: two_digits (y mod 100)
  else two_digits (y / 100) ++ two_digits (y mod 100).

Definition strftime_dmY (d : date) : str :=
  two_digits (day d) ++ lit "." ++ two_digits (month d) ++ lit "."
  ++ decimal_year (year d).

(** *** [datetime.strptime(s, '%d.%m.%Y').date()]

    [_strptime] turns the format into the regular expression
    [(?P<d>3[0-1]|[1-2]\d|0[1-9]|[1-9]| [1-9])\.(?P<m>1[0-2]|0[1-9]|[1-9])\.(?P<Y>\d\d\d\d)],
    matches it at the start of the string, refuses text left over after
    the match, and builds the date from the three numbers.  Each group
    below lists the ways its alternatives match at the head of [s], in
    the order the matcher tries them, with the number read and the text
    that follows. *)

Definition digit_val (c : char) : Z := Z.of_N c - 48.

Definition re_d (s : str) : list (Z * str) :=
  match s with
  | a :: b :: r =>
      (if (a =? 0x33)%N && in_range 0x30 0x31 b
       then [(30 + digit_val b, r)] else [])
      ++ (if in_range 0x31 0x32 a && isdecimal b
          then [(10 * digit_val a + digit_val b, r)] else [])
      ++ (if (a =? 0x30)%N && in_range 0x31 0x39 b
          then [(digit_val b, r)] else [])
      ++ (if in_range 0x31 0x39 a then [(digit_val a, b :: r)] else [])
      ++ (if (a =? 0x20)%N && in_range 0x31 0x39 b
          then [(digit_val b, r)] else [])
  | [a] => if in_range 0x31 0x39 a then [(digit_val a, [])] else []
  | [] => []
  end.

Definition re_m (s : str) : list (Z * str) :=
  match s with
  | a :: b :: r =>
      (if (a =? 0x31)%N && in_range 0x30 0x32 b
       then [(10 + digit_val b, r)] else [])
      ++ (if (a =? 0x30)%N && in_range 0x31 0x39 b
          then [(digit_val b, r)] else [])
      ++ (if in_range 0x31 0x39 a then [(digit_val a, b :: r)] else [])
  | [a] => if in_range 0x31 0x39 a then [(digit_val a, [])] else []
  | [] => []
  end.

Definition re_Y (s : str) : list (Z * str) :=
  match s with
  | a :: b :: c :: d :: r =>
      if isdecimal a && isdecimal b && isdecimal c && isdecimal d
      then [(1000 * digit_val a + 100 * digit_val b
             + 10 * digit_val c + digit_val d, r)]
      else []
  | _ => []
  end.

Definition re_dot (s : str) : list str :=
  match s with
  | c :: r => if (c =? 0x2E)%N then [r] else []
  | [] => []
  end.

(** All the matches of the whole expression at the head of [s], first
    the one that [re.match] returns: day, month, year, text left. *)
Definition re_dmY (s : str) : list (Z * Z * Z * str) :=
  flat_map (fun dr =>
    flat_map (fun r2 =>
      flat_map (fun mr =>
        flat_map (fun r4 =>
          map (fun yr => (fst dr, fst mr, fst yr, snd yr)) (re_Y r4))
          (re_dot (snd mr)))
        (re_m r2))
      (re_dot (snd dr)))
    (re_d s).

Definition strptime_dmY (s : str) : result date :=
  match re_dmY s with
  | [] => Raise (ValueError [])
  | (d, m, y, rest) :: _ =>
      match rest with
      | [] => date_new y m d
      | _ :: _ => Raise (ValueError [])
      end
  end.

End PyDate.

Import PyDate.

(** ** Fields *)

(** [class Field]: [Name], [Phone] and [Birthday] add no attribute to
    it, only a check in the constructor. *)
Record Field : Type := mkField { value : str }.

Definition Name (v : str) : Field := mkField v.

Definition Phone (v : str) : result Field :=
  if negb (str_isdigit v) || negb (length v =? 10)%nat
  then Raise (ValueError (lit "Phone number must contain exactly 10 digits."))
  else Ok (mkField v).

Definition Birthday (today : date) (v : str) : result Field :=
  match strptime_dmY v with
  | Raise (ValueError _) =>
      Raise (ValueError (lit "Invalid date format. Use DD.MM.YYYY"))
  | Raise e => Raise e
  | Ok birthday_date =>
      if date_ltb today birthday_date
      then Raise (ValueError (lit "Birthday cannot be in the future."))
      else Ok (mkField v)
  end.

(** ** Records *)

Module Record_.

(** [class Record]; a method that changes the record returns the record
    it leaves behind together with its result. *)
Record t : Type := mk { name : Field; phones : list Field; birthday : option Field }.

Definition init (n : str) : t := mk (Name n) [] None.

Fixpoint find_phone_in (ps : list Field) (phone : str) : option Field :=
  match ps with
  | [] => None
  | p :: rest => if str_eqb (value p) phone then Some p else find_phone_in rest phone
  end.

Definition find_phone (self : t) (phone : str) : option Field :=
  find_phone_in (phones self) phone.

(** [list.remove(x)]: the first element equal to [x] goes.  A field has
    no [__eq__], so equal means the same object; the object that
    [find_phone] hands over is the first one with its value, so what goes
    is the first phone with that value. *)
Fixpoint list_remove (ps : list Field) (x : Field) : list Field :=
  match ps with
  | [] => []
  | p :: rest => if str_eqb (value p) (value x) then rest else p :: list_remove rest x
  end.

Definition set_phones (self : t) (ps : list Field) : t :=
  mk (name self) ps (birthday self).

Definition set_birthday (self : t) (b : option Field) : t :=
  mk (name self) (phones self) b.

Definition set_name (self : t) (n : Field) : t :=
  mk n (phones self) (birthday self).

(** [Phone] raises nothing but [ValueError], which is what the [except]
    clauses of [add_phone] and [edit_phone] catch. *)
Definition add_phone (self : t) (phone : str) : bool * t :=
  match find_phone self phone with
  | Some _ => (false, self)
  | None =>
      match Phone phone with
      | Ok p => (true, set_phones self (phones self ++ [p]))
      | Raise _ => (false, self)
      end
  end.

Definition remove_phone (self : t) (phone : str) : bool * t :=
  match find_phone self phone with
  | Some phone_obj => (true, set_phones self (list_remove (phones self) phone_obj))
  | None => (false, self)
  end.

(** In the [try] block the old phone is removed before the new one is
    built, so a [ValueError] from [Phone] leaves the record without it. *)
Definition edit_phone (self : t) (old_phone new_phone : str) : bool * t :=
  match find_phone self old_phone with
  | Some phone_obj =>
      let self1 := set_phones self (list_remove (phones self) phone_obj) in
      match Phone new_phone with
      | Ok p => (true, set_phones self1 (phones self1 ++ [p]))
      | Raise _ => (false, self1)
      end
  | None => (false, self)
  end.

Definition add_birthday (today : date) (self : t) (birthday_str : str) : result t :=
  b <- Birthday today birthday_str ;; Ok (set_birthday self (Some b)).

Definition edit_birthday (today : date) (self : t) (new_birthday : str) : result t :=
  b <- Birthday today new_birthday ;; Ok (set_birthday self (Some b)).

Definition remove_birthday (self : t) : t := set_birthday self None.

(** [__str__] *)
Definition to_str (self : t) : str :=
  let phones_str := str_join (lit "; ") (map value (phones self)) in
  let birthday_str :=
    match birthday self with
    | Some b => lit ", Birthday: " ++ value b
    | None => []
    end in
  value (name self) ++ lit ": " ++ phones_str ++ birthday_str.

End Record_.

(** ** The address book *)

Module AddressBook.

(** [self.data]: the bindings of the dictionary in insertion order. *)
Definition t : Type := list (str * Record_.t).

Definition empty : t := [].

Definition keys (self : t) : list str := map fst self.
Definition values (self : t) : list Record_.t := map snd self.

(** [d[k] = v]: a key already there keeps its place and takes the new
    value; a new key goes to the end. *)
Fixpoint dict_set (d : t) (k : str) (v : Record_.t) : t :=
  match d with
  | [] => [(k, v)]
  | (k', v') :: rest =>
      if str_eqb k' k then (k', v) :: rest else (k', v') :: dict_set rest k v
  end.

(** [del d[k]] *)
Fixpoint dict_del (d : t) (k : str) : t :=
  match d with
  | [] => []
  | (k', v') :: rest => if str_eqb k' k then rest else (k', v') :: dict_del rest k
  end.

Definition add_record (self : t) (record : Record_.t) : t :=
  dict_set self (value (Record_.name record)) record.

Fixpoint find_item (self : t) (lname : str) : option (str * Record_.t) :=
  match self with
  | [] => None
  | (key, record) :: rest =>
      if str_eqb (str_lower key) lname then Some (key, record)
      else find_item rest lname
  end.

Definition find (self : t) (name : str) : option Record_.t :=
  option_map snd (find_item self (str_lower name)).

Definition name_exists (self : t) (name : str) : bool :=
  existsb (fun key => str_eqb (str_lower name) (str_lower key)) (keys self).

(** [delete] returns whether a key was found, and the book it leaves. *)
Definition delete (self : t) (name : str) : bool * t :=
  match find_item self (str_lower name) with
  | Some (key, _) => (true, dict_del self key)
  | None => (false, self)
  end.

(** The loop of [search], [result] being the list built so far. *)
Fixpoint search_loop (query : str) (records : list Record_.t) (result : list str)
  : list str :=
  match records with
  | [] => result
  | record :: rest =>
      let name_match :=
        str_startswith (str_lower (value (Record_.name record))) query in
      let phone_match :=
        existsb (fun phone => str_in query (value phone)) (Record_.phones record) in
      if name_match || phone_match
      then search_loop query rest (result ++ [Record_.to_str record])
      else search_loop query rest result
  end.

Definition search (self : t) (query : str) : list str :=
  search_loop (str_lower query) (values self) [].

(** The body of the [try] block of [get_upcoming_birthdays] for one
    record with a birthday: the line to append, if any. *)
Definition upcoming_entry (today end_date : date) (record : Record_.t) (b : Field)
  : result (option str) :=
  birthday_date <- strptime_dmY (value b) ;;
  this_year <- replace_year birthday_date (year today) ;;
  birthday_this_year <-
    (if date_ltb this_year today
     then replace_year this_year (year today + 1)
     else Ok this_year) ;;
  if date_leb today birthday_this_year && date_leb birthday_this_year end_date
  then
    congratulation_date <-
      (if (weekday birthday_this_year =? 5)%Z then add_days birthday_this_year 2
       else if (weekday birthday_this_year =? 6)%Z then add_days birthday_this_year 1
       else Ok birthday_this_year) ;;
    Ok (Some (value (Record_.name record) ++ lit ": "
              ++ strftime_dmY congratulation_date))
  else Ok None.

(** The loop over the records: a [ValueError] skips the record, any
    other exception leaves the function. *)
Fixpoint upcoming_loop (today end_date : date) (records : list Record_.t)
    (upcoming : list str) : result (list str) :=
  match records with
  | [] => Ok upcoming
  | record :: rest =>
      match Record_.birthday record with
      | None => upcoming_loop today end_date rest upcoming
      | Some b =>
          match upcoming_entry today end_date record b with
          | Ok (Some line) => upcoming_loop today end_date rest (upcoming ++ [line])
          | Ok None => upcoming_loop today end_date rest upcoming
          | Raise (ValueError _) => upcoming_loop today end_date rest upcoming
          | Raise e => Raise e
          end
      end
  end.

Definition get_upcoming_birthdays (today : date) (self : t) : result (list str) :=
  end_date <- add_days today 7 ;;
  upcoming_loop today end_date (values self) [].

(** A record that [find] returns is the object the book holds: when a
    handler changes it, what changes is the binding [find] stopped at. *)
Fixpoint replace_item (self : t) (lname : str) (record' : Record_.t) : t :=
  match self with
  | [] => []
  | (key, record) :: rest =>
      if str_eqb (str_lower key) lname then (key, record') :: rest
      else (key, record) :: replace_item rest lname record'
  end.

Definition update_found (self : t) (name : str) (record' : Record_.t) : t :=
  replace_item self (str_lower name) record'.

End AddressBook.

(** ** Names *)

Definition fix_part (part : str) : str :=
  str_join (lit "-") (map str_capitalize (str_split_char 0x2D%N part)).

Definition normalize_name (name : str) : str :=
  str_join (lit " ") (map fix_part (str_split (str_strip name))).

(** ** Command handlers

    A handler takes the argument tokens and the book, and returns its
    message and the book it leaves.  Every exception of a handler is
    raised before the handler changes anything, so the book that
    [input_error] hands back with the message is the one it was called
    with. *)

Definition handler_result : Type := result (str * AddressBook.t).

(** [@input_error] *)
Definition input_error (book : AddressBook.t) (body : handler_result)
  : handler_result :=
  match body with
  | Ok r => Ok r
  | Raise KeyError => Ok (lit "Contact not found.", book)
  | Raise (ValueError msg) => Ok (msg, book)
  | Raise IndexError =>
      Ok (lit "Missing input. Please provide valid arguments.", book)
  | Raise e => Raise e
  end.

Definition is_phone_token (arg : str) : bool :=
  str_isdigit arg && (length arg =? 10)%nat.

(** The index of the first token that is a number of 10 digits. *)
Fixpoint phone_start_index (args : list str) (i : nat) : option nat :=
  match args with
  | [] => None
  | arg :: rest => if is_phone_token arg then Some i else phone_start_index rest (S i)
  end.

(** The loop of [add_contact] over the phone tokens: the record with all
    of them, or the message about the first one refused. *)
Fixpoint add_phones (record : Record_.t) (phones : list str) : str + Record_.t :=
  match phones with
  | [] => inr record
  | phone :: rest =>
      match Record_.add_phone record phone with
      | (true, record') => add_phones record' rest
      | (false, _) =>
          inl (lit "Phone number '" ++ phone ++ lit "' already exists.")
      end
  end.

Definition add_contact (args : list str) (book : AddressBook.t) : handler_result :=
  input_error book
    (if (length args <? 2)%nat
     then Raise (ValueError (lit "Please enter name and at least one phone number."))
     else
       match phone_start_index args 0 with
       | None =>
           Raise (ValueError
                    (lit "At least one valid phone number required (10 digits)."))
       | Some i =>
           let name_parts := firstn i args in
           let phones := skipn i args in
           match name_parts with
           | [] => Raise (ValueError (lit "Name is missing."))
           | _ :: _ =>
               let name := normalize_name (str_join (lit " ") name_parts) in
               if AddressBook.name_exists book name
               then Ok (lit "Contact with this name already exists.", book)
               else
                 match add_phones (Record_.init name) phones with
                 | inl msg => Ok (msg, book)
                 | inr record =>
                     Ok (lit "Contact added.", AddressBook.add_record book record)
                 end
           end
       end).

(** The [for ... else] of [edit_contact_name]: the first split point [i]
    whose left part names a contact of the book. *)
Fixpoint find_old_name (book : AddressBook.t) (args : list str) (splits : list nat)
  : option (str * str) :=
  match splits with
  | [] => None
  | i :: rest =>
      let old_name_try := normalize_name (str_join (lit " ") (firstn i args)) in
      if AddressBook.name_exists book old_name_try
      then Some (old_name_try, normalize_name (str_join (lit " ") (skipn i args)))
      else find_old_name book args rest
  end.

Definition edit_contact_name (args : list str) (book : AddressBook.t)
  : handler_result :=
  input_error book
    (if (length args <? 2)%nat
     then Raise (ValueError (lit "Please provide old and new full names."))
     else
       match find_old_name book args (seq 1 (length args - 1)) with
       | None => Raise KeyError
       | Some (old_name, new_name) =>
           match AddressBook.find book old_name with
           | None => Raise KeyError (* not reached: [name_exists] found it *)
           | Some record =>
               let book1 := snd (AddressBook.delete book old_name) in
               let record1 := Record_.set_name record (Name new_name) in
               Ok (lit "Contact name changed to '" ++ new_name ++ lit "'.",
                   AddressBook.add_record book1 record1)
           end
       end).

(** [args[-1]], [args[-2]], [args[:-1]], [args[:-2]] *)
Definition arg_from_end (k : nat) (args : list str) : str :=
  nth (length args - k) args [].

Definition args_but_last (k : nat) (args : list str) : list str :=
  firstn (length args - k) args.

Definition change_contact (args : list str) (book : AddressBook.t) : handler_result :=
  input_error book
    (if (length args <? 3)%nat
     then Raise (ValueError
                   (lit "Please provide full name, old phone, and new phone."))
     else
       let old_phone := arg_from_end 2 args in
       let new_phone := arg_from_end 1 args in
       if negb (is_phone_token old_phone)
       then Raise (ValueError (lit "Old phone number must be 10 digits."))
       else if negb (is_phone_token new_phone)
       then Raise (ValueError (lit "New phone number must be 10 digits."))
       else
         let name := normalize_name (str_join (lit " ") (args_but_last 2 args)) in
         match AddressBook.find book name with
         | None => Raise KeyError
         | Some record =>
             match Record_.edit_phone record old_phone new_phone with
             | (false, record') =>
                 Ok (lit "Old phone number '" ++ old_phone
                     ++ lit "' not found or new number invalid.",
                     AddressBook.update_found book name record')
             | (true, record') =>
                 Ok (lit "Phone number updated.",
                     AddressBook.update_found book name record')
             end
         end).

Definition add_phone_to_contact (args : list str) (book : AddressBook.t)
  : handler_result :=
  input_error book
    (if (length args <? 2)%nat
     then Raise (ValueError (lit "Please provide name and phone number to add."))
     else
       let possible_phone := arg_from_end 1 args in
       if negb (is_phone_token possible_phone)
       then Raise (ValueError (lit "Please provide a valid phone number (10 digits)."))
       else
         let name := normalize_name (str_join (lit " ") (args_but_last 1 args)) in
         match AddressBook.find book name with
         | None => Raise KeyError
         | Some record =>
             match Record_.add_phone record possible_phone with
             | (true, record') =>
                 Ok (lit "Phone number added.",
                     AddressBook.update_found book name record')
             | (false, record') =>
                 Ok (lit "Phone number '" ++ possible_phone
                     ++ lit "' already exists for this contact.",
                     AddressBook.update_found book name record')
             end
         end).

Definition remove_phone (args : list str) (book : AddressBook.t) : handler_result :=
  input_error book
    (if (length args <? 2)%nat
     then Raise (ValueError
                   (lit "Please provide full name and phone number to remove."))
     else
       let possible_phone := arg_from_end 1 args in
       if negb (is_phone_token possible_phone)
       then Raise (ValueError (lit "Please provide a valid phone number (10 digits)."))
       else
         let name := normalize_name (str_join (lit " ") (args_but_last 1 args)) in
         match AddressBook.find book name with
         | None => Raise KeyError
         | Some record =>
             match Record_.remove_phone record possible_phone with
             | (false, record') =>
                 Ok (lit "Phone number '" ++ possible_phone
                     ++ lit "' not found for this contact.",
                     AddressBook.update_found book name record')
             | (true, record') =>
                 Ok (lit "Phone number removed.",
                     AddressBook.update_found book name record')
             end
         end).

Definition remove_contact (args : list str) (book : AddressBook.t) : handler_result :=
  input_error book
    (match args with
     | [] => Raise (ValueError (lit "Please provide the contact name to remove."))
     | _ :: _ =>
         let name := normalize_name (str_join (lit " ") args) in
         match AddressBook.delete book name with
         | (false, _) => Raise KeyError
         | (true, book') =>
             Ok (lit "Contact '" ++ name ++ lit "' removed.", book')
         end
     end).

Definition add_birthday (today : date) (args : list str) (book : AddressBook.t)
  : handler_result :=
  input_error book
    (if (length args <? 2)%nat
     then Raise (ValueError (lit "Please provide name and birthday (DD.MM.YYYY)."))
     else
       let name := normalize_name (str_join (lit " ") (args_but_last 1 args)) in
       let birthday := arg_from_end 1 args in
       match AddressBook.find book name with
       | None => Raise KeyError
       | Some record =>
           match Record_.birthday record with
           | Some _ =>
               Ok (lit "Birthday already exists. Use 'editbday' to change it.", book)
           | None =>
               record' <- Record_.add_birthday today record birthday ;;
               Ok (lit "Birthday added.", AddressBook.update_found book name record')
           end
       end).

Definition edit_birthday (today : date) (args : list str) (book : AddressBook.t)
  : handler_result :=
  input_error book
    (if (length args <? 2)%nat
     then Raise (ValueError
                   (lit "Please provide name and new birthday (DD.MM.YYYY)."))
     else
       let name := normalize_name (str_join (lit " ") (args_but_last 1 args)) in
       let birthday := arg_from_end 1 args in
       match AddressBook.find book name with
       | None => Raise KeyError
       | Some record =>
           record' <- Record_.edit_birthday today record birthday ;;
           Ok (lit "Birthday updated.", AddressBook.update_found book name record')
       end).

Definition remove_birthday (args : list str) (book : AddressBook.t) : handler_result :=
  input_error book
    (match args with
     | [] => Raise (ValueError (lit "Please provide name to remove birthday."))
     | _ :: _ =>
         let name := normalize_name (str_join (lit " ") args) in
         match AddressBook.find book name with
         | None => Raise KeyError
         | Some record =>
             Ok (lit "Birthday removed.",
                 AddressBook.update_found book name (Record_.remove_birthday record))
         end
     end).

(** The commands of [main] that can change the book, each with its
    argument tokens; the commands that add or edit a birthday read the
    clock. *)
Inductive command : Type :=
| addcontact (args : list str)
| editname (args : list str)
| removecontact (args : list str)
| addphone (args : list str)
| changephone (args : list str)
| removephone (args : list str)
| addbday (today : date) (args : list str)
| editbday (today : date) (args : list str)
| removebday (args : list str).

Definition command_args (c : command) : list str :=
  match c with
  | addcontact a | editname a | removecontact a | addphone a | changephone a
  | removephone a | addbday _ a | editbday _ a | removebday a => a
  end.

Definition dispatch (c : command) (book : AddressBook.t) : handler_result :=
  match c with
  | addcontact args => add_contact args book
  | editname args => edit_contact_name args book
  | removecontact args => remove_contact args book
  | addphone args => add_phone_to_contact args book
  | changephone args => change_contact args book
  | removephone args => remove_phone args book
  | addbday today args => add_birthday today args book
  | editbday today args => edit_birthday today args book
  | removebday args => remove_birthday args book
  end.

(** The book after a session of commands, as long as no handler lets an
    exception through. *)
Fixpoint run (cs : list command) (book : AddressBook.t) : result AddressBook.t :=
  match cs with
  | [] => Ok book
  | c :: rest => r <- dispatch c book ;; run rest (snd r)
  end.

(** ** Notions the properties are stated with *)

(** A character of Basic Latin or Latin-1 Supplement, and a string of
    such characters. *)
Definition latin1 (c : char) : Prop := (c < 256)%N.
Definition latin1_str (s : str) : Prop := Forall latin1 s.

(** A decimal ASCII digit. *)
Definition ascii_digit (c : char) : bool := in_range 0x30 0x39 c.

(** Exactly ten characters, all of them decimal ASCII digits. *)
Definition ten_ascii_digits (s : str) : Prop :=
  length s = 10%nat /\ Forall (fun c => ascii_digit c = true) s.

(** Exactly ten characters, all of them digits for [str.isdigit]. *)
Definition ten_digits (s : str) : Prop :=
  length s = 10%nat /\ Forall (fun c => isdigit c = true) s.

(** The dictionary behind a book has no key twice. *)
Definition dict_ok (book : AddressBook.t) : Prop := NoDup (AddressBook.keys book).

(** Every record sits under its own name, as [add_record] puts it. *)
Definition keyed_by_name (book : AddressBook.t) : Prop :=
  forall k r, In (k, r) book -> value (Record_.name r) = k.

(** Every phone of every record went through [Phone]. *)
Definition phones_checked (r : Record_.t) : Prop :=
  Forall (fun p => ten_digits (value p)) (Record_.phones r).

Definition book_phones_checked (book : AddressBook.t) : Prop :=
  Forall phones_checked (AddressBook.values book).

(** *** Searching *)

(** [name] starts with [q] when case is ignored: in lower case, [name]
    is [q] followed by something. *)
Definition starts_with_ci (name q : str) : Prop :=
  exists rest, str_lower name = str_lower q ++ rest.

(** [q] occurs in [s]. *)
Definition contains (s q : str) : Prop := exists a b, s = a ++ q ++ b.

Definition search_matches (q : str) (r : Record_.t) : Prop :=
  starts_with_ci (value (Record_.name r)) q
  \/ exists p, In p (Record_.phones r) /\ contains (value p) q.

(** [selection P l l']: [l'] is made of the elements of [l] that satisfy
    [P], in the order of [l]. *)
Inductive selection {A : Type} (P : A -> Prop) : list A -> list A -> Prop :=
| sel_nil : selection P [] []
| sel_keep x l l' : P x -> selection P l l' -> selection P (x :: l) (x :: l')
| sel_skip x l l' : ~ P x -> selection P l l' -> selection P (x :: l) l'.

(** *** The calendar *)

(** The last step of [_ord2ymd]: the month and the day from the offset
    [n] into the year [y]. *)
Definition month_and_day (y : Z) (leapyear : bool) (n : Z) : date :=
  let m := Z.shiftr (n + 50) 5 in
  let preceding :=
    (_DAYS_BEFORE_MONTH m + (if (2 <? m)%Z && leapyear then 1 else 0))%Z in
  if (n <? preceding)%Z then
    let m' := (m - 1)%Z in
    let preceding' :=
      (preceding
       - (_DAYS_IN_MONTH m' + (if (m' =? 2)%Z && leapyear then 1 else 0)))%Z in
    mkdate y m' (n - preceding' + 1)
  else mkdate y m (n - preceding + 1).

(** The day after [d] on the calendar. *)
Definition tomorrow (d : date) : date :=
  if (day d <? _days_in_month (year d) (month d))%Z
  then mkdate (year d) (month d) (day d + 1)
  else if (month d <? 12)%Z then mkdate (year d) (month d + 1) 1
  else mkdate (year d + 1) 1 1.

(** The date [n] days after [d]. *)
Fixpoint days_after (n : nat) (d : date) : date :=
  match n with
  | O => d
  | S n' => tomorrow (days_after n' d)
  end.

(** The offset into the year of the day [d] of the month [m], from 0,
    and the length of the month, in a leap year or not. *)
Definition year_offset (leap : bool) (m d : Z) : Z :=
  (_DAYS_BEFORE_MONTH m + (if (2 <? m)%Z && leap then 1 else 0) + d - 1)%Z.

Definition month_length (leap : bool) (m : Z) : Z :=
  if (m =? 2)%Z && leap then 29%Z else _DAYS_IN_MONTH m.

(** *** Upcoming birthdays *)

(** The next occurrence of the birthday on day [d] of month [m]: the
    year set to that of [today], and to the year after when that date is
    before [today]; there is none when the date asked for is not a date. *)
Definition next_occurrence (today : date) (m d : Z) : option date :=
  let this_year := mkdate (year today) m d in
  if valid_date this_year then
    if date_ltb this_year today then
      let next_year := mkdate (year today + 1) m d in
      if valid_date next_year then Some next_year else None
    else Some this_year
  else None.

(** The window from [today] to seven days later, both included. *)
Definition in_window (today occ : date) : bool :=
  date_leb today occ && date_leb occ (days_after 7 today).

(** A Saturday moves two days on and a Sunday one day on. *)
Definition weekend_shift (occ : date) : date :=
  if (weekday occ =? 5)%Z then days_after 2 occ
  else if (weekday occ =? 6)%Z then days_after 1 occ
  else occ.

Definition congratulation_date (today : date) (m d : Z) : option date :=
  match next_occurrence today m d with
  | Some occ => if in_window today occ then Some (weekend_shift occ) else None
  | None => None
  end.

(** What a record contributes to the list of upcoming birthdays. *)
Definition upcoming_line (today : date) (r : Record_.t) : list str :=
  match Record_.birthday r with
  | None => []
  | Some b =>
      match strptime_dmY (value b) with
      | Ok born =>
          match congratulation_date today (month born) (day born) with
          | Some c => [value (Record_.name r) ++ lit ": " ++ strftime_dmY c]
          | None => []
          end
      | Raise _ => []
      end
  end.

(** The last day from which seven days on is still a date. *)
Definition last_today : date := mkdate 9999 12 24.

(** *** The text of a birthday *)

Definition dot : char := 0x2E%N.
Definition space : char := 0x20%N.

Definition digits (t : str) : Prop := Forall (fun c => ascii_digit c = true) t.

(** The number that [int] reads: the digits in base ten, a space before
    them counting for nothing. *)
Definition text_value (t : str) : Z :=
  fold_left (fun acc c => if ascii_digit c then 10 * acc + digit_val c else acc)%Z t 0%Z.

(** A day is written with one digit, with two, or with a space and one
    digit; a month with one digit or two; a year with four. *)
Definition day_text (t : str) : Prop :=
  (digits t /\ (length t = 1 \/ length t = 2)%nat)
  \/ (exists c, t = [space; c] /\ ascii_digit c = true).

Definition month_text (t : str) : Prop :=
  digits t /\ (length t = 1 \/ length t = 2)%nat.

Definition year_text (t : str) : Prop := digits t /\ length t = 4%nat.

(** [s] is a day, a dot, a month, a dot and a year, and these numbers
    are those of [d]. *)
Definition reads_as (s : str) (d : date) : Prop :=
  exists td tm ty,
    s = td ++ [dot] ++ tm ++ [dot] ++ ty
    /\ day_text td /\ month_text tm /\ year_text ty
    /\ d = mkdate (text_value ty) (text_value tm) (text_value td).

(** The same with the day and the month written with two digits each:
    the format DD.MM.YYYY exactly. *)
Definition reads_as_dd_mm_yyyy (s : str) (d : date) : Prop :=
  exists td tm ty,
    s = td ++ [dot] ++ tm ++ [dot] ++ ty
    /\ (digits td /\ length td = 2%nat) /\ (digits tm /\ length tm = 2%nat)
    /\ year_text ty
    /\ d = mkdate (text_value ty) (text_value tm) (text_value td).

(** *** The shape of a name *)

Definition hyphen : char := 0x2D%N.
Definition is_hyphen (c : char) : bool := (c =? hyphen)%N.

Definition nonempty (s : str) : bool :=
  match s with
  | [] => false
  | _ :: _ => true
  end.

(** The pieces of [s] between the characters that satisfy [sep]; there
    is one piece more than there are separators. *)
Fixpoint fields (sep : char -> bool) (s : str) : list str :=
  match s with
  | [] => [[]]
  | c :: rest =>
      if sep c then [] :: fields sep rest
      else
        match fields sep rest with
        | f :: more => (c :: f) :: more
        | [] => [[c]]
        end
  end.

(** The words of [s]: the pieces between white space that are not empty. *)
Definition words (s : str) : list str := filter nonempty (fields isspace s).

(** The parts one after the other, [sep] between each two. *)
Definition joined (sep : str) (parts : list str) : str :=
  match parts with
  | [] => []
  | p :: more => p ++ concat (map (fun q => sep ++ q) more)
  end.

(** The name as the specification builds it: trim, split into words,
    split each word at the hyphens, capitalize each part, and put
    everything back with hyphens and single spaces. *)
Definition rebuilt_name (raw : str) : str :=
  joined (lit " ")
    (map (fun word => joined (lit "-") (map str_capitalize (fields is_hyphen word)))
       (words (str_strip raw))).

(** No character of [s] satisfies [p]. *)
Definition free_of (p : char -> bool) (s : str) : Prop :=
  Forall (fun c => p c = false) s.

(** Upper and lower case of the letters of ASCII. *)
Definition ascii_upper (c : char) : char :=
  if in_range 0x61 0x7A c then (c - 32)%N else c.

Definition ascii_lower (c : char) : char :=
  if in_range 0x41 0x5A c then (c + 32)%N else c.

Definition is_ascii (c : char) : Prop := (c < 128)%N.

(** The characters of Latin-1, for the facts about the tables that are
    settled by going through them. *)
Definition latin1_chars : list char := map N.of_nat (seq 0 256).

(** What a renaming [h] of characters must respect, at the character
    [c], for a normalized name to stay as it is when [h] is applied to
    it and it is normalized again: the characters that [capitalize]
    makes of [c] stay clear of white space and of the hyphen, the first
    character of a part comes back as it was, and so do the others. *)
Definition keeps_name_shape (h : char -> char) (c : char) : bool :=
  (isspace c || forallb (fun c' => negb (isspace (h c'))) (title c ++ [lower c]))
  && (is_hyphen c || forallb (fun c' => negb (is_hyphen (h c'))) (title c ++ [lower c]))
  && match map h (title c) with
     | first :: others => str_eqb (title first ++ map lower others) (title c)
     | [] => false
     end
  && (lower (h (lower c)) =? lower c)%N
  && (h space =? space)%N && (h hyphen =? hyphen)%N.

(** *** The states of the repository *)

(** No two keys of the book are the same once case is ignored. *)
Definition case_unique (book : AddressBook.t) : Prop :=
  NoDup (map str_lower (AddressBook.keys book)).

(** The books that the operations of the repository alone can build. *)
Inductive repository_state : AddressBook.t -> Prop :=
| repo_empty : repository_state AddressBook.empty
| repo_add book record :
    repository_state book -> repository_state (AddressBook.add_record book record)
| repo_delete book name :
    repository_state book -> repository_state (snd (AddressBook.delete book name)).

(** The books that a session of commands can build from the empty book,
    the tokens being strings of Latin-1 characters. *)
Definition latin1_command (c : command) : Prop :=
  Forall latin1_str (command_args c).

Inductive reachable : AddressBook.t -> Prop :=
| reach_empty : reachable AddressBook.empty
| reach_step book c msg book' :
    reachable book -> latin1_command c -> dispatch c book = Ok (msg, book') ->
    reachable book'.

(** A name that [normalize_name] made from Latin-1 characters. *)
Definition normalized (k : str) : Prop :=
  exists x, latin1_str x /\ k = normalize_name x.

(** What holds of every book a session builds. *)
Definition well_formed (book : AddressBook.t) : Prop :=
  dict_ok book /\ keyed_by_name book /\ book_phones_checked book
  /\ Forall normalized (AddressBook.keys book).

(** What a method may do to a record: the name stays, and phones that
    were checked stay checked. *)
Definition record_step (r r' : Record_.t) : Prop :=
  Record_.name r' = Record_.name r /\ (phones_checked r -> phones_checked r').

(** What a handler may do to the book. *)
Inductive book_step (book : AddressBook.t) : AddressBook.t -> Prop :=
| step_same : book_step book book
| step_update name record record' :
    AddressBook.find book name = Some record -> record_step record record' ->
    book_step book (AddressBook.update_found book name record')
| step_delete name : book_step book (snd (AddressBook.delete book name))
| step_add x record :
    latin1_str x -> value (Record_.name record) = normalize_name x ->
    phones_checked record ->
    book_step book (AddressBook.add_record book record)
| step_rename old x record :
    latin1_str x -> AddressBook.find book old = Some record ->
    book_step book
      (AddressBook.add_record (snd (AddressBook.delete book old))
         (Record_.set_name record (Name (normalize_name x)))).

(** *** The phones of a record *)

(** The numbers on the record, in order. *)
Definition numbers (r : Record_.t) : list str := map value (Record_.phones r).

(** No number twice on the record. *)
Definition distinct_phones (r : Record_.t) : Prop := NoDup (numbers r).

(** ** The rest of the program

    What [main] does with a line of input, and the handlers that only
    read the book. *)

Definition newline : str := [0x0A%N].

(** [parse_input]: the unpacking [cmd, *args = ...] raises [ValueError]
    when there is no token. *)
Definition parse_input (user_input : str) : result (str * list str) :=
  match str_split (str_strip user_input) with
  | [] => Raise (ValueError [])
  | cmd :: args => Ok (str_lower (str_strip cmd), args)
  end.

(** [matches] of [show_phone] and [show_birthday]: the records whose key
    contains the name, case ignored, in the order of the book. *)
Definition matches (book : AddressBook.t) (name : str) : list Record_.t :=
  map snd
    (filter (fun item => str_in (str_lower name) (str_lower (fst item))) book).

Definition show_phone (args : list str) (book : AddressBook.t) : handler_result :=
  input_error book
    (match args with
     | [] => Raise (ValueError (lit "Please provide the contact name."))
     | _ :: _ =>
         let name := normalize_name (str_join (lit " ") args) in
         match matches book name with
         | [] => Raise KeyError
         | [record] => Ok (Record_.to_str record, book)
         | found =>
             Ok (str_join newline
                   (lit "Found multiple contacts:" :: map Record_.to_str found),
                 book)
         end
     end).

(** An [AttributeError] is none of the exceptions that [input_error]
    names: it goes through the decorator and through [main]. *)
Inductive or_attribute_error (A : Type) : Type :=
| Normal (a : A)
| AttributeError.

Arguments Normal {A} a.
Arguments AttributeError {A}.

Definition input_error_passing (book : AddressBook.t)
    (body : or_attribute_error handler_result)
  : or_attribute_error handler_result :=
  match body with
  | Normal r => Normal (input_error book r)
  | AttributeError => AttributeError
  end.

(** The comprehension of [show_birthday] over all the matches, which
    reads [record.birthday.value] of each: on a record without a birthday
    that is [None.value]. *)
Fixpoint birthday_lines (found : list Record_.t) : or_attribute_error (list str) :=
  match found with
  | [] => Normal []
  | record :: rest =>
      match Record_.birthday record with
      | None => AttributeError
      | Some b =>
          match birthday_lines rest with
          | Normal lines =>
              Normal ((value (Record_.name record) ++ lit ": " ++ value b) :: lines)
          | AttributeError => AttributeError
          end
      end
  end.

Definition has_birthday (r : Record_.t) : bool :=
  match Record_.birthday r with
  | Some _ => true
  | None => false
  end.

Definition show_birthday (args : list str) (book : AddressBook.t)
  : or_attribute_error handler_result :=
  input_error_passing book
    (match args with
     | [] => Normal (Raise (ValueError (lit "Please provide the contact name.")))
     | _ :: _ =>
         let name := normalize_name (str_join (lit " ") args) in
         match matches book name with
         | [] => Normal (Raise KeyError)
         | [record] =>
             match Record_.birthday record with
             | Some b =>
                 Normal (Ok (value (Record_.name record) ++ lit "'s birthday is "
                             ++ value b, book))
             | None => Normal (Ok (lit "Birthday is not set for this contact.", book))
             end
         | found =>
             match filter has_birthday found with
             | [] =>
                 Normal (Ok (lit "None of the matching contacts have a birthday set.",
                             book))
             | _ :: _ =>
                 match birthday_lines found with
                 | Normal lines =>
                     Normal (Ok (str_join newline
                                   ([lit "Found multiple contacts:"] ++ lines
                                    ++ [lit "Please enter the full name to get an exact match."]),
                                 book))
                 | AttributeError => AttributeError
                 end
             end
         end
     end).

Definition search_contacts (args : list str) (book : AddressBook.t) : handler_result :=
  input_error book
    (match args with
     | [] => Raise (ValueError (lit "Please enter a name or phone to search."))
     | query :: _ =>
         match AddressBook.search book query with
         | [] => Ok (lit "No matching contacts found.", book)
         | results => Ok (str_join newline results, book)
         end
     end).

Definition upcoming_birthdays (today : date) (book : AddressBook.t) : result str :=
  upcoming <- AddressBook.get_upcoming_birthdays today book ;;
  match upcoming with
  | [] => Ok (lit "No upcoming birthdays in the next 7 days.")
  | _ :: _ => Ok (str_join newline upcoming)
  end.

(** [a < b] on strings: the order of the code points, the shorter string
    first when it starts the longer one. *)
Fixpoint str_ltb (a b : str) : bool :=
  match a, b with
  | _, [] => false
  | [], _ :: _ => true
  | x :: a', y :: b' => (x <? y)%N || ((x =? y)%N && str_ltb a' b')
  end.

(** [sorted(items, key=key)]: the sort is stable, so an item goes before
    the first one that is not smaller than it. *)
Fixpoint insert_by {A : Type} (key : A -> str) (x : A) (l : list A) : list A :=
  match l with
  | [] => [x]
  | y :: rest =>
      if str_ltb (key y) (key x) then y :: insert_by key x rest else x :: l
  end.

Definition sorted {A : Type} (key : A -> str) (items : list A) : list A :=
  fold_right (insert_by key) [] items.

Definition show_all (book : AddressBook.t) : str :=
  match book with
  | [] => lit "No contacts saved."
  | _ :: _ =>
      let sorted_records := sorted (fun item => str_lower (fst item)) book in
      str_join newline (map (fun item => Record_.to_str (snd item)) sorted_records)
  end.

(** What [print_available_commands] prints, one string for each call of
    [print]. *)
Definition command_groups : list (str * list str) :=
  [ (lit "General", [lit "hello"; lit "exit"; lit "close"]);
    (lit "Contacts",
     [lit "addcontact"; lit "editname"; lit "removecontact"; lit "search"; lit "all"]);
    (lit "Phones", [lit "addphone"; lit "changephone"; lit "removephone"; lit "showphone"]);
    (lit "Birthdays",
     [lit "addbday"; lit "showbday"; lit "editbday"; lit "removebday"; lit "birthdays"]) ].

Definition print_available_commands : list str :=
  (lit "Unknown command. Try one of the following:" ++ newline)
  :: map (fun g => lit "   " ++ fst g ++ lit ": " ++ str_join (lit ", ") (snd g) ++ newline)
       command_groups.

(** One pass of the loop of [main], from the line that [input] has
    returned: what the pass hands to [print], the book it leaves in
    memory, whether it calls [save_address_book], and whether the loop
    ends.  The calls of [input], [print] and [save_address_book]
    themselves, and the exceptions they may raise ([EOFError],
    [KeyboardInterrupt], errors of the terminal or the file), are not
    modelled. *)
Record pass : Type := mkpass {
  printed : list str;
  book_after : AddressBook.t;
  saved : bool;
  stop : bool
}.

(** A handler that may change the book: its result is printed, and the
    book is saved when the result, in lower case, contains [word]. *)
Definition print_and_save (word : str) (r : handler_result) : result pass :=
  res <- r ;;
  Ok (mkpass [fst res] (snd res) (str_in word (str_lower (fst res))) false).

(** A handler that only reads. *)
Definition print_only (r : handler_result) : result pass :=
  res <- r ;; Ok (mkpass [fst res] (snd res) false false).

Definition main_pass (today : date) (user_input : str) (book : AddressBook.t)
  : or_attribute_error (result pass) :=
  match str_strip user_input with
  | [] => Normal (Ok (mkpass [] book false false))
  | _ :: _ =>
      match parse_input user_input with
      | Raise e => Normal (Raise e)
      | Ok (command, args) =>
          if existsb (str_eqb command) [lit "exit"; lit "close"]
          then Normal (Ok (mkpass [lit "Good bye!"] book true true))
          else if str_eqb command (lit "hello")
          then Normal (Ok (mkpass [lit "How can I help you?"] book false false))
          else if str_eqb command (lit "addcontact")
          then Normal (print_and_save (lit "added") (add_contact args book))
          else if str_eqb command (lit "editname")
          then Normal (print_and_save (lit "changed") (edit_contact_name args book))
          else if str_eqb command (lit "removecontact")
          then Normal (print_and_save (lit "removed") (remove_contact args book))
          else if str_eqb command (lit "addphone")
          then Normal (print_and_save (lit "added") (add_phone_to_contact args book))
          else if str_eqb command (lit "changephone")
          then Normal (print_and_save (lit "updated") (change_contact args book))
          else if str_eqb command (lit "removephone")
          then Normal (print_and_save (lit "removed") (remove_phone args book))
          else if str_eqb command (lit "showphone")
          then Normal (print_only (show_phone args book))
          else if str_eqb command (lit "addbday")
          then Normal (print_and_save (lit "added") (add_birthday today args book))
          else if str_eqb command (lit "showbday")
          then match show_birthday args book with
               | Normal r => Normal (print_only r)
               | AttributeError => AttributeError
               end
          else if str_eqb command (lit "editbday")
          then Normal (print_and_save (lit "updated") (edit_birthday today args book))
          else if str_eqb command (lit "removebday")
          then Normal (print_and_save (lit "removed") (remove_birthday args book))
          else if str_eqb command (lit "birthdays")
          then Normal (text <- upcoming_birthdays today book ;;
                       Ok (mkpass [text] book false false))
          else if str_eqb command (lit "search")
          then Normal (print_only (search_contacts args book))
          else if str_eqb command (lit "all")
          then Normal (Ok (mkpass [show_all book] book false false))
          else Normal (Ok (mkpass print_available_commands book false false))
      end
  end.

(** *** What a handler returns *)

(** A handler comes back with a message, and with the book as it was
    unless the message holds [word]. *)
Definition comes_back (word : str) (book : AddressBook.t) (r : handler_result) : Prop :=
  exists msg book',
    r = Ok (msg, book') /\ (str_in word (str_lower msg) = false -> book' = book).

(** *** Books of Latin-1 text

    The tables of [PyStr] are those of Python on the characters of
    Latin-1, and no statement is made about other characters: the
    properties that depend on a table are stated for texts of Latin-1
    characters. *)

Definition latin1_record (r : Record_.t) : Prop :=
  latin1_str (value (Record_.name r))
  /\ Forall (fun p => latin1_str (value p)) (Record_.phones r)
  /\ match Record_.birthday r with
     | Some b => latin1_str (value b)
     | None => True
     end.

(** Every key, name, number and birthday of the book is Latin-1 text. *)
Definition latin1_book (book : AddressBook.t) : Prop :=
  Forall latin1_str (AddressBook.keys book)
  /\ Forall latin1_record (AddressBook.values book).

(** *** Capitalizing in ASCII *)

(** First letter upper, the others lower. *)
Definition ascii_capitalize (part : str) : str :=
  match part with
  | [] => []
  | c :: rest => ascii_upper c :: map ascii_lower rest
  end.

(** The name as the specification builds it, with the letters of ASCII:
    the words are the pieces between white space that are not empty,
    which leaves out the white space around the name. *)
Definition ascii_rebuilt_name (raw : str) : str :=
  joined (lit " ")
    (map (fun word => joined (lit "-") (map ascii_capitalize (fields is_hyphen word)))
       (words raw)).

(* ================================================================== *)
(** * Part II: properties                                               *)
(* ================================================================== *)

(** ** Strings *)

Lemma str_eqb_eq (a b : str) : str_eqb a b = true <-> a = b.
Proof.
  revert b; induction a as [|x a IH]; intros [|y b]; simpl;
    try (split; [discriminate | discriminate]); try tauto.
  rewrite andb_true_iff, N.eqb_eq, IH. split.
  - intros [-> ->]; reflexivity.
  - intros H; inversion H; auto.
Qed.

Lemma str_eqb_refl (a : str) : str_eqb a a = true.
Proof. apply str_eqb_eq; reflexivity. Qed.

Lemma str_eqb_neq (a b : str) : str_eqb a b = false <-> a <> b.
Proof.
  rewrite <- str_eqb_eq. destruct (str_eqb a b); split; congruence.
Qed.

Lemma str_eqb_sym (a b : str) : str_eqb a b = str_eqb b a.
Proof.
  destruct (str_eqb a b) eqn:E.
  - apply str_eqb_eq in E; subst; symmetry; apply str_eqb_refl.
  - symmetry; apply str_eqb_neq; apply str_eqb_neq in E; congruence.
Qed.

Lemma forallb_Forall_true {A} (f : A -> bool) (l : list A) :
  forallb f l = true <-> Forall (fun x => f x = true) l.
Proof.
  rewrite forallb_forall, Forall_forall; tauto.
Qed.

(** ** Going through Latin-1 *)

Lemma latin1_chars_In (c : char) : latin1 c -> In c latin1_chars.
Proof.
  unfold latin1, latin1_chars. intros H.
  apply in_map_iff. exists (N.to_nat c). split; [apply N2Nat.id|].
  apply in_seq. lia.
Qed.

Lemma latin1_check (P : char -> bool) :
  forallb P latin1_chars = true -> forall c, latin1 c -> P c = true.
Proof.
  intros H c Hc. rewrite forallb_forall in H. apply H, latin1_chars_In, Hc.
Qed.

Lemma latin1_str_forallb (s : str) :
  forallb (fun c => c <? 256)%N s = true -> latin1_str s.
Proof.
  intros H. apply forallb_Forall_true in H.
  unfold latin1_str, latin1. eapply Forall_impl; [|exact H].
  intros c Hc. apply N.ltb_lt. exact Hc.
Qed.

(** ** Phone numbers *)

Lemma str_isdigit_10 (s : str) :
  length s = 10%nat -> str_isdigit s = forallb isdigit s.
Proof. destruct s; [discriminate | reflexivity]. Qed.

Lemma Phone_ok_iff (s : str) : Phone s = Ok (mkField s) <-> ten_digits s.
Proof.
  unfold Phone, ten_digits.
  destruct (Nat.eqb_spec (length s) 10) as [E|E].
  - rewrite (str_isdigit_10 _ E), <- forallb_Forall_true.
    destruct (forallb isdigit s); simpl; split; intros H;
      try discriminate; auto; destruct H; discriminate.
  - rewrite orb_true_r. split; [discriminate | tauto].
Qed.

Lemma Phone_cases (s : str) :
  Phone s = Ok (mkField s)
  \/ Phone s = Raise (ValueError (lit "Phone number must contain exactly 10 digits.")).
Proof. unfold Phone. destruct (_ || _); auto. Qed.

(** ** Editing a phone *)

Lemma find_phone_in_Some (ps : list Field) (phone : str) (p : Field) :
  Record_.find_phone_in ps phone = Some p -> In p ps /\ value p = phone.
Proof.
  induction ps as [|x ps IH]; simpl; [discriminate|].
  destruct (str_eqb (value x) phone) eqn:E.
  - intros H; injection H as <-. apply str_eqb_eq in E. auto.
  - intros H. destruct (IH H). auto.
Qed.

Lemma find_phone_in_None (ps : list Field) (phone : str) :
  Record_.find_phone_in ps phone = None <-> ~ In phone (map value ps).
Proof.
  induction ps as [|x ps IH]; simpl; [tauto|].
  destruct (str_eqb (value x) phone) eqn:E.
  - apply str_eqb_eq in E. split; [discriminate | tauto].
  - apply str_eqb_neq in E. rewrite IH. tauto.
Qed.

Lemma list_remove_length (ps : list Field) (p : Field) :
  In p ps -> S (length (Record_.list_remove ps p)) = length ps.
Proof.
  induction ps as [|x ps IH]; simpl; [tauto|].
  destruct (str_eqb (value x) (value p)) eqn:E; [reflexivity|].
  intros [->|H]; [rewrite str_eqb_refl in E; discriminate|].
  simpl. rewrite IH; auto.
Qed.

(** [edit_phone] answers true exactly when the old number is on the
    record and the new one passes [Phone]. *)
Lemma edit_phone_true_iff (r : Record_.t) (old new : str) :
  fst (Record_.edit_phone r old new) = true
  <-> In old (map value (Record_.phones r)) /\ ten_digits new.
Proof.
  unfold Record_.edit_phone, Record_.find_phone.
  destruct (Record_.find_phone_in (Record_.phones r) old) as [p|] eqn:F.
  - apply find_phone_in_Some in F as [Hin <-].
    destruct (Phone_cases new) as [H|H]; rewrite H; simpl.
    + apply Phone_ok_iff in H. split; auto using in_map.
    + split; [discriminate|]. intros [_ T]. apply Phone_ok_iff in T. congruence.
  - apply find_phone_in_None in F. simpl. split; [discriminate | tauto].
Qed.

(** On success the first phone with the old number is gone and the new
    number is at the end. *)
Lemma edit_phone_success (r : Record_.t) (old new : str) (p : Field) :
  Record_.find_phone r old = Some p -> ten_digits new ->
  Record_.edit_phone r old new
  = (true, Record_.set_phones r (Record_.list_remove (Record_.phones r) p ++ [mkField new])).
Proof.
  intros F T. unfold Record_.edit_phone. rewrite F.
  apply Phone_ok_iff in T. rewrite T. reflexivity.
Qed.

(** A missing old number leaves the record as it was. *)
Lemma edit_phone_old_missing (r : Record_.t) (old new : str) :
  Record_.find_phone r old = None -> Record_.edit_phone r old new = (false, r).
Proof. intros F. unfold Record_.edit_phone. rewrite F. reflexivity. Qed.

(** A new number that [Phone] refuses costs the record its old number:
    the answer is false and the list is one phone shorter. *)
Lemma edit_phone_new_refused (r : Record_.t) (old new : str) (p : Field) :
  Record_.find_phone r old = Some p -> ~ ten_digits new ->
  Record_.edit_phone r old new
  = (false, Record_.set_phones r (Record_.list_remove (Record_.phones r) p))
  /\ S (length (Record_.list_remove (Record_.phones r) p)) = length (Record_.phones r).
Proof.
  intros F T. unfold Record_.edit_phone. rewrite F. split.
  - destruct (Phone_cases new) as [H|H]; rewrite H; [|reflexivity].
    apply Phone_ok_iff in H. contradiction.
  - apply list_remove_length. apply (find_phone_in_Some _ _ _ F).
Qed.

(** The scenario of the specification: editing the only phone. *)
Example edit_phone_scenario :
  let r := Record_.mk (Name (lit "Anna")) [mkField (lit "1111111111")] None in
  let r' := snd (Record_.edit_phone r (lit "1111111111") (lit "2222222222")) in
  fst (Record_.edit_phone r (lit "1111111111") (lit "2222222222")) = true
  /\ Record_.find_phone r' (lit "1111111111") = None
  /\ Record_.find_phone r' (lit "2222222222") = Some (mkField (lit "2222222222")).
Proof. repeat split. Qed.

(** C1, where the code departs from it.  On the record whose only phone
    is 1111111111, [edit_phone] with that number and the new number
    [12345] answers false, and the record is left with no phone at all:
    the false return is not atomic. *)
Theorem edit_phone_failure_is_not_atomic :
  let r := Record_.mk (Name (lit "Anna")) [mkField (lit "1111111111")] None in
  Record_.edit_phone r (lit "1111111111") (lit "12345")
  = (false, Record_.mk (Name (lit "Anna")) [] None)
  /\ Record_.phones (snd (Record_.edit_phone r (lit "1111111111") (lit "12345")))
     <> Record_.phones r.
Proof. split; [reflexivity | discriminate]. Qed.

(** ** Replacing a record under its name *)

Lemma keys_app (a b : AddressBook.t) :
  AddressBook.keys (a ++ b) = AddressBook.keys a ++ AddressBook.keys b.
Proof. apply map_app. Qed.

Lemma dict_set_absent (d : AddressBook.t) (k : str) (v : Record_.t) :
  ~ In k (AddressBook.keys d) -> AddressBook.dict_set d k v = d ++ [(k, v)].
Proof.
  induction d as [|[k' v'] d IH]; simpl; [reflexivity|].
  intros H. destruct (str_eqb k' k) eqn:E.
  - apply str_eqb_eq in E. tauto.
  - rewrite IH; tauto.
Qed.

Lemma dict_set_present (d1 d2 : AddressBook.t) (k : str) (old v : Record_.t) :
  ~ In k (AddressBook.keys d1) ->
  AddressBook.dict_set (d1 ++ (k, old) :: d2) k v = d1 ++ (k, v) :: d2.
Proof.
  induction d1 as [|[k' v'] d1 IH]; simpl.
  - rewrite str_eqb_refl. reflexivity.
  - intros H. destruct (str_eqb k' k) eqn:E.
    + apply str_eqb_eq in E. tauto.
    + rewrite IH; tauto.
Qed.

Lemma dict_split (d : AddressBook.t) (k : str) (r : Record_.t) :
  dict_ok d -> In (k, r) d ->
  exists d1 d2, d = d1 ++ (k, r) :: d2
    /\ ~ In k (AddressBook.keys d1) /\ ~ In k (AddressBook.keys d2).
Proof.
  unfold dict_ok. intros ND Hin.
  apply in_split in Hin as (d1 & d2 & ->).
  exists d1, d2. rewrite keys_app in ND. simpl in ND.
  apply NoDup_remove_2 in ND. rewrite in_app_iff in ND. tauto.
Qed.

Lemma find_item_In (book : AddressBook.t) (l : str) (kr : str * Record_.t) :
  AddressBook.find_item book l = Some kr -> In kr book /\ str_lower (fst kr) = l.
Proof.
  induction book as [|[k r] book IH]; simpl; [discriminate|].
  destruct (str_eqb (str_lower k) l) eqn:E.
  - intros H; injection H as <-. apply str_eqb_eq in E. auto.
  - intros H. destruct (IH H). auto.
Qed.

Lemma find_In (book : AddressBook.t) (q : str) (r : Record_.t) :
  AddressBook.find book q = Some r -> In r (AddressBook.values book).
Proof.
  unfold AddressBook.find.
  destruct (AddressBook.find_item book (str_lower q)) as [kr|] eqn:F; [|discriminate].
  simpl. intros H; injection H as <-.
  apply find_item_In in F as [F _]. apply (in_map snd) in F. exact F.
Qed.

(** C10.  When the book holds a record [old] under the name [n] and
    [add_record] is given another record [new] with that very name, the
    book keeps its size and its sequence of keys, [new] stands where
    [old] stood, and no query to [find] returns [old] any more. *)
Theorem add_record_same_name_replaces
    (book : AddressBook.t) (n : str) (old new : Record_.t) :
  dict_ok book -> keyed_by_name book ->
  In (n, old) book -> value (Record_.name new) = n -> old <> new ->
  let book' := AddressBook.add_record book new in
  length book' = length book
  /\ AddressBook.keys book' = AddressBook.keys book
  /\ (forall i, nth_error book i = Some (n, old) -> nth_error book' i = Some (n, new))
  /\ ~ In old (AddressBook.values book')
  /\ (forall q, AddressBook.find book' q <> Some old).
Proof.
  intros ND KN Hin Hn Hne book'.
  destruct (dict_split book n old ND Hin) as (d1 & d2 & E & N1 & N2).
  assert (E' : book' = d1 ++ (n, new) :: d2).
  { unfold book', AddressBook.add_record. rewrite Hn, E. apply dict_set_present; exact N1. }
  assert (Hold : ~ In old (AddressBook.values book')).
  { rewrite E'. unfold AddressBook.values. rewrite map_app. simpl.
    rewrite in_app_iff. intros [H|[H|H]].
    - apply in_map_iff in H as ([k r] & Hr & Hkr). simpl in Hr; subst r.
      assert (K : value (Record_.name old) = k)
        by (apply KN; rewrite E; apply in_or_app; left; exact Hkr).
      assert (K' : value (Record_.name old) = n) by (apply KN; exact Hin).
      apply N1. apply in_map_iff. exists (k, old). split; [simpl; congruence | exact Hkr].
    - congruence.
    - apply in_map_iff in H as ([k r] & Hr & Hkr). simpl in Hr; subst r.
      assert (K : value (Record_.name old) = k)
        by (apply KN; rewrite E; apply in_or_app; right; right; exact Hkr).
      assert (K' : value (Record_.name old) = n) by (apply KN; exact Hin).
      apply N2. apply in_map_iff. exists (k, old). split; [simpl; congruence | exact Hkr]. }
  repeat split.
  - rewrite E', E. rewrite !length_app. reflexivity.
  - rewrite E', E. rewrite !keys_app. reflexivity.
  - intros i Hi. rewrite E' . rewrite E in Hi.
    assert (i = length d1).
    { destruct (Nat.lt_trichotomy i (length d1)) as [L|[L|L]]; [|exact L|].
      - rewrite nth_error_app1 in Hi by exact L.
        apply nth_error_In in Hi. apply (in_map fst) in Hi. contradiction.
      - rewrite nth_error_app2 in Hi by lia.
        destruct (i - length d1) as [|j] eqn:J; [lia|]. simpl in Hi.
        apply nth_error_In in Hi. apply (in_map fst) in Hi. contradiction. }
    subst i. rewrite nth_error_app2 by lia. rewrite Nat.sub_diag. reflexivity.
  - exact Hold.
  - intros q H. apply find_In in H. contradiction.
Qed.

(** An instance: Bob's record is replaced in the middle of a book. *)
Lemma add_record_same_name_replaces_witness :
  let anna := Record_.mk (Name (lit "Anna")) [mkField (lit "1111111111")] None in
  let bob := Record_.mk (Name (lit "Bob")) [mkField (lit "2222222222")] None in
  let bob' := Record_.mk (Name (lit "Bob")) [mkField (lit "3333333333")] None in
  let eve := Record_.mk (Name (lit "Eve")) [] None in
  let book := [(lit "Anna", anna); (lit "Bob", bob); (lit "Eve", eve)] in
  let book' := AddressBook.add_record book bob' in
  length book' = length book
  /\ AddressBook.keys book' = AddressBook.keys book
  /\ (forall i, nth_error book i = Some (lit "Bob", bob)
                -> nth_error book' i = Some (lit "Bob", bob'))
  /\ ~ In bob (AddressBook.values book')
  /\ (forall q, AddressBook.find book' q <> Some bob).
Proof.
  intros anna bob bob' eve book book'.
  apply (add_record_same_name_replaces book (lit "Bob") bob bob').
  - unfold dict_ok. simpl. repeat constructor; simpl; intuition discriminate.
  - intros k r H. simpl in H.
    destruct H as [H|[H|[H|[]]]]; injection H as <- <-; reflexivity.
  - simpl. right; left; reflexivity.
  - reflexivity.
  - discriminate.
Defined.

(** ** Searching *)

Lemma str_startswith_iff (s p : str) :
  str_startswith s p = true <-> exists rest, s = p ++ rest.
Proof.
  revert s; induction p as [|x p IH]; intros [|c s]; simpl.
  - split; [intros _; exists []; reflexivity | reflexivity].
  - split; [intros _; eexists; reflexivity | reflexivity].
  - split; [discriminate | intros [r H]; discriminate].
  - rewrite andb_true_iff, N.eqb_eq, IH. split.
    + intros [-> [r ->]]. eauto.
    + intros [r H]. injection H as -> ->. eauto.
Qed.

Lemma str_in_iff (q s : str) : str_in q s = true <-> contains s q.
Proof.
  unfold contains. induction s as [|c s IH]; cbn [str_in].
  - rewrite orb_false_r, str_startswith_iff. split.
    + intros [r H]. exists [], r. exact H.
    + intros (a & b & H). destruct a; [|discriminate]. exists b. exact H.
  - rewrite orb_true_iff, str_startswith_iff, IH. split.
    + intros [[r H]|(a & b & H)].
      * exists [], r. exact H.
      * exists (c :: a), b. simpl. congruence.
    + intros (a & b & H). destruct a as [|x a].
      * left. exists b. exact H.
      * right. injection H as _ H. eauto.
Qed.

Lemma starts_with_ci_iff (name q : str) :
  str_startswith (str_lower name) (str_lower q) = true <-> starts_with_ci name q.
Proof. apply str_startswith_iff. Qed.

(** Said of the name itself: one of its prefixes is [q] up to case. *)
Lemma starts_with_ci_prefix (name q : str) :
  starts_with_ci name q
  <-> exists p rest, name = p ++ rest /\ str_lower p = str_lower q.
Proof.
  unfold starts_with_ci, str_lower. split.
  - intros [rest H].
    exists (firstn (length q) name), (skipn (length q) name). split.
    + symmetry. apply firstn_skipn.
    + rewrite <- firstn_map, H.
      replace (length q) with (length (map lower q)) by apply length_map.
      rewrite firstn_app, Nat.sub_diag, firstn_all. simpl. apply app_nil_r.
  - intros (p & rest & -> & H). exists (map lower rest).
    rewrite map_app, H. reflexivity.
Qed.

Ltac bool_to_prop :=
  unfold in_range in *;
  repeat rewrite ?orb_true_iff, ?andb_true_iff, ?orb_false_iff, ?andb_false_iff,
    ?N.leb_le, ?N.leb_gt, ?N.eqb_eq, ?N.eqb_neq in *.

Lemma lower_digit (c : char) : isdigit (lower c) = true -> lower c = c.
Proof.
  unfold lower.
  destruct (in_range 0x41 0x5A c || in_range 0xC0 0xD6 c || in_range 0xD8 0xDE c
            || (c =? 0x39C)%N) eqn:E1;
    [|destruct (c =? 0x178)%N eqn:E2; [|reflexivity]];
    unfold isdigit; intros H; bool_to_prop; lia.
Qed.

Lemma digit_lower (c : char) : isdigit c = true -> lower c = c.
Proof.
  unfold lower.
  destruct (in_range 0x41 0x5A c || in_range 0xC0 0xD6 c || in_range 0xD8 0xDE c
            || (c =? 0x39C)%N) eqn:E1;
    [|destruct (c =? 0x178)%N eqn:E2; [|reflexivity]];
    unfold isdigit; intros H; bool_to_prop; lia.
Qed.

Lemma str_lower_digits (q : str) :
  Forall (fun c => isdigit c = true) q -> str_lower q = q.
Proof.
  induction 1 as [|c q Hc _ IH]; simpl; [reflexivity|].
  rewrite digit_lower by exact Hc. f_equal. exact IH.
Qed.

Lemma str_lower_into_digits (q : str) :
  Forall (fun c => isdigit c = true) (str_lower q) -> str_lower q = q.
Proof.
  induction q as [|c q IH]; simpl; [reflexivity|].
  intros H. inversion H as [|? ? Hc Hq]; subst.
  rewrite lower_digit by exact Hc. f_equal. apply IH; exact Hq.
Qed.

Lemma contains_Forall {P : char -> Prop} (s q : str) :
  contains s q -> Forall P s -> Forall P q.
Proof.
  intros (a & b & ->) H.
  apply Forall_app in H as [_ H]. apply Forall_app in H as [H _]. exact H.
Qed.

(** In a phone that went through [Phone], the query occurs exactly when
    its lower-case form does. *)
Lemma contains_lower_query (phone q : str) :
  ten_digits phone -> (contains phone (str_lower q) <-> contains phone q).
Proof.
  intros [_ D]. split; intros H.
  - rewrite <- (str_lower_into_digits q); [exact H|].
    apply (contains_Forall _ _ H D).
  - rewrite (str_lower_digits q); [exact H|].
    apply (contains_Forall _ _ H D).
Qed.

Lemma search_test_iff (q : str) (r : Record_.t) :
  phones_checked r ->
  (str_startswith (str_lower (value (Record_.name r))) (str_lower q)
   || existsb (fun phone => str_in (str_lower q) (value phone)) (Record_.phones r)
   = true)
  <-> search_matches q r.
Proof.
  intros PC. unfold search_matches.
  rewrite orb_true_iff, starts_with_ci_iff, existsb_exists.
  unfold phones_checked in PC. rewrite Forall_forall in PC.
  split; (intros [H|(p & Hp & H)]; [left; exact H | right; exists p; split; [exact Hp|]]).
  - apply str_in_iff in H. apply (contains_lower_query _ _ (PC p Hp)). exact H.
  - apply str_in_iff. apply (contains_lower_query _ _ (PC p Hp)). exact H.
Qed.

Lemma search_loop_selection (q : str) (records : list Record_.t) :
  Forall phones_checked records ->
  exists found, selection (search_matches q) records found
    /\ forall result, AddressBook.search_loop (str_lower q) records result
                      = result ++ map Record_.to_str found.
Proof.
  induction 1 as [|r records PC _ (found & S & E)].
  - exists []. split; [constructor|]. intros; simpl. symmetry; apply app_nil_r.
  - pose proof (search_test_iff q r PC) as T. simpl.
    destruct (_ || _).
    + exists (r :: found). split; [constructor; [apply T; reflexivity | exact S]|].
      intros result. rewrite E, <- app_assoc. reflexivity.
    + exists found. split; [|exact E].
      apply sel_skip; [|exact S]. intros M. apply T in M. discriminate.
Qed.

(** C6.  In a book of Latin-1 text whose phones all went through
    [Phone], and for a query of Latin-1 characters, [search] returns the
    rendered forms of exactly the records whose name starts with the
    query when case is ignored, or one of whose phones contains the
    query, in the order of the book.  Of "Anna Lee" and "Lee Park", the
    query [lee] finds the second only. *)
Theorem search_returns_the_matching_records (book : AddressBook.t) (q : str) :
  latin1_book book -> latin1_str q -> book_phones_checked book ->
  (exists found,
      selection (search_matches q) (AddressBook.values book) found
      /\ AddressBook.search book q = map Record_.to_str found)
  /\ (let anna :=
        Record_.mk (Name (lit "Anna Lee")) [mkField (lit "1112223333")] None in
      let lee :=
        Record_.mk (Name (lit "Lee Park")) [mkField (lit "4445556666")] None in
      AddressBook.search [(lit "Anna Lee", anna); (lit "Lee Park", lee)] (lit "lee")
      = [lit "Lee Park: 4445556666"]).
Proof.
  intros _ _ PC. split; [|reflexivity].
  destruct (search_loop_selection q (AddressBook.values book) PC) as (found & S & E).
  exists found. split; [exact S|]. unfold AddressBook.search. rewrite E. reflexivity.
Qed.

(** An instance: the book of the scenario and the query [lee]. *)
Lemma search_returns_the_matching_records_witness :
  let anna := Record_.mk (Name (lit "Anna Lee")) [mkField (lit "1112223333")] None in
  let lee := Record_.mk (Name (lit "Lee Park")) [mkField (lit "4445556666")] None in
  let book := [(lit "Anna Lee", anna); (lit "Lee Park", lee)] in
  latin1_book book /\ latin1_str (lit "lee") /\ book_phones_checked book
  /\ exists found,
       selection (search_matches (lit "lee")) (AddressBook.values book) found
       /\ AddressBook.search book (lit "lee") = map Record_.to_str found.
Proof.
  intros anna lee book.
  assert (B : latin1_book book).
  { unfold latin1_book, latin1_record; cbn;
      repeat first [ split | constructor | apply latin1_str_forallb; reflexivity ]. }
  assert (Q : latin1_str (lit "lee")) by (apply latin1_str_forallb; reflexivity).
  assert (PC : book_phones_checked book).
  { unfold book_phones_checked, phones_checked, ten_digits. simpl.
    repeat constructor. }
  split; [exact B|]. split; [exact Q|]. split; [exact PC|].
  exact (proj1 (search_returns_the_matching_records book (lit "lee") B Q PC)).
Defined.

(** ** The calendar *)

Local Open Scope Z_scope.

(** Equations between tests on integers: case on every test, then
    linear arithmetic with the quotients and remainders named. *)
Ltac beq_lia :=
  repeat match goal with
         | |- context [(?x =? ?y)%Z] => destruct (Z.eqb_spec x y)
         | |- context [(?x <? ?y)%Z] => destruct (Z.ltb_spec x y)
         | |- context [(?x <=? ?y)%Z] => destruct (Z.leb_spec x y)
         end;
  simpl; try reflexivity; exfalso; Z.div_mod_to_equations; lia.

Lemma div_mod_small (m q r : Z) :
  0 <= r < m -> (m * q + r) / m = q /\ (m * q + r) mod m = r.
Proof.
  intros H. split.
  - symmetry. apply (Z.div_unique_pos _ _ q r); [exact H | reflexivity].
  - symmetry. apply (Z.mod_unique_pos _ _ q r); [exact H | reflexivity].
Qed.

(** A year counted from 1 is 400 a + 100 b + 4 c + e + 1 in one way. *)
Lemma year_decomposition (y : Z) :
  exists a b c e, y = 400 * a + 100 * b + 4 * c + e + 1
    /\ 0 <= b < 4 /\ 0 <= c < 25 /\ 0 <= e < 4.
Proof.
  exists ((y - 1) / 400), ((y - 1) mod 400 / 100),
    ((y - 1) mod 400 mod 100 / 4), ((y - 1) mod 400 mod 100 mod 4).
  Z.div_mod_to_equations. lia.
Qed.

Lemma days_before_year_decomposed (a b c e : Z) :
  0 <= b < 4 -> 0 <= c < 25 -> 0 <= e < 4 ->
  _days_before_year (400 * a + 100 * b + 4 * c + e + 1)
  = 146097 * a + 36524 * b + 1461 * c + 365 * e.
Proof.
  intros Hb Hc He. unfold _days_before_year.
  replace (400 * a + 100 * b + 4 * c + e + 1 - 1)
    with (400 * a + 100 * b + 4 * c + e) by ring.
  assert (E4 : (400 * a + 100 * b + 4 * c + e) / 4 = 100 * a + 25 * b + c).
  { replace (400 * a + 100 * b + 4 * c + e) with (4 * (100 * a + 25 * b + c) + e) by ring.
    apply div_mod_small; lia. }
  assert (E100 : (400 * a + 100 * b + 4 * c + e) / 100 = 4 * a + b).
  { replace (400 * a + 100 * b + 4 * c + e) with (100 * (4 * a + b) + (4 * c + e)) by ring.
    apply div_mod_small; lia. }
  assert (E400 : (400 * a + 100 * b + 4 * c + e) / 400 = a).
  { replace (400 * a + 100 * b + 4 * c + e) with (400 * a + (100 * b + 4 * c + e)) by ring.
    apply div_mod_small; lia. }
  rewrite E4, E100, E400. ring.
Qed.

Lemma is_leap_decomposed (a b c e : Z) :
  0 <= b < 4 -> 0 <= c < 25 -> 0 <= e < 4 ->
  _is_leap (400 * a + 100 * b + 4 * c + e + 1)
  = (e =? 3) && (negb (c =? 24) || (b =? 3)).
Proof.
  intros Hb Hc He. unfold _is_leap.
  assert (M4 : (400 * a + 100 * b + 4 * c + e + 1) mod 4 = (e + 1) mod 4).
  { replace (400 * a + 100 * b + 4 * c + e + 1)
      with ((e + 1) + (100 * a + 25 * b + c) * 4) by ring.
    apply Z.mod_add. lia. }
  assert (M100 : (400 * a + 100 * b + 4 * c + e + 1) mod 100 = (4 * c + e + 1) mod 100).
  { replace (400 * a + 100 * b + 4 * c + e + 1)
      with ((4 * c + e + 1) + (4 * a + b) * 100) by ring.
    apply Z.mod_add. lia. }
  assert (M400 : (400 * a + 100 * b + 4 * c + e + 1) mod 400
                 = (100 * b + 4 * c + e + 1) mod 400).
  { replace (400 * a + 100 * b + 4 * c + e + 1)
      with ((100 * b + 4 * c + e + 1) + a * 400) by ring.
    apply Z.mod_add. lia. }
  assert (B4 : ((e + 1) mod 4 =? 0) = (e =? 3)) by beq_lia.
  assert (B100 : ((4 * c + e + 1) mod 100 =? 0) = (c =? 24) && (e =? 3)) by beq_lia.
  assert (B400 : ((100 * b + 4 * c + e + 1) mod 400 =? 0)
                 = (b =? 3) && (c =? 24) && (e =? 3)) by beq_lia.
  rewrite M4, M100, M400, B4, B100, B400.
  destruct (e =? 3), (c =? 24), (b =? 3); reflexivity.
Qed.

Lemma ord2ymd_tail (n : Z) :
  _ord2ymd n
  = (let n0 := n - 1 in
     let n400 := n0 / 146097 in
     let r400 := n0 mod 146097 in
     let n100 := r400 / 36524 in
     let r100 := r400 mod 36524 in
     let n4 := r100 / 1461 in
     let r4 := r100 mod 1461 in
     let n1 := r4 / 365 in
     let r1 := r4 mod 365 in
     let y := n400 * 400 + 1 + n100 * 100 + n4 * 4 + n1 in
     if (n1 =? 4) || (n100 =? 4) then mkdate (y - 1) 12 31
     else month_and_day y ((n1 =? 3) && (negb (n4 =? 24) || (n100 =? 3))) r1).
Proof. reflexivity. Qed.

Lemma months (m : Z) :
  1 <= m <= 12 ->
  m = 1 \/ m = 2 \/ m = 3 \/ m = 4 \/ m = 5 \/ m = 6
  \/ m = 7 \/ m = 8 \/ m = 9 \/ m = 10 \/ m = 11 \/ m = 12.
Proof. lia. Qed.

Ltac each_month H :=
  destruct (months _ H) as [->|[->|[->|[->|[->|[->|[->|[->|[->|[->|[->| ->]]]]]]]]]]].

(** Tables and tests on numerals are computed, sums are left alone. *)
Ltac fold_numerals :=
  repeat match goal with
         | |- context [Z.pos ?a - Z.pos ?b] =>
             let v := eval cbv in (Z.pos a - Z.pos b) in
             change (Z.pos a - Z.pos b) with v
         | |- context [Z.pos ?a + Z.pos ?b] =>
             let v := eval cbv in (Z.pos a + Z.pos b) in
             change (Z.pos a + Z.pos b) with v
         end.

Ltac cal_simp :=
  cbv [year_offset month_length _DAYS_BEFORE_MONTH _DAYS_IN_MONTH] in *;
  fold_numerals;
  cbv [_DAYS_BEFORE_MONTH _DAYS_IN_MONTH] in *;
  cbn [Z.ltb Z.eqb Z.compare Pos.compare Pos.compare_cont Pos.eqb andb] in *.

Lemma year_offset_bound (leap : bool) (m d : Z) :
  1 <= m <= 12 -> 1 <= d <= month_length leap m ->
  0 <= year_offset leap m d < 365 + (if leap then 1 else 0).
Proof.
  intros Hm Hd. each_month Hm; destruct leap; cal_simp; lia.
Qed.

Lemma year_offset_last (leap : bool) (m d : Z) :
  1 <= m <= 12 -> 1 <= d <= month_length leap m ->
  year_offset leap m d = 365 -> m = 12 /\ d = 31.
Proof.
  intros Hm Hd. each_month Hm; destruct leap; cal_simp; lia.
Qed.

Lemma month_and_day_correct (y : Z) (leap : bool) (m d : Z) :
  1 <= m <= 12 -> 1 <= d <= month_length leap m ->
  month_and_day y leap (year_offset leap m d) = mkdate y m d.
Proof.
  intros Hm Hd. unfold month_and_day.
  remember (Z.shiftr (year_offset leap m d + 50) 5) as q eqn:Hq.
  rewrite Z.shiftr_div_pow2 in Hq by lia. change (2 ^ 5) with 32 in Hq.
  assert (Q : 1 <= q <= 12 /\ (q = m \/ q = m + 1)).
  { each_month Hm; destruct leap; cal_simp; Z.div_mod_to_equations; lia. }
  destruct Q as [Q1 Q2].
  each_month Q1; each_month Hm; try lia; destruct leap; cal_simp;
    Z.div_mod_to_equations;
    repeat match goal with
           | |- context [(?x <? ?y)%Z] => destruct (Z.ltb_spec x y)
           end; try lia; f_equal; lia.
Qed.

Ltac split_div m q r :=
  let D := fresh "D" in
  let M := fresh "M" in
  destruct (div_mod_small m q r) as [D M]; [lia | rewrite ?D, ?M; clear D M].

Lemma ord2ymd_decomposed (a b c e k : Z) :
  0 <= b < 4 -> 0 <= c < 25 -> 0 <= e < 4 ->
  0 <= k < 365 + (if (e =? 3) && (negb (c =? 24) || (b =? 3)) then 1 else 0) ->
  _ord2ymd (146097 * a + 36524 * b + 1461 * c + 365 * e + k + 1)
  = if k =? 365 then mkdate (400 * a + 100 * b + 4 * c + e + 1) 12 31
    else month_and_day (400 * a + 100 * b + 4 * c + e + 1)
           ((e =? 3) && (negb (c =? 24) || (b =? 3))) k.
Proof.
  intros Hb Hc He Hk. rewrite ord2ymd_tail. cbv zeta.
  destruct (Z.eqb_spec k 365) as [K|K].
  - (* the last day of a leap year *)
    subst k.
    assert (L : (e =? 3) && (negb (c =? 24) || (b =? 3)) = true).
    { destruct ((e =? 3) && (negb (c =? 24) || (b =? 3))); [reflexivity | lia]. }
    apply andb_true_iff in L as [L1 L2]. apply Z.eqb_eq in L1. subst e.
    destruct (Z.eqb_spec c 24) as [C|C].
    + assert (b = 3) by (destruct (Z.eqb_spec b 3); [assumption | discriminate]).
      subst b c.
      replace (146097 * a + 36524 * 3 + 1461 * 24 + 365 * 3 + 365 + 1 - 1)
        with (146097 * a + (36524 * 4 + 0)) by ring.
      split_div 146097 a (36524 * 4 + 0).
      split_div 36524 4 0.
      change (0 / 1461) with 0. change (0 mod 1461) with 0.
      change (0 / 365) with 0. change (4 =? 4) with true.
      rewrite orb_true_r. f_equal. ring.
    + replace (146097 * a + 36524 * b + 1461 * c + 365 * 3 + 365 + 1 - 1)
        with (146097 * a + (36524 * b + (1461 * c + (365 * 4 + 0)))) by ring.
      split_div 146097 a (36524 * b + (1461 * c + (365 * 4 + 0))).
      split_div 36524 b (1461 * c + (365 * 4 + 0)).
      split_div 1461 c (365 * 4 + 0).
      split_div 365 4 0.
      change (4 =? 4) with true. cbn [orb]. f_equal. ring.
  - assert (Hk' : 0 <= k < 365)
      by (destruct ((e =? 3) && (negb (c =? 24) || (b =? 3))); lia).
    replace (146097 * a + 36524 * b + 1461 * c + 365 * e + k + 1 - 1)
      with (146097 * a + (36524 * b + (1461 * c + (365 * e + k)))) by ring.
    split_div 146097 a (36524 * b + (1461 * c + (365 * e + k))).
    split_div 36524 b (1461 * c + (365 * e + k)).
    split_div 1461 c (365 * e + k).
    split_div 365 e k.
    replace (e =? 4) with false by (symmetry; apply Z.eqb_neq; lia).
    replace (b =? 4) with false by (symmetry; apply Z.eqb_neq; lia).
    cbn [orb]. f_equal. ring.
Qed.

Lemma valid_date_iff (d : date) :
  valid_date d = true
  <-> 1 <= year d <= 9999 /\ 1 <= month d <= 12
      /\ 1 <= day d <= _days_in_month (year d) (month d).
Proof.
  unfold valid_date, MINYEAR, MAXYEAR.
  rewrite !andb_true_iff, !Z.leb_le. tauto.
Qed.

Lemma days_in_month_length (y m : Z) :
  _days_in_month y m = month_length (_is_leap y) m.
Proof. reflexivity. Qed.

Lemma toordinal_offset (d : date) :
  toordinal d
  = _days_before_year (year d) + year_offset (_is_leap (year d)) (month d) (day d) + 1.
Proof.
  unfold toordinal, _ymd2ord, _days_before_month, year_offset. ring.
Qed.

(** [fromordinal] undoes [toordinal]. *)
Lemma fromordinal_toordinal (d : date) :
  valid_date d = true -> fromordinal (toordinal d) = d.
Proof.
  intros V. apply valid_date_iff in V as (Hy & Hm & Hd).
  rewrite toordinal_offset. unfold fromordinal.
  destruct d as [y m dd]. cbn [year month day] in *.
  rewrite days_in_month_length in Hd.
  destruct (year_decomposition y) as (a & b & c & e & -> & Hb & Hc & He).
  rewrite days_before_year_decomposed by assumption.
  rewrite is_leap_decomposed in * by assumption.
  pose proof (year_offset_bound _ _ _ Hm Hd) as B.
  rewrite ord2ymd_decomposed by assumption.
  destruct (Z.eqb_spec (year_offset ((e =? 3) && (negb (c =? 24) || (b =? 3))) m dd) 365)
    as [K|K].
  - destruct (year_offset_last _ _ _ Hm Hd K) as [-> ->]. reflexivity.
  - apply month_and_day_correct; assumption.
Qed.

(** *** Stepping through the calendar *)

Lemma days_before_year_succ (y : Z) :
  _days_before_year (y + 1)
  = _days_before_year y + 365 + (if _is_leap y then 1 else 0).
Proof.
  unfold _days_before_year, _is_leap. cbv zeta.
  replace (y + 1 - 1) with y by ring.
  destruct (Z.eqb_spec (y mod 4) 0), (Z.eqb_spec (y mod 100) 0),
    (Z.eqb_spec (y mod 400) 0); cbn [andb orb negb];
    Z.div_mod_to_equations; lia.
Qed.

Lemma days_before_year_mono (y y' : Z) :
  y <= y' -> _days_before_year y <= _days_before_year y'.
Proof.
  intros H. unfold _days_before_year. cbv zeta. Z.div_mod_to_equations. lia.
Qed.

Lemma toordinal_bounds (d : date) :
  valid_date d = true -> 1 <= toordinal d <= _MAXORDINAL.
Proof.
  intros V. apply valid_date_iff in V as (Hy & Hm & Hd).
  rewrite days_in_month_length in Hd.
  pose proof (year_offset_bound _ _ _ Hm Hd) as B.
  pose proof (days_before_year_mono 1 (year d) ltac:(lia)) as L.
  pose proof (days_before_year_mono (year d + 1) 10000 ltac:(lia)) as U.
  rewrite days_before_year_succ in U.
  change (_days_before_year 1) with 0 in L.
  change (_days_before_year 10000) with 3652059 in U.
  rewrite toordinal_offset. unfold _MAXORDINAL.
  destruct (_is_leap (year d)); lia.
Qed.

Lemma year_offset_next_month (leap : bool) (m : Z) :
  1 <= m < 12 ->
  year_offset leap (m + 1) 1 = year_offset leap m (month_length leap m) + 1
  /\ 1 <= month_length leap (m + 1).
Proof.
  intros Hm. assert (Hm' : 1 <= m <= 12) by lia.
  each_month Hm'; try lia; destruct leap; cal_simp; lia.
Qed.

Lemma year_offset_december (leap : bool) :
  year_offset leap 12 31 = 364 + (if leap then 1 else 0).
Proof. destruct leap; reflexivity. Qed.

Lemma month_length_december (leap : bool) : month_length leap 12 = 31.
Proof. destruct leap; reflexivity. Qed.

(** The day after a date that is not the last one is a date, one day
    further. *)
Lemma tomorrow_correct (d : date) :
  valid_date d = true -> toordinal d < _MAXORDINAL ->
  valid_date (tomorrow d) = true /\ toordinal (tomorrow d) = toordinal d + 1.
Proof.
  intros V Hlt. pose proof (toordinal_bounds d V) as TB. revert Hlt TB.
  apply valid_date_iff in V as (Hy & Hm & Hd).
  rewrite !toordinal_offset, valid_date_iff. unfold tomorrow, _MAXORDINAL.
  destruct (Z.ltb_spec (day d) (_days_in_month (year d) (month d))) as [L|L];
    [|destruct (Z.ltb_spec (month d) 12) as [L'|L']]; cbn [year month day];
    rewrite ?days_in_month_length in *; intros Hlt TB.
  - unfold year_offset. lia.
  - assert (E : day d = month_length (_is_leap (year d)) (month d)) by lia.
    destruct (year_offset_next_month (_is_leap (year d)) (month d) ltac:(lia)) as [O P].
    rewrite O, E. lia.
  - assert (E12 : month d = 12) by lia. rewrite E12 in *.
    rewrite month_length_december in *.
    assert (E31 : day d = 31) by lia. rewrite E31 in *.
    rewrite year_offset_december in *. rewrite days_before_year_succ.
    assert (year d <> 9999).
    { intros E. rewrite E in *. change (_days_before_year 9999) with 3651694 in *.
      change (_is_leap 9999) with false in *. lia. }
    change (year_offset (_is_leap (year d + 1)) 1 1) with 0.
    change (month_length (_is_leap (year d + 1)) 1) with 31.
    destruct (_is_leap (year d)); lia.
Qed.

Lemma days_after_correct (n : nat) (d : date) :
  valid_date d = true -> toordinal d + Z.of_nat n <= _MAXORDINAL ->
  valid_date (days_after n d) = true
  /\ toordinal (days_after n d) = toordinal d + Z.of_nat n.
Proof.
  intros V. induction n as [|n IH]; intros H.
  - simpl. split; [exact V | lia].
  - destruct IH as [V' T']; [lia|].
    cbn [days_after].
    destruct (tomorrow_correct (days_after n d) V') as [V'' T'']; [lia|].
    split; [exact V'' | lia].
Qed.

(** Adding days through the ordinal is stepping through the calendar. *)
Lemma add_days_days_after (n : nat) (d : date) :
  valid_date d = true -> toordinal d + Z.of_nat n <= _MAXORDINAL ->
  add_days d (Z.of_nat n) = Ok (days_after n d).
Proof.
  intros V H. destruct (days_after_correct n d V H) as [V' T'].
  pose proof (toordinal_bounds d V) as B.
  unfold add_days.
  replace (0 <? toordinal d + Z.of_nat n) with true by (symmetry; apply Z.ltb_lt; lia).
  replace (toordinal d + Z.of_nat n <=? _MAXORDINAL) with true
    by (symmetry; apply Z.leb_le; lia).
  cbn [andb]. rewrite <- T'. rewrite fromordinal_toordinal by exact V'. reflexivity.
Qed.

Lemma add_days_overflow (n : Z) (d : date) :
  _MAXORDINAL < toordinal d + n -> add_days d n = Raise OverflowError.
Proof.
  intros H. unfold add_days.
  replace (toordinal d + n <=? _MAXORDINAL) with false
    by (symmetry; apply Z.leb_gt; lia).
  rewrite andb_false_r. reflexivity.
Qed.

(** *** The order of dates *)

Lemma date_ltb_iff (a b : date) :
  date_ltb a b = true
  <-> year a < year b
      \/ (year a = year b
          /\ (month a < month b \/ (month a = month b /\ day a < day b))).
Proof.
  unfold date_ltb.
  rewrite !orb_true_iff, !andb_true_iff, !orb_true_iff, !andb_true_iff,
    !Z.ltb_lt, !Z.eqb_eq. tauto.
Qed.

Lemma date_eqb_iff (a b : date) : date_eqb a b = true <-> a = b.
Proof.
  unfold date_eqb. rewrite !andb_true_iff, !Z.eqb_eq.
  destruct a, b; cbn [year month day]. split.
  - intros [[-> ->] ->]. reflexivity.
  - intros H; injection H as -> -> ->. auto.
Qed.

Lemma year_offset_month_mono (leap : bool) (m m' d : Z) :
  1 <= m <= 12 -> 1 <= m' <= 12 -> m < m' -> 1 <= d <= month_length leap m ->
  year_offset leap m d < year_offset leap m' 1.
Proof.
  intros Hm Hm' L Hd.
  each_month Hm; each_month Hm'; try lia; destruct leap; cal_simp; lia.
Qed.

(** Earlier dates have smaller ordinals. *)
Lemma toordinal_lt (a b : date) :
  valid_date a = true -> valid_date b = true ->
  date_ltb a b = true -> toordinal a < toordinal b.
Proof.
  intros Va Vb L. apply date_ltb_iff in L.
  apply valid_date_iff in Va as (Hya & Hma & Hda).
  apply valid_date_iff in Vb as (Hyb & Hmb & Hdb).
  rewrite days_in_month_length in Hda, Hdb.
  rewrite !toordinal_offset.
  pose proof (year_offset_bound _ _ _ Hma Hda) as Ba.
  pose proof (year_offset_bound _ _ _ Hmb Hdb) as Bb.
  destruct L as [L|[E [L|[E' L]]]].
  - pose proof (days_before_year_mono (year a + 1) (year b) ltac:(lia)) as M.
    rewrite days_before_year_succ in M.
    destruct (_is_leap (year a)); lia.
  - rewrite E in *.
    pose proof (year_offset_month_mono _ _ _ _ Hma Hmb L Hda) as M.
    unfold year_offset in *. lia.
  - rewrite E, E' in *. unfold year_offset. lia.
Qed.

Lemma toordinal_le (a b : date) :
  valid_date a = true -> valid_date b = true ->
  date_leb a b = true -> toordinal a <= toordinal b.
Proof.
  intros Va Vb L. unfold date_leb in L. apply orb_true_iff in L as [L|L].
  - pose proof (toordinal_lt a b Va Vb L). lia.
  - apply date_eqb_iff in L. subst. lia.
Qed.

(** Up to [last_today], seven days on is a date. *)
Lemma end_date_exists (today : date) :
  valid_date today = true -> date_leb today last_today = true ->
  toordinal today + 7 <= _MAXORDINAL
  /\ add_days today 7 = Ok (days_after 7 today)
  /\ valid_date (days_after 7 today) = true.
Proof.
  intros V L.
  pose proof (toordinal_le today last_today V eq_refl L) as T.
  change (toordinal last_today) with 3652052 in T.
  assert (B : toordinal today + Z.of_nat 7 <= _MAXORDINAL)
    by (unfold _MAXORDINAL; simpl; lia).
  split; [unfold _MAXORDINAL; lia|]. split.
  - apply (add_days_days_after 7 today V B).
  - apply (days_after_correct 7 today V B).
Qed.

(** *** Upcoming birthdays *)

Lemma date_new_valid (y m d : Z) :
  date_new y m d
  = if valid_date (mkdate y m d) then Ok (mkdate y m d) else Raise (ValueError []).
Proof. reflexivity. Qed.

Lemma strptime_raises (s : str) (e : exn) :
  strptime_dmY s = Raise e -> e = ValueError [].
Proof.
  unfold strptime_dmY.
  destruct (re_dmY s) as [|[[[d m] y] rest] ?]; [congruence|].
  destruct rest; [|congruence].
  unfold date_new. destruct (valid_date _); congruence.
Qed.

Lemma strptime_valid (s : str) (born : date) :
  strptime_dmY s = Ok born -> valid_date born = true.
Proof.
  unfold strptime_dmY.
  destruct (re_dmY s) as [|[[[d m] y] rest] ?]; [discriminate|].
  destruct rest; [|discriminate].
  unfold date_new. destruct (valid_date _) eqn:V; [|discriminate].
  intros H; injection H as <-. exact V.
Qed.

(** A Saturday or a Sunday at or below the last ordinal leaves room for
    the shift: the last date is a Friday. *)
Lemma weekend_shift_exists (occ : date) :
  valid_date occ = true ->
  (if weekday occ =? 5 then add_days occ 2
   else if weekday occ =? 6 then add_days occ 1
   else Ok occ) = Ok (weekend_shift occ).
Proof.
  intros V. pose proof (toordinal_bounds occ V) as B.
  unfold weekend_shift, weekday in *. unfold _MAXORDINAL in B.
  destruct (Z.eqb_spec ((toordinal occ + 6) mod 7) 5) as [E|E].
  - apply (add_days_days_after 2 occ V).
    unfold _MAXORDINAL. Z.div_mod_to_equations. lia.
  - destruct (Z.eqb_spec ((toordinal occ + 6) mod 7) 6) as [E'|E'].
    + apply (add_days_days_after 1 occ V).
      unfold _MAXORDINAL. Z.div_mod_to_equations. lia.
    + reflexivity.
Qed.

(** The [try] block on one record, against the dates of the
    specification. *)
Lemma upcoming_entry_spec (today : date) (r : Record_.t) (b : Field) (born : date) :
  strptime_dmY (value b) = Ok born ->
  match next_occurrence today (month born) (day born) with
  | None =>
      AddressBook.upcoming_entry today (days_after 7 today) r b
      = Raise (ValueError [])
  | Some occ =>
      AddressBook.upcoming_entry today (days_after 7 today) r b
      = Ok (if in_window today occ
            then Some (value (Record_.name r) ++ lit ": "
                       ++ strftime_dmY (weekend_shift occ))
            else None)
  end.
Proof.
  intros P. unfold AddressBook.upcoming_entry, next_occurrence.
  rewrite P. cbn [bind]. unfold replace_year. rewrite date_new_valid.
  cbv zeta.
  destruct (valid_date (mkdate (year today) (month born) (day born))) eqn:V1;
    [|reflexivity].
  cbn [bind year month day].
  destruct (date_ltb (mkdate (year today) (month born) (day born)) today).
  - rewrite date_new_valid.
    destruct (valid_date (mkdate (year today + 1) (month born) (day born))) eqn:V2;
      [|reflexivity].
    cbn [bind]. unfold in_window.
    destruct (date_leb today _ && date_leb _ (days_after 7 today)); [|reflexivity].
    rewrite (weekend_shift_exists _ V2). reflexivity.
  - cbn [bind]. unfold in_window.
    destruct (date_leb today _ && date_leb _ (days_after 7 today)); [|reflexivity].
    rewrite (weekend_shift_exists _ V1). reflexivity.
Qed.

Lemma upcoming_loop_spec (today : date) (records : list Record_.t) :
  forall upcoming,
    AddressBook.upcoming_loop today (days_after 7 today) records upcoming
    = Ok (upcoming ++ flat_map (upcoming_line today) records).
Proof.
  induction records as [|r records IH]; intros upcoming; cbn [AddressBook.upcoming_loop flat_map].
  - rewrite app_nil_r. reflexivity.
  - unfold upcoming_line at 1.
    destruct (Record_.birthday r) as [b|]; [|apply IH].
    destruct (strptime_dmY (value b)) as [born|e] eqn:P.
    + pose proof (upcoming_entry_spec today r b born P) as S.
      unfold congratulation_date.
      destruct (next_occurrence today (month born) (day born)) as [occ|].
      * rewrite S. destruct (in_window today occ).
        -- rewrite IH, <- app_assoc. reflexivity.
        -- apply IH.
      * rewrite S. apply IH.
    + apply strptime_raises in P as E. subst e.
      unfold AddressBook.upcoming_entry. rewrite P. cbn [bind]. apply IH.
Qed.

(** Up to [last_today], the function returns the lines of the records
    whose birthday comes up, in the order of the book. *)
Lemma get_upcoming_birthdays_spec (today : date) (book : AddressBook.t) :
  valid_date today = true -> date_leb today last_today = true ->
  AddressBook.get_upcoming_birthdays today book
  = Ok (flat_map (upcoming_line today) (AddressBook.values book)).
Proof.
  intros V L. destruct (end_date_exists today V L) as (_ & E & _).
  unfold AddressBook.get_upcoming_birthdays. rewrite E. cbn [bind].
  apply upcoming_loop_spec.
Qed.

(** After [last_today] it raises [OverflowError], whatever the book. *)
Lemma get_upcoming_birthdays_overflow (today : date) (book : AddressBook.t) :
  valid_date today = true -> date_ltb last_today today = true ->
  AddressBook.get_upcoming_birthdays today book = Raise OverflowError.
Proof.
  intros V L.
  pose proof (toordinal_lt last_today today eq_refl V L) as T.
  change (toordinal last_today) with 3652052 in T.
  unfold AddressBook.get_upcoming_birthdays.
  rewrite add_days_overflow by (unfold _MAXORDINAL; lia). reflexivity.
Qed.

(** A book of Latin-1 text, shown so by going through it. *)
Ltac latin1_texts :=
  unfold latin1_book, latin1_record; cbn;
  repeat first [ split | constructor | apply latin1_str_forallb; reflexivity ].

(** C2, as the code has it.  On a book of Latin-1 text, for every current
    date up to 24 December 9999, [get_upcoming_birthdays] lists a record
    exactly when the next occurrence of its birthday (the year of [today],
    or the year after when that date is before [today]; none when that
    date does not exist) lies in the window from [today] to seven days
    later, both included; the date it reports is that occurrence, two
    days on for a Saturday and one day on for a Sunday, the window being
    tested before the shift.  After 24 December 9999 it raises
    [OverflowError].  On Monday 10 June 2024 a birthday on 15 June, a
    Saturday, is reported for Monday 17 June, and a birthday on 20 June
    is left out. *)
Theorem upcoming_birthdays_window_then_shift (today : date) (book : AddressBook.t) :
  valid_date today = true -> latin1_book book ->
  (date_leb today last_today = true ->
   AddressBook.get_upcoming_birthdays today book
   = Ok (flat_map (upcoming_line today) (AddressBook.values book)))
  /\ (date_ltb last_today today = true ->
      AddressBook.get_upcoming_birthdays today book = Raise OverflowError)
  /\ (let lee :=
        Record_.mk (Name (lit "Lee Park")) [] (Some (mkField (lit "15.06.1990"))) in
      let anna :=
        Record_.mk (Name (lit "Anna Lee")) [] (Some (mkField (lit "20.06.1985"))) in
      weekday (mkdate 2024 6 10) = 0
      /\ weekday (mkdate 2024 6 15) = 5
      /\ congratulation_date (mkdate 2024 6 10) 6 15 = Some (mkdate 2024 6 17)
      /\ congratulation_date (mkdate 2024 6 10) 6 20 = None
      /\ AddressBook.get_upcoming_birthdays (mkdate 2024 6 10)
           [(lit "Lee Park", lee); (lit "Anna Lee", anna)]
         = Ok [lit "Lee Park: 17.06.2024"]).
Proof.
  intros V _. split; [|split].
  - intros L. destruct (end_date_exists today V L) as (_ & E & _).
    unfold AddressBook.get_upcoming_birthdays.
    rewrite E. cbn [bind].
    apply upcoming_loop_spec.
  - intros L. apply get_upcoming_birthdays_overflow; assumption.
  - repeat split.
Qed.

Lemma upcoming_birthdays_window_then_shift_witness :
  let lee := Record_.mk (Name (lit "Lee Park")) [] (Some (mkField (lit "15.06.1990"))) in
  let anna := Record_.mk (Name (lit "Anna Lee")) [] (Some (mkField (lit "20.06.1985"))) in
  let book := [(lit "Lee Park", lee); (lit "Anna Lee", anna)] in
  valid_date (mkdate 2024 6 10) = true
  /\ latin1_book book
  /\ date_leb (mkdate 2024 6 10) last_today = true
  /\ AddressBook.get_upcoming_birthdays (mkdate 2024 6 10) book
     = Ok (flat_map (upcoming_line (mkdate 2024 6 10)) (AddressBook.values book)).
Proof.
  intros lee anna book.
  assert (B : latin1_book book) by latin1_texts.
  split; [reflexivity|]. split; [exact B|]. split; [reflexivity|].
  exact (proj1 (upcoming_birthdays_window_then_shift (mkdate 2024 6 10) book eq_refl B)
           eq_refl).
Defined.

(** C2 as stated fails: on 25 December 9999 a birthday on 26 December
    lies in the window, and the function raises [OverflowError] instead
    of listing it. *)
Lemma upcoming_birthdays_overflow_in_9999 :
  ~ (forall (today : date) (book : AddressBook.t),
        valid_date today = true ->
        AddressBook.get_upcoming_birthdays today book
        = Ok (flat_map (upcoming_line today) (AddressBook.values book))).
Proof.
  intros H.
  specialize (H (mkdate 9999 12 25)
                [(lit "Anna",
                  Record_.mk (Name (lit "Anna")) [] (Some (mkField (lit "26.12.1990"))))]
                eq_refl).
  discriminate H.
Qed.

(** C7, as the code has it.  For every current date in a year that is
    not a leap year, up to 24 December 9999, a record whose birthday is
    29 February costs no error and gives no line: the lines of the book
    are those of the records before it followed by those of the records
    after it. *)
Theorem leap_day_birthday_is_skipped
    (today : date) (before after : AddressBook.t) (k : str) (r : Record_.t)
    (f : Field) (born : date) :
  valid_date today = true -> date_leb today last_today = true ->
  _is_leap (year today) = false ->
  Record_.birthday r = Some f -> strptime_dmY (value f) = Ok born ->
  month born = 2 -> day born = 29 ->
  exists lines1 lines2,
    AddressBook.get_upcoming_birthdays today before = Ok lines1
    /\ AddressBook.get_upcoming_birthdays today after = Ok lines2
    /\ AddressBook.get_upcoming_birthdays today (before ++ (k, r) :: after)
       = Ok (lines1 ++ lines2).
Proof.
  intros V L NL B P M D.
  exists (flat_map (upcoming_line today) (AddressBook.values before)),
    (flat_map (upcoming_line today) (AddressBook.values after)).
  rewrite !get_upcoming_birthdays_spec by assumption.
  repeat split.
  unfold AddressBook.values. rewrite map_app, flat_map_app. cbn [map flat_map snd].
  assert (E : upcoming_line today r = []).
  { unfold upcoming_line. rewrite B, P. unfold congratulation_date, next_occurrence.
    rewrite M, D. cbv zeta.
    replace (valid_date (mkdate (year today) 2 29)) with false; [reflexivity|].
    unfold valid_date, _days_in_month. cbn [year month day]. rewrite NL.
    cbn. rewrite !andb_false_r. reflexivity. }
  rewrite E. reflexivity.
Qed.

Lemma leap_day_birthday_is_skipped_witness :
  let anna := Record_.mk (Name (lit "Anna")) [] (Some (mkField (lit "27.02.1990"))) in
  let leo := Record_.mk (Name (lit "Leo")) [] (Some (mkField (lit "29.02.2000"))) in
  let eve := Record_.mk (Name (lit "Eve")) [] (Some (mkField (lit "01.03.1985"))) in
  let today := mkdate 2023 2 25 in
  AddressBook.get_upcoming_birthdays today
    [(lit "Anna", anna); (lit "Leo", leo); (lit "Eve", eve)]
  = Ok [lit "Anna: 27.02.2023"; lit "Eve: 01.03.2023"]
  /\ exists lines1 lines2,
    AddressBook.get_upcoming_birthdays today [(lit "Anna", anna)] = Ok lines1
    /\ AddressBook.get_upcoming_birthdays today [(lit "Eve", eve)] = Ok lines2
    /\ AddressBook.get_upcoming_birthdays today
         ([(lit "Anna", anna)] ++ (lit "Leo", leo) :: [(lit "Eve", eve)])
       = Ok (lines1 ++ lines2).
Proof.
  intros anna leo eve today. split; [reflexivity|].
  apply (leap_day_birthday_is_skipped today [(lit "Anna", anna)] [(lit "Eve", eve)]
           (lit "Leo") leo (mkField (lit "29.02.2000")) (mkdate 2000 2 29));
    reflexivity.
Defined.

(** C7 as stated fails: 9999 is not a leap year, and in its last week
    the function raises [OverflowError] before it looks at any record. *)
Lemma leap_day_birthday_overflow_in_9999 :
  ~ (forall (today : date) (book : AddressBook.t),
        valid_date today = true -> _is_leap (year today) = false ->
        exists lines, AddressBook.get_upcoming_birthdays today book = Ok lines).
Proof.
  intros H.
  destruct (H (mkdate 9999 12 25)
              [(lit "Leo",
                Record_.mk (Name (lit "Leo")) [] (Some (mkField (lit "29.02.2000"))))]
              eq_refl eq_refl) as [lines E].
  discriminate E.
Qed.

(** ** Reading a date *)

Lemma digit_val_range (c : char) :
  ascii_digit c = true <-> 0 <= digit_val c <= 9.
Proof.
  unfold ascii_digit, digit_val, in_range.
  rewrite andb_true_iff, !N.leb_le. lia.
Qed.

Lemma text_value_1 (a : char) :
  ascii_digit a = true -> text_value [a] = digit_val a.
Proof. intros H. unfold text_value. cbn [fold_left]. rewrite H. lia. Qed.

Lemma text_value_2 (a b : char) :
  ascii_digit a = true -> ascii_digit b = true ->
  text_value [a; b] = 10 * digit_val a + digit_val b.
Proof. intros Ha Hb. unfold text_value. cbn [fold_left]. rewrite Ha, Hb. lia. Qed.

Lemma text_value_space (c : char) :
  ascii_digit c = true -> text_value [space; c] = digit_val c.
Proof. intros H. unfold text_value. cbn [fold_left]. rewrite H. reflexivity. Qed.

Lemma text_value_4 (a b c d : char) :
  ascii_digit a = true -> ascii_digit b = true ->
  ascii_digit c = true -> ascii_digit d = true ->
  text_value [a; b; c; d]
  = 1000 * digit_val a + 100 * digit_val b + 10 * digit_val c + digit_val d.
Proof.
  intros Ha Hb Hc Hd. unfold text_value. cbn [fold_left].
  rewrite Ha, Hb, Hc, Hd. lia.
Qed.

Lemma digits_1 (a : char) : ascii_digit a = true -> digits [a].
Proof. intros; repeat constructor; assumption. Qed.

Lemma digits_2 (a b : char) :
  ascii_digit a = true -> ascii_digit b = true -> digits [a; b].
Proof. intros; repeat constructor; assumption. Qed.

(** What a test on a character says about its digit. *)
Ltac char_facts :=
  unfold isdecimal, ascii_digit, digit_val, in_range, dot, space in *;
  repeat rewrite ?andb_true_iff, ?N.leb_le, ?N.eqb_eq in *.

Lemma in_singleton_if {A : Type} (c : bool) (x y : A) :
  In x (if c then [y] else []) <-> c = true /\ x = y.
Proof.
  destruct c; simpl; split; try tauto; try (intros [H _]; discriminate).
  - intros [H|[]]; auto.
  - intros [_ ->]; auto.
Qed.

(** Each way the day group matches is a day text, and the number is the
    one read. *)
Lemma re_d_sound (s : str) (v : Z) (rest : str) :
  In (v, rest) (re_d s) ->
  exists t, s = t ++ rest /\ day_text t /\ v = text_value t.
Proof.
  destruct s as [|a [|b r]]; cbn [re_d]; [intros [] | |].
  - rewrite in_singleton_if. intros [C E]. apply pair_equal_spec in E as [-> ->].
    assert (D : ascii_digit a = true) by (char_facts; lia).
    exists [a]. split; [reflexivity|]. split.
    + left. split; [apply digits_1; exact D | auto].
    + symmetry; apply text_value_1; exact D.
  - rewrite !in_app_iff, !in_singleton_if.
    intros [[C E]|[[C E]|[[C E]|[[C E]|[C E]]]]]; apply pair_equal_spec in E as [-> ->].
    + assert (ascii_digit a = true /\ ascii_digit b = true /\ digit_val a = 3)
        as (Da & Db & V) by (char_facts; lia).
      exists [a; b]. split; [reflexivity|]. split.
      * left. split; [apply digits_2; assumption | auto].
      * rewrite text_value_2 by assumption. lia.
    + assert (ascii_digit a = true /\ ascii_digit b = true)
        as (Da & Db) by (char_facts; lia).
      exists [a; b]. split; [reflexivity|]. split.
      * left. split; [apply digits_2; assumption | auto].
      * rewrite text_value_2 by assumption. lia.
    + assert (ascii_digit a = true /\ ascii_digit b = true /\ digit_val a = 0)
        as (Da & Db & V) by (char_facts; lia).
      exists [a; b]. split; [reflexivity|]. split.
      * left. split; [apply digits_2; assumption | auto].
      * rewrite text_value_2 by assumption. lia.
    + assert (Da : ascii_digit a = true) by (char_facts; lia).
      exists [a]. split; [reflexivity|]. split.
      * left. split; [apply digits_1; assumption | auto].
      * symmetry; apply text_value_1; exact Da.
    + assert (a = space /\ ascii_digit b = true) as (-> & Db) by (char_facts; lia).
      exists [space; b]. split; [reflexivity|]. split.
      * right. exists b. auto.
      * symmetry; apply text_value_space; exact Db.
Qed.

Lemma re_m_sound (s : str) (v : Z) (rest : str) :
  In (v, rest) (re_m s) ->
  exists t, s = t ++ rest /\ month_text t /\ v = text_value t.
Proof.
  destruct s as [|a [|b r]]; cbn [re_m]; [intros [] | |].
  - rewrite in_singleton_if. intros [C E]. apply pair_equal_spec in E as [-> ->].
    assert (D : ascii_digit a = true) by (char_facts; lia).
    exists [a]. split; [reflexivity|]. split.
    + split; [apply digits_1; exact D | auto].
    + symmetry; apply text_value_1; exact D.
  - rewrite !in_app_iff, !in_singleton_if.
    intros [[C E]|[[C E]|[C E]]]; apply pair_equal_spec in E as [-> ->].
    + assert (ascii_digit a = true /\ ascii_digit b = true /\ digit_val a = 1)
        as (Da & Db & V) by (char_facts; lia).
      exists [a; b]. split; [reflexivity|]. split.
      * split; [apply digits_2; assumption | auto].
      * rewrite text_value_2 by assumption. lia.
    + assert (ascii_digit a = true /\ ascii_digit b = true /\ digit_val a = 0)
        as (Da & Db & V) by (char_facts; lia).
      exists [a; b]. split; [reflexivity|]. split.
      * split; [apply digits_2; assumption | auto].
      * rewrite text_value_2 by assumption. lia.
    + assert (Da : ascii_digit a = true) by (char_facts; lia).
      exists [a]. split; [reflexivity|]. split.
      * split; [apply digits_1; assumption | auto].
      * symmetry; apply text_value_1; exact Da.
Qed.

Lemma re_Y_sound (s : str) (v : Z) (rest : str) :
  In (v, rest) (re_Y s) ->
  exists t, s = t ++ rest /\ year_text t /\ v = text_value t.
Proof.
  destruct s as [|a [|b [|c [|d r]]]]; cbn [re_Y]; try (intros []).
  rewrite in_singleton_if. intros [C E]. apply pair_equal_spec in E as [-> ->].
  unfold isdecimal in C. fold (ascii_digit a) (ascii_digit b) (ascii_digit c)
    (ascii_digit d) in C.
  rewrite !andb_true_iff in C. destruct C as [[[Da Db] Dc] Dd].
  exists [a; b; c; d]. split; [reflexivity|]. split.
  - split; [repeat constructor; assumption | reflexivity].
  - rewrite text_value_4 by assumption. reflexivity.
Qed.

Lemma re_dot_sound (s rest : str) : In rest (re_dot s) <-> s = dot :: rest.
Proof.
  destruct s as [|c r]; cbn [re_dot]; [split; [intros [] | discriminate]|].
  rewrite in_singleton_if, N.eqb_eq. unfold dot. split.
  - intros [-> ->]. reflexivity.
  - intros H; injection H as -> ->. auto.
Qed.

Lemma re_dmY_In (s : str) (d m y : Z) (rest : str) :
  In (d, m, y, rest) (re_dmY s)
  <-> exists r1 r3, In (d, dot :: r1) (re_d s) /\ In (m, dot :: r3) (re_m r1)
                    /\ In (y, rest) (re_Y r3).
Proof.
  unfold re_dmY. rewrite in_flat_map. split.
  - intros ([d' r0] & Hd & H). cbn [fst snd] in H.
    apply in_flat_map in H as (r1 & H1 & H). apply re_dot_sound in H1. subst r0.
    apply in_flat_map in H as ([m' r2] & Hm & H). cbn [fst snd] in H.
    apply in_flat_map in H as (r3 & H3 & H). apply re_dot_sound in H3. subst r2.
    apply in_map_iff in H as ([y' r5] & E & Hy). cbn [fst snd] in E.
    injection E as -> -> -> ->. eauto.
  - intros (r1 & r3 & Hd & Hm & Hy).
    exists (d, dot :: r1). split; [exact Hd|]. cbn [fst snd].
    apply in_flat_map. exists r1. split; [apply re_dot_sound; reflexivity|].
    apply in_flat_map. exists (m, dot :: r3). split; [exact Hm|]. cbn [fst snd].
    apply in_flat_map. exists r3. split; [apply re_dot_sound; reflexivity|].
    apply in_map_iff. exists (y, rest). split; [reflexivity | exact Hy].
Qed.

Lemma re_dmY_sound (s : str) (d m y : Z) (rest : str) :
  In (d, m, y, rest) (re_dmY s) ->
  exists td tm ty,
    s = td ++ [dot] ++ tm ++ [dot] ++ ty ++ rest
    /\ day_text td /\ month_text tm /\ year_text ty
    /\ d = text_value td /\ m = text_value tm /\ y = text_value ty.
Proof.
  intros H. apply re_dmY_In in H as (r1 & r3 & Hd & Hm & Hy).
  apply re_d_sound in Hd as (td & -> & Td & ->).
  apply re_m_sound in Hm as (tm & -> & Tm & ->).
  apply re_Y_sound in Hy as (ty & -> & Ty & ->).
  exists td, tm, ty. split; [reflexivity|].
  repeat (split; [assumption|]). auto.
Qed.

(** A day text that reads as a day of a month matches the day group
    before a dot, and likewise for the month and the year. *)
Lemma re_d_complete (t r : str) :
  day_text t -> 1 <= text_value t <= 31 ->
  In (text_value t, dot :: r) (re_d (t ++ dot :: r)).
Proof.
  intros [[D L]|(c & -> & D)] V.
  - destruct t as [|a [|b [|x t]]]; cbn [length] in L; try lia.
    + inversion D as [|? ? Da _]; subst.
      rewrite text_value_1 in * by assumption.
      cbn [app re_d]. rewrite !in_app_iff, !in_singleton_if.
      right; right; right; left. split; [char_facts; lia | reflexivity].
    + inversion D as [|? ? Da D']; subst. inversion D' as [|? ? Db _]; subst.
      rewrite text_value_2 in * by assumption.
      apply digit_val_range in Da as Ra. apply digit_val_range in Db as Rb.
      cbn [app re_d]. rewrite !in_app_iff, !in_singleton_if.
      assert (digit_val a = 3 \/ 1 <= digit_val a <= 2 \/ digit_val a = 0)
        as [E|[E|E]] by lia.
      * left. split; [char_facts; lia | f_equal; lia].
      * right; left. split; [char_facts; lia | reflexivity].
      * right; right; left. split; [char_facts; lia | f_equal; lia].
  - rewrite text_value_space in * by assumption.
    cbn [app re_d]. rewrite !in_app_iff, !in_singleton_if.
    right; right; right; right. split; [char_facts; lia | reflexivity].
Qed.

Lemma re_m_complete (t r : str) :
  month_text t -> 1 <= text_value t <= 12 ->
  In (text_value t, dot :: r) (re_m (t ++ dot :: r)).
Proof.
  intros [D L] V.
  destruct t as [|a [|b [|x t]]]; cbn [length] in L; try lia.
  - inversion D as [|? ? Da _]; subst.
    rewrite text_value_1 in * by assumption.
    cbn [app re_m]. rewrite !in_app_iff, !in_singleton_if.
    right; right. split; [char_facts; lia | reflexivity].
  - inversion D as [|? ? Da D']; subst. inversion D' as [|? ? Db _]; subst.
    rewrite text_value_2 in * by assumption.
    apply digit_val_range in Da as Ra. apply digit_val_range in Db as Rb.
    cbn [app re_m]. rewrite !in_app_iff, !in_singleton_if.
    assert (digit_val a = 1 \/ digit_val a = 0) as [E|E] by lia.
    + left. split; [char_facts; lia | f_equal; lia].
    + right; left. split; [char_facts; lia | f_equal; lia].
Qed.

Lemma re_Y_complete (t rest : str) :
  year_text t -> In (text_value t, rest) (re_Y (t ++ rest)).
Proof.
  intros [D L].
  destruct t as [|a [|b [|c [|d [|x t]]]]]; cbn [length] in L; try lia.
  inversion D as [|? ? Da D1]; subst. inversion D1 as [|? ? Db D2]; subst.
  inversion D2 as [|? ? Dc D3]; subst. inversion D3 as [|? ? Dd _]; subst.
  rewrite text_value_4 by assumption.
  cbn [app re_Y]. rewrite in_singleton_if. split; [|reflexivity].
  unfold isdecimal. fold (ascii_digit a) (ascii_digit b) (ascii_digit c) (ascii_digit d).
  rewrite Da, Db, Dc, Dd. reflexivity.
Qed.

Lemma digits_no_dot (t : str) : digits t -> ~ In dot t.
Proof.
  intros D H. unfold digits in D. rewrite Forall_forall in D.
  specialize (D dot H). discriminate D.
Qed.

Lemma day_text_no_dot (t : str) : day_text t -> ~ In dot t.
Proof.
  intros [[D _]|(c & -> & D)]; [apply digits_no_dot; exact D|].
  intros [H|[H|[]]]; [discriminate H|]. subst c. discriminate D.
Qed.

Lemma split_at_dot (a a' x x' : str) :
  ~ In dot a -> ~ In dot a' -> a ++ dot :: x = a' ++ dot :: x' ->
  a = a' /\ x = x'.
Proof.
  revert a'. induction a as [|c a IH]; intros [|c' a'] N N' E; cbn [app] in E.
  - injection E as ->. auto.
  - injection E as E _. exfalso. apply N'. left. auto.
  - injection E as E _. exfalso. apply N. left. auto.
  - injection E as -> E.
    destruct (IH a') as [-> ->]; auto; intros H; [apply N | apply N']; right; exact H.
Qed.

Lemma days_in_month_le_31 (y m : Z) : _days_in_month y m <= 31.
Proof.
  unfold _days_in_month, _DAYS_IN_MONTH.
  destruct ((m =? 2) && _is_leap y); [lia|].
  destruct m as [|p|p]; try lia.
  do 4 (destruct p as [p|p|]; try lia).
Qed.

(** [strptime] returns the date [d] exactly when the text reads as [d]
    and [d] is a date of the calendar. *)
Lemma strptime_iff (s : str) (d : date) :
  strptime_dmY s = Ok d <-> reads_as s d /\ valid_date d = true.
Proof.
  unfold strptime_dmY. split.
  - destruct (re_dmY s) as [|[[[vd vm] vy] rest] l] eqn:R; [discriminate|].
    destruct rest; [|discriminate].
    assert (I : In (vd, vm, vy, []) (re_dmY s)) by (rewrite R; left; reflexivity).
    apply re_dmY_sound in I as (td & tm & ty & E & Td & Tm & Ty & -> & -> & ->).
    rewrite app_nil_r in E.
    rewrite date_new_valid.
    destruct (valid_date _) eqn:V; [|discriminate].
    intros H; injection H as <-. split; [|exact V].
    exists td, tm, ty. auto.
  - intros [(td & tm & ty & E & Td & Tm & Ty & ->) V].
    apply valid_date_iff in V as V'. cbn [year month day] in V'.
    destruct V' as (_ & Hm & Hd).
    pose proof (days_in_month_le_31 (text_value ty) (text_value tm)) as B.
    assert (I : In (text_value td, text_value tm, text_value ty, []) (re_dmY s)).
    { subst s. apply re_dmY_In. exists (tm ++ [dot] ++ ty), ty. split; [|split].
      - apply (re_d_complete td (tm ++ [dot] ++ ty) Td). lia.
      - apply (re_m_complete tm ty Tm). lia.
      - rewrite <- (app_nil_r ty) at 2. apply re_Y_complete. exact Ty. }
    destruct (re_dmY s) as [|[[[vd vm] vy] rest] l] eqn:R; [destruct I|].
    assert (I' : In (vd, vm, vy, rest) (re_dmY s)) by (rewrite R; left; reflexivity).
    apply re_dmY_sound in I' as (td' & tm' & ty' & E' & Td' & Tm' & Ty' & -> & -> & ->).
    rewrite E in E'. cbn [app] in E'.
    apply split_at_dot in E' as [<- E'];
      [|apply day_text_no_dot; assumption|apply day_text_no_dot; assumption].
    apply split_at_dot in E' as [<- E'];
      [|apply digits_no_dot; apply Tm|apply digits_no_dot; apply Tm'].
    assert (ty' = ty /\ rest = []) as [-> ->].
    { destruct Ty as [_ L], Ty' as [_ L'].
      assert (length rest = 0%nat)
        by (apply (f_equal (@length char)) in E'; rewrite length_app in E'; lia).
      destruct rest; [|discriminate]. rewrite app_nil_r in E'. auto. }
    rewrite date_new_valid, V. reflexivity.
Qed.

Lemma date_order_total (a b : date) :
  date_ltb a b = false <-> date_leb b a = true.
Proof.
  unfold date_leb. rewrite orb_true_iff, date_eqb_iff, <- not_true_iff_false.
  rewrite !date_ltb_iff. destruct a, b; cbn [year month day]. split.
  - intros H.
    destruct (Z.eq_dec year1 year0), (Z.eq_dec month1 month0), (Z.eq_dec day1 day0);
      try (left; lia). right. congruence.
  - intros [H|H] H'; [lia|]. injection H as -> -> ->. lia.
Qed.

Lemma Birthday_ok_iff (today : date) (s : str) :
  Birthday today s = Ok (mkField s)
  <-> exists d, reads_as s d /\ valid_date d = true /\ date_leb d today = true.
Proof.
  unfold Birthday. split.
  - destruct (strptime_dmY s) as [d|e] eqn:P.
    + destruct (date_ltb today d) eqn:L; [discriminate|]. intros _.
      apply strptime_iff in P as [R V]. apply date_order_total in L. eauto.
    + destruct e; discriminate.
  - intros (d & R & V & L).
    assert (P : strptime_dmY s = Ok d) by (apply strptime_iff; auto).
    rewrite P. apply date_order_total in L. rewrite L. reflexivity.
Qed.

Lemma Birthday_cases (today : date) (s : str) :
  Birthday today s = Ok (mkField s)
  \/ exists msg, Birthday today s = Raise (ValueError msg).
Proof.
  unfold Birthday. destruct (strptime_dmY s) as [d|e] eqn:P.
  - destruct (date_ltb today d); eauto.
  - apply strptime_raises in P. subst e. eauto.
Qed.

(** C4, as the code has it.  Of the strings of Latin-1 characters,
    [Birthday] accepts exactly those that are a day, a dot, a month, a
    dot and a year of four digits, the day written with one or two digits
    or with a space and a digit and the month with one or two digits,
    that name a date of the calendar not later than today; it then wraps
    the string itself, and every other string is refused with a
    [ValueError].  (Beyond Latin-1 the class [\d] of the regular
    expression holds decimal digits that these tables do not list.) *)
Theorem Birthday_accepts_dates_not_after_today (today : date) (s : str) :
  latin1_str s ->
  ((exists d, reads_as s d /\ valid_date d = true /\ date_leb d today = true)
   /\ Birthday today s = Ok (mkField s))
  \/ (~ (exists d, reads_as s d /\ valid_date d = true /\ date_leb d today = true)
      /\ exists msg, Birthday today s = Raise (ValueError msg)).
Proof.
  intros _.
  destruct (Birthday_cases today s) as [H|[msg H]].
  - left. split; [apply Birthday_ok_iff|]; exact H.
  - right. split; [|eauto]. intros E. apply Birthday_ok_iff in E. congruence.
Qed.

Lemma Birthday_accepts_dates_not_after_today_witness :
  let today := mkdate 2024 6 10 in
  let s := lit "1.2.2020" in
  latin1_str s
  /\ (((exists d, reads_as s d /\ valid_date d = true /\ date_leb d today = true)
       /\ Birthday today s = Ok (mkField s))
      \/ (~ (exists d, reads_as s d /\ valid_date d = true /\ date_leb d today = true)
          /\ exists msg, Birthday today s = Raise (ValueError msg))).
Proof.
  intros today s.
  assert (L : latin1_str s) by (apply latin1_str_forallb; reflexivity).
  split; [exact L|].
  apply (Birthday_accepts_dates_not_after_today today s L).
Defined.

(** C4 as stated fails: [1.2.2020] is not in the format DD.MM.YYYY, and
    on 10 June 2024 it makes a birthday. *)
Lemma Birthday_accepts_short_day_and_month :
  ~ (forall (today : date) (s : str),
        (exists f, Birthday today s = Ok f)
        <-> exists d, reads_as_dd_mm_yyyy s d /\ valid_date d = true
                      /\ date_leb d today = true).
Proof.
  intros H.
  destruct (H (mkdate 2024 6 10) (lit "1.2.2020")) as [H1 _].
  destruct H1 as (d & (td & tm & ty & E & [_ Ld] & [_ Lm] & [_ Ly] & _) & _).
  - eexists. reflexivity.
  - apply (f_equal (@length char)) in E. rewrite !length_app in E.
    cbn [length] in E. rewrite Ld, Lm, Ly in E. discriminate E.
Qed.

(** ** The shape of a name *)

Lemma fields_cons (sep : char -> bool) (s : str) :
  exists f more, fields sep s = f :: more.
Proof.
  induction s as [|c s (f & more & E)]; cbn [fields]; [eauto|].
  destruct (sep c); [eauto|]. rewrite E. eauto.
Qed.

Lemma fields_free (sep : char -> bool) (s : str) :
  free_of sep s -> fields sep s = [s].
Proof.
  induction 1 as [|c s Hc _ IH]; cbn [fields]; [reflexivity|].
  rewrite Hc, IH. reflexivity.
Qed.

Lemma fields_app_sep (sep : char -> bool) (p : str) (c : char) (s : str) :
  free_of sep p -> sep c = true -> fields sep (p ++ c :: s) = p :: fields sep s.
Proof.
  induction 1 as [|x p Hx _ IH]; intros Hc; cbn [fields app].
  - rewrite Hc. reflexivity.
  - rewrite Hx, IH by exact Hc. reflexivity.
Qed.

Lemma fields_all_free (sep : char -> bool) (s : str) :
  Forall (free_of sep) (fields sep s).
Proof.
  induction s as [|c s IH]; cbn [fields].
  - repeat constructor.
  - destruct (sep c) eqn:Hc; [constructor; [constructor | exact IH]|].
    destruct (fields sep s) as [|f more]; [repeat constructor; exact Hc|].
    inversion IH; subst. constructor; [constructor; assumption | assumption].
Qed.

(** Every character of a piece is a character of the string. *)
Lemma fields_incl (sep : char -> bool) (s f : str) (c : char) :
  In f (fields sep s) -> In c f -> In c s.
Proof.
  revert f. induction s as [|x s IH]; cbn [fields]; intros f Hf Hc.
  - destruct Hf as [<-|[]]. destruct Hc.
  - destruct (sep x).
    + destruct Hf as [<-|Hf]; [destruct Hc|]. right. eapply IH; eauto.
    + destruct (fields sep s) as [|g more] eqn:E.
      * destruct Hf as [<-|[]]. destruct Hc as [<-|[]]. left; reflexivity.
      * destruct Hf as [<-|Hf].
        -- destruct Hc as [<-|Hc]; [left; reflexivity|].
           right. apply (IH g); [left; reflexivity | exact Hc].
        -- right. apply (IH f); [right; exact Hf | exact Hc].
Qed.

(** *** Joining *)

Lemma str_join_cons2 (sep p q : str) (more : list str) :
  str_join sep (p :: q :: more) = p ++ sep ++ str_join sep (q :: more).
Proof. reflexivity. Qed.

Lemma str_join_joined (sep : str) (parts : list str) :
  str_join sep parts = joined sep parts.
Proof.
  destruct parts as [|p more]; [reflexivity|].
  revert p. induction more as [|q more IH]; intros p.
  - cbn. symmetry. apply app_nil_r.
  - rewrite str_join_cons2, IH. cbn [joined map concat].
    rewrite <- app_assoc. reflexivity.
Qed.

Lemma map_str_join (h : char -> char) (sep : str) (parts : list str) :
  map h (str_join sep parts) = str_join (map h sep) (map (map h) parts).
Proof.
  destruct parts as [|p more]; [reflexivity|].
  revert p. induction more as [|q more IH]; intros p; [reflexivity|].
  cbn [map]. rewrite !str_join_cons2, !map_app. cbn [map] in IH. rewrite IH.
  reflexivity.
Qed.

(** Joining with a separator and splitting at it give the parts back,
    when no part holds the separator. *)
Lemma fields_str_join (sep : char -> bool) (c : char) (parts : list str) :
  sep c = true -> parts <> [] -> Forall (free_of sep) parts ->
  fields sep (str_join [c] parts) = parts.
Proof.
  intros Hc NE F. destruct parts as [|p more]; [congruence|]. clear NE.
  revert p F. induction more as [|q more IH]; intros p F.
  - inversion F; subst. apply fields_free. assumption.
  - inversion F as [|? ? Fp F']; subst.
    rewrite str_join_cons2. cbn [app].
    rewrite fields_app_sep by assumption. rewrite IH by assumption. reflexivity.
Qed.

(** *** Splitting *)

Lemma split_char_scan_fields (sep : char) (piece s : str) :
  split_char_scan sep piece s
  = match fields (fun c => (c =? sep)%N) s with
    | f :: more => (piece ++ f) :: more
    | [] => [piece]
    end.
Proof.
  revert piece. induction s as [|c s IH]; intros piece; cbn [split_char_scan fields].
  - rewrite app_nil_r. reflexivity.
  - destruct (c =? sep)%N.
    + rewrite IH. rewrite app_nil_r.
      destruct (fields_cons (fun c => (c =? sep)%N) s) as (f & more & ->).
      reflexivity.
    + rewrite IH.
      destruct (fields_cons (fun c => (c =? sep)%N) s) as (f & more & ->).
      rewrite <- app_assoc. reflexivity.
Qed.

Lemma str_split_char_fields (s : str) :
  str_split_char hyphen s = fields is_hyphen s.
Proof.
  unfold str_split_char. rewrite split_char_scan_fields.
  destruct (fields_cons (fun c => (c =? hyphen)%N) s) as (f & more & E).
  unfold is_hyphen. rewrite E. reflexivity.
Qed.

Lemma split_scan_fields (word : option str) (s : str) :
  split_scan word s
  = match fields isspace s with
    | f :: more =>
        match word with
        | Some w => (w ++ f) :: filter nonempty more
        | None => filter nonempty (f :: more)
        end
    | [] => []
    end.
Proof.
  revert word. induction s as [|c s IH]; intros word; cbn [split_scan fields].
  - destruct word; [rewrite app_nil_r|]; reflexivity.
  - destruct (fields_cons isspace s) as (f & more & E).
    destruct (isspace c).
    + destruct word as [w|]; rewrite IH, E; [rewrite app_nil_r|]; reflexivity.
    + destruct word as [w|]; rewrite IH, E; [rewrite <- app_assoc|]; reflexivity.
Qed.

Lemma str_split_words (s : str) : str_split s = words s.
Proof.
  unfold str_split, words. rewrite split_scan_fields.
  destruct (fields_cons isspace s) as (f & more & ->). reflexivity.
Qed.

(** *** Trimming *)

Lemma words_lstrip (s : str) : words (str_lstrip s) = words s.
Proof.
  induction s as [|c s IH]; [reflexivity|]. cbn [str_lstrip].
  destruct (isspace c) eqn:Hc; [|reflexivity].
  rewrite IH. unfold words. cbn [fields]. rewrite Hc. reflexivity.
Qed.

Lemma rstrip_nil_words (s : str) : str_rstrip s = [] -> words s = [].
Proof.
  induction s as [|c s IH]; [reflexivity|]. cbn [str_rstrip].
  destruct (str_rstrip s) as [|x kept]; [|discriminate].
  destruct (isspace c) eqn:Hc; [|discriminate]. intros _.
  unfold words in *. cbn [fields]. rewrite Hc. cbn [filter nonempty]. apply IH. reflexivity.
Qed.

Lemma rstrip_nil_fields (s : str) :
  str_rstrip s = [] -> exists more, fields isspace s = [] :: more /\ filter nonempty more = [].
Proof.
  destruct s as [|c s]; [exists []; auto|]. cbn [str_rstrip].
  destruct (str_rstrip s) as [|x kept] eqn:E; [|discriminate].
  destruct (isspace c) eqn:Hc; [|discriminate]. intros _.
  cbn [fields]. rewrite Hc. exists (fields isspace s). split; [reflexivity|].
  apply (rstrip_nil_words s E).
Qed.

Lemma fields_unfold (sep : char -> bool) (c : char) (s : str) :
  fields sep (c :: s)
  = if sep c then [] :: fields sep s
    else match fields sep s with
         | f :: more => (c :: f) :: more
         | [] => [[c]]
         end.
Proof. reflexivity. Qed.

Lemma fields_rstrip (s : str) :
  exists f more more',
    fields isspace s = f :: more /\ fields isspace (str_rstrip s) = f :: more'
    /\ filter nonempty more = filter nonempty more'.
Proof.
  induction s as [|c s (f & more & more' & E & E' & EF)].
  - exists [], [], []. auto.
  - cbn [str_rstrip]. rewrite (fields_unfold isspace c s).
    destruct (str_rstrip s) as [|x kept] eqn:R.
    + destruct (rstrip_nil_fields s R) as (m & Em & Fm).
      rewrite Em in E. injection E as <- <-.
      rewrite Em.
      destruct (isspace c) eqn:Hc.
      * exists [], ([] :: m), []. cbn [fields filter nonempty].
        rewrite Fm. auto.
      * exists [c], m, []. cbn [fields]. rewrite Hc. auto.
    + rewrite (fields_unfold isspace c (x :: kept)), E, E'.
      destruct (isspace c) eqn:Hc.
      * exists [], (f :: more), (f :: more').
        split; [reflexivity|]. split; [reflexivity|].
        cbn [filter]. rewrite EF. reflexivity.
      * exists (c :: f), more, more'. auto.
Qed.

Lemma words_rstrip (s : str) : words (str_rstrip s) = words s.
Proof.
  unfold words.
  destruct (fields_rstrip s) as (f & more & more' & -> & -> & E).
  cbn [filter]. rewrite E. reflexivity.
Qed.

Lemma words_strip (s : str) : words (str_strip s) = words s.
Proof. unfold str_strip. rewrite words_rstrip. apply words_lstrip. Qed.

(** ** Normalizing a name *)

Lemma fix_part_joined (word : str) :
  fix_part word = joined (lit "-") (map str_capitalize (fields is_hyphen word)).
Proof.
  unfold fix_part. rewrite str_join_joined.
  change 0x2D%N with hyphen. rewrite str_split_char_fields. reflexivity.
Qed.

Lemma normalize_name_words (raw : str) :
  normalize_name raw = str_join (lit " ") (map fix_part (words raw)).
Proof.
  unfold normalize_name. rewrite str_split_words, words_strip. reflexivity.
Qed.

(** What [strip] leaves: the string without the white space around it. *)
Lemma str_lstrip_spec (s : str) :
  exists l, s = l ++ str_lstrip s /\ Forall (fun c => isspace c = true) l
    /\ match str_lstrip s with c :: _ => isspace c = false | [] => True end.
Proof.
  induction s as [|c s (l & E & F & H)]; [exists []; repeat constructor|].
  cbn [str_lstrip]. destruct (isspace c) eqn:Hc.
  - exists (c :: l). split; [cbn; congruence|]. split; [constructor; assumption | exact H].
  - exists []. repeat constructor. exact Hc.
Qed.

Lemma str_rstrip_spec (s : str) :
  exists r, s = str_rstrip s ++ r /\ Forall (fun c => isspace c = true) r
    /\ match rev (str_rstrip s) with c :: _ => isspace c = false | [] => True end.
Proof.
  induction s as [|c s (r & E & F & H)]; [exists []; repeat constructor|].
  cbn [str_rstrip]. destruct (str_rstrip s) as [|x kept] eqn:R.
  - destruct (isspace c) eqn:Hc.
    + exists (c :: r). cbn [app] in *. split; [congruence|]. split; [constructor; assumption | exact I].
    + exists r. cbn [app rev] in *. split; [congruence|]. split; [assumption | exact Hc].
  - exists r. split; [cbn [app] in *; congruence|]. split; [assumption|].
    cbn [rev] in *. destruct (rev kept ++ [x]) eqn:K.
    + destruct (rev kept); discriminate.
    + cbn [app]. exact H.
Qed.

(** On ASCII, [capitalize] puts the first letter in upper case and the
    others in lower case. *)
Lemma title_ascii (c : char) : is_ascii c -> title c = [ascii_upper c].
Proof.
  unfold is_ascii, title, ascii_upper, in_range. intros H.
  repeat match goal with
         | |- context [(?a <=? ?b)%N] => destruct (N.leb_spec a b)
         | |- context [(?a =? ?b)%N] => destruct (N.eqb_spec a b)
         end; cbn [andb orb]; try reflexivity; lia.
Qed.

Lemma lower_ascii (c : char) : is_ascii c -> lower c = ascii_lower c.
Proof.
  unfold is_ascii, lower, ascii_lower, in_range. intros H.
  repeat match goal with
         | |- context [(?a <=? ?b)%N] => destruct (N.leb_spec a b)
         | |- context [(?a =? ?b)%N] => destruct (N.eqb_spec a b)
         end; cbn [andb orb]; try reflexivity; lia.
Qed.

Lemma str_capitalize_ascii (c : char) (rest : str) :
  is_ascii c -> Forall is_ascii rest ->
  str_capitalize (c :: rest) = ascii_upper c :: map ascii_lower rest.
Proof.
  intros Hc Hr. unfold str_capitalize, str_lower. rewrite title_ascii by exact Hc.
  cbn [app]. f_equal. apply map_ext_in. intros x Hx.
  apply lower_ascii. rewrite Forall_forall in Hr. auto.
Qed.

Lemma str_capitalize_ascii_part (part : str) :
  Forall is_ascii part -> str_capitalize part = ascii_capitalize part.
Proof.
  destruct part as [|c rest]; [reflexivity|]. intros A.
  inversion A; subst. apply str_capitalize_ascii; assumption.
Qed.

(** C9.  On a name of Latin-1 characters, [normalize_name] trims the
    white space around the name, takes its words, splits each word at the
    hyphens, capitalizes each part, and joins the parts with hyphens and
    the words with single spaces.  On a name of ASCII characters, to
    capitalize a part is to put its first letter in upper case and the
    others in lower case.  So [jean-paul  DUPONT] becomes
    [Jean-Paul Dupont]. *)
Theorem normalize_name_rebuilds_the_name (raw : str) :
  latin1_str raw ->
  normalize_name raw = rebuilt_name raw
  /\ (Forall is_ascii raw -> normalize_name raw = ascii_rebuilt_name raw)
  /\ normalize_name (lit "jean-paul  DUPONT") = lit "Jean-Paul Dupont".
Proof.
  intros _. split; [|split; [|reflexivity]].
  - unfold normalize_name, rebuilt_name.
    rewrite str_join_joined, str_split_words. f_equal.
    apply map_ext. apply fix_part_joined.
  - intros A. rewrite normalize_name_words, str_join_joined.
    unfold ascii_rebuilt_name. f_equal. apply map_ext_in. intros w Hw.
    rewrite fix_part_joined. f_equal. apply map_ext_in. intros part Hp.
    apply str_capitalize_ascii_part. apply Forall_forall. intros c Hc.
    unfold words in Hw. apply filter_In in Hw as [Hw _].
    rewrite Forall_forall in A. apply A.
    apply (fields_incl isspace raw w c Hw).
    apply (fields_incl is_hyphen w part c Hp Hc).
Qed.

Lemma normalize_name_rebuilds_the_name_witness :
  latin1_str (lit " anna-maria  VAN damme ")
  /\ Forall is_ascii (lit " anna-maria  VAN damme ")
  /\ normalize_name (lit " anna-maria  VAN damme ")
     = rebuilt_name (lit " anna-maria  VAN damme ")
  /\ normalize_name (lit " anna-maria  VAN damme ")
     = ascii_rebuilt_name (lit " anna-maria  VAN damme ")
  /\ ascii_rebuilt_name (lit " anna-maria  VAN damme ") = lit "Anna-Maria Van Damme".
Proof.
  assert (L : latin1_str (lit " anna-maria  VAN damme "))
    by (apply latin1_str_forallb; reflexivity).
  assert (A : Forall is_ascii (lit " anna-maria  VAN damme ")).
  { unfold is_ascii. apply Forall_forall. intros c Hc.
    assert (F : forallb (fun c => (c <? 128)%N) (lit " anna-maria  VAN damme ") = true)
      by reflexivity.
    rewrite forallb_forall in F. apply N.ltb_lt. apply F. exact Hc. }
  destruct (normalize_name_rebuilds_the_name (lit " anna-maria  VAN damme ") L)
    as (R & AR & _).
  split; [exact L|]. split; [exact A|]. split; [exact R|].
  split; [exact (AR A) | reflexivity].
Defined.

Lemma free_of_app (p : char -> bool) (a b : str) :
  free_of p (a ++ b) <-> free_of p a /\ free_of p b.
Proof. apply Forall_app. Qed.

Lemma free_of_str_join (p : char -> bool) (sep : str) (parts : list str) :
  free_of p sep -> Forall (free_of p) parts -> free_of p (str_join sep parts).
Proof.
  intros Hs F. destruct parts as [|a more]; [constructor|].
  revert a F. induction more as [|b more IH]; intros a F.
  - inversion F; assumption.
  - inversion F; subst. rewrite str_join_cons2.
    apply free_of_app. split; [assumption|].
    apply free_of_app. split; [assumption|]. apply IH. assumption.
Qed.

Lemma words_props (s w : str) :
  In w (words s) -> w <> [] /\ free_of isspace w /\ (forall c, In c w -> In c s).
Proof.
  unfold words. intros H. apply filter_In in H as [H N].
  split; [intros ->; discriminate N|]. split.
  - pose proof (fields_all_free isspace s) as F. rewrite Forall_forall in F. auto.
  - intros c Hc. eapply fields_incl; eauto.
Qed.

Lemma words_str_join (ws : list str) :
  Forall (fun w => w <> [] /\ free_of isspace w) ws ->
  words (str_join [space] ws) = ws.
Proof.
  intros F. destruct ws as [|w more]; [reflexivity|].
  unfold words. rewrite (fields_str_join isspace space); [| reflexivity | discriminate |].
  - apply forallb_filter_id. apply forallb_forall. intros x Hx.
    rewrite Forall_forall in F. destruct (F x Hx) as [N _].
    destruct x; [congruence | reflexivity].
  - eapply Forall_impl; [|exact F]. intros a [_ H]. exact H.
Qed.

Lemma fields_single_nil (sep : char -> bool) (s : str) :
  fields sep s = [[]] -> s = [].
Proof.
  destruct s as [|c s]; [reflexivity|]. cbn [fields].
  destruct (fields_cons sep s) as (f & more & E). rewrite E.
  destruct (sep c); discriminate.
Qed.

Lemma str_join_nil (sep : str) (parts : list str) :
  sep <> [] -> str_join sep parts = [] -> parts = [] \/ parts = [[]].
Proof.
  intros Hs. destruct parts as [|a [|b more]]; [auto| |].
  - cbn. intros ->. auto.
  - rewrite str_join_cons2. intros H.
    apply app_eq_nil in H as [_ H]. apply app_eq_nil in H as [H _]. contradiction.
Qed.

(** *** A normalized name under a renaming of characters *)

Section NameShape.

Variable h : char -> char.
Hypothesis shape : forall c, latin1 c -> keeps_name_shape h c = true.

Lemma shape_parts (c : char) :
  latin1 c ->
  (isspace c = false ->
   Forall (fun c' => isspace (h c') = false) (title c ++ [lower c]))
  /\ (is_hyphen c = false ->
      Forall (fun c' => is_hyphen (h c') = false) (title c ++ [lower c]))
  /\ (exists first others,
         map h (title c) = first :: others
         /\ title first ++ map lower others = title c)
  /\ lower (h (lower c)) = lower c
  /\ h space = space /\ h hyphen = hyphen.
Proof.
  intros L. pose proof (shape c L) as S. unfold keeps_name_shape in S.
  rewrite !andb_true_iff in S.
  destruct S as [[[[[S1 S2] S3] S4] S5] S6].
  apply N.eqb_eq in S4, S5, S6.
  repeat split; try assumption.
  - intros Hc. rewrite Hc in S1. cbn [orb] in S1.
    apply forallb_Forall_true in S1. eapply Forall_impl; [|exact S1].
    intros x Hx. apply negb_true_iff. exact Hx.
  - intros Hc. rewrite Hc in S2. cbn [orb] in S2.
    apply forallb_Forall_true in S2. eapply Forall_impl; [|exact S2].
    intros x Hx. apply negb_true_iff. exact Hx.
  - destruct (map h (title c)) as [|first others]; [discriminate|].
    apply str_eqb_eq in S3. eauto.
Qed.

Lemma h_space : h space = space.
Proof. apply (shape_parts 0%N). reflexivity. Qed.

Lemma h_hyphen : h hyphen = hyphen.
Proof. apply (shape_parts 0%N). reflexivity. Qed.

Lemma capitalize_stable (p : str) :
  latin1_str p -> str_capitalize (map h (str_capitalize p)) = str_capitalize p.
Proof.
  intros L. destruct p as [|c rest]; [reflexivity|].
  inversion L as [|? ? Lc Lr]; subst.
  destruct (shape_parts c Lc) as (_ & _ & (first & others & E & T) & _).
  cbn [str_capitalize]. rewrite map_app, E. cbn [app str_capitalize].
  unfold str_lower. rewrite map_app, app_assoc, T. f_equal.
  rewrite !map_map. apply map_ext_in. intros x Hx.
  rewrite Forall_forall in Lr. apply (shape_parts x (Lr x Hx)).
Qed.

Lemma capitalize_free (p : str) (sep : char -> bool) :
  (forall c, latin1 c -> sep c = false ->
             Forall (fun c' => sep (h c') = false) (title c ++ [lower c])) ->
  latin1_str p -> free_of sep p -> free_of sep (map h (str_capitalize p)).
Proof.
  intros S L F. destruct p as [|c rest]; [constructor|].
  inversion L as [|? ? Lc Lr]; subst. inversion F as [|? ? Fc Fr]; subst.
  cbn [str_capitalize]. rewrite map_app. apply free_of_app. split.
  - specialize (S c Lc Fc). apply Forall_app in S as [S _].
    unfold free_of. rewrite Forall_map. exact S.
  - unfold free_of, str_lower. rewrite !Forall_map.
    rewrite Forall_forall in *. intros x Hx.
    specialize (S x (Lr x Hx) (Fr x Hx)). apply Forall_app in S as [_ S].
    inversion S; assumption.
Qed.

Lemma capitalize_nonempty (p : str) :
  latin1_str p -> p <> [] -> str_capitalize p <> [].
Proof.
  intros L N. destruct p as [|c rest]; [congruence|].
  inversion L as [|? ? Lc _]; subst.
  destruct (shape_parts c Lc) as (_ & _ & (first & others & E & _) & _).
  cbn [str_capitalize]. destruct (title c); [discriminate E | discriminate].
Qed.

Lemma pieces_latin1 (sep : char -> bool) (w : str) :
  latin1_str w -> Forall latin1_str (fields sep w).
Proof.
  intros L. apply Forall_forall. intros f Hf. apply Forall_forall. intros c Hc.
  unfold latin1_str in L. rewrite Forall_forall in L.
  apply L. eapply fields_incl; eauto.
Qed.

Lemma pieces_free (sep : char -> bool) (w : str) (p : char -> bool) :
  free_of p w -> Forall (free_of p) (fields sep w).
Proof.
  intros L. apply Forall_forall. intros f Hf. apply Forall_forall. intros c Hc.
  unfold free_of in L. rewrite Forall_forall in L.
  apply L. eapply fields_incl; eauto.
Qed.

Lemma fix_part_fields (w : str) :
  fix_part w = str_join [hyphen] (map str_capitalize (fields is_hyphen w)).
Proof.
  unfold fix_part. change 0x2D%N with hyphen. rewrite str_split_char_fields.
  reflexivity.
Qed.

Lemma map_fix_part (w : str) :
  map h (fix_part w)
  = str_join [hyphen]
      (map (fun p => map h (str_capitalize p)) (fields is_hyphen w)).
Proof.
  rewrite fix_part_fields, map_str_join, map_map. cbn [map]. rewrite h_hyphen.
  reflexivity.
Qed.

Lemma fix_part_stable (w : str) :
  latin1_str w -> fix_part (map h (fix_part w)) = fix_part w.
Proof.
  intros L. rewrite map_fix_part. rewrite (fix_part_fields (str_join _ _)).
  rewrite (fields_str_join is_hyphen hyphen); [|reflexivity| |].
  - rewrite map_map, fix_part_fields. f_equal. apply map_ext_in. intros p Hp.
    apply capitalize_stable.
    pose proof (pieces_latin1 is_hyphen w L) as P. rewrite Forall_forall in P. auto.
  - destruct (fields_cons is_hyphen w) as (f & more & ->). discriminate.
  - rewrite Forall_map.
    pose proof (pieces_latin1 is_hyphen w L) as P.
    pose proof (fields_all_free is_hyphen w) as F.
    rewrite Forall_forall in *. intros p Hp.
    apply capitalize_free; auto.
    intros c Lc Hc. apply (shape_parts c Lc). exact Hc.
Qed.

Lemma fix_part_free_space (w : str) :
  latin1_str w -> free_of isspace w -> free_of isspace (map h (fix_part w)).
Proof.
  intros L F. rewrite map_fix_part. apply free_of_str_join.
  - repeat constructor.
  - rewrite Forall_map.
    pose proof (pieces_latin1 is_hyphen w L) as P.
    pose proof (pieces_free is_hyphen w isspace F) as Q.
    rewrite Forall_forall in *. intros p Hp.
    apply capitalize_free; auto.
    intros c Lc Hc. apply (shape_parts c Lc). exact Hc.
Qed.

Lemma fix_part_nonempty (w : str) :
  latin1_str w -> w <> [] -> map h (fix_part w) <> [].
Proof.
  intros L N E. apply map_eq_nil in E. rewrite fix_part_fields in E.
  apply str_join_nil in E; [|discriminate].
  destruct (fields_cons is_hyphen w) as (f & more & F). rewrite F in E.
  destruct E as [E|E]; [discriminate|].
  cbn [map] in E. injection E as E1 E2.
  apply map_eq_nil in E2. subst more.
  assert (f <> []).
  { intros ->. apply N. apply (fields_single_nil is_hyphen). exact F. }
  apply (capitalize_nonempty f); [|assumption|assumption].
  pose proof (pieces_latin1 is_hyphen w L) as P. rewrite F in P.
  inversion P; assumption.
Qed.

(** Renaming the characters of a normalized name and normalizing it
    again gives the normalized name back. *)
Lemma normalize_name_stable (x : str) :
  latin1_str x -> normalize_name (map h (normalize_name x)) = normalize_name x.
Proof.
  intros L. rewrite (normalize_name_words x). rewrite map_str_join, map_map.
  cbn [lit map list_ascii_of_string]. change (N_of_ascii " ") with space.
  rewrite h_space. rewrite normalize_name_words.
  assert (W : forall w, In w (words x) -> latin1_str w /\ w <> [] /\ free_of isspace w).
  { intros w Hw. destruct (words_props x w Hw) as (N & F & I).
    split; [|auto]. apply Forall_forall. intros c Hc.
    unfold latin1_str in L. rewrite Forall_forall in L. auto. }
  rewrite words_str_join.
  - rewrite map_map. f_equal. apply map_ext_in. intros w Hw.
    apply fix_part_stable. apply W. exact Hw.
  - rewrite Forall_map. apply Forall_forall. intros w Hw.
    destruct (W w Hw) as (Lw & N & F). split.
    + apply fix_part_nonempty; assumption.
    + apply fix_part_free_space; assumption.
Qed.

End NameShape.

Lemma shape_identity (c : char) : latin1 c -> keeps_name_shape (fun x => x) c = true.
Proof. apply (latin1_check (keeps_name_shape (fun x => x))). vm_compute. reflexivity. Qed.

Lemma shape_lower (c : char) : latin1 c -> keeps_name_shape lower c = true.
Proof. apply (latin1_check (keeps_name_shape lower)). vm_compute. reflexivity. Qed.

(** C8, as the code has it.  On strings of Latin-1 characters (ASCII
    among them) [normalize_name] is idempotent. *)
Theorem normalize_name_idempotent_on_latin1 (x : str) :
  latin1_str x -> normalize_name (normalize_name x) = normalize_name x.
Proof.
  intros L.
  rewrite <- (map_id (normalize_name x)) at 1.
  apply (normalize_name_stable (fun c => c) shape_identity x L).
Qed.

Lemma normalize_name_idempotent_on_latin1_witness :
  latin1_str (lit "jean-paul  DUPONT")
  /\ normalize_name (normalize_name (lit "jean-paul  DUPONT"))
     = normalize_name (lit "jean-paul  DUPONT").
Proof.
  split.
  - apply latin1_str_forallb. reflexivity.
  - apply (normalize_name_idempotent_on_latin1 (lit "jean-paul  DUPONT")).
    apply latin1_str_forallb. reflexivity.
Defined.

(** C8 as stated fails: U+0149 is capitalized to U+02BC followed by [N],
    and that string in turn to U+02BC followed by [n]. *)
Lemma normalize_name_not_idempotent :
  ~ (forall x : str, normalize_name (normalize_name x) = normalize_name x).
Proof.
  intros H. specialize (H [0x149%N]). discriminate H.
Qed.

(** Two normalized names that differ only by case are the same name. *)
Lemma normalized_names_equal_up_to_case (x y : str) :
  latin1_str x -> latin1_str y ->
  str_lower (normalize_name x) = str_lower (normalize_name y) ->
  normalize_name x = normalize_name y.
Proof.
  intros Lx Ly E.
  rewrite <- (normalize_name_stable lower shape_lower x Lx).
  rewrite <- (normalize_name_stable lower shape_lower y Ly).
  unfold str_lower in E. rewrite E. reflexivity.
Qed.

(** ** The states of the repository *)

(** *** The dictionary *)

Lemma keys_dict_set (d : AddressBook.t) (k : str) (v : Record_.t) :
  AddressBook.keys (AddressBook.dict_set d k v)
  = if existsb (str_eqb k) (AddressBook.keys d)
    then AddressBook.keys d else AddressBook.keys d ++ [k].
Proof.
  induction d as [|[k' v'] d IH]; cbn [AddressBook.dict_set AddressBook.keys map existsb fst];
    [reflexivity|].
  rewrite (str_eqb_sym k k'). destruct (str_eqb k' k); [reflexivity|].
  cbn [orb AddressBook.keys map fst]. fold (AddressBook.keys d) in *.
  fold (AddressBook.keys (AddressBook.dict_set d k v)). rewrite IH.
  destruct (existsb _ _); reflexivity.
Qed.

Lemma existsb_str_eqb (k : str) (l : list str) :
  existsb (str_eqb k) l = true <-> In k l.
Proof.
  rewrite existsb_exists. split.
  - intros (x & Hx & E). apply str_eqb_eq in E. subst. exact Hx.
  - intros H. exists k. split; [exact H | apply str_eqb_refl].
Qed.

Lemma dict_set_In (d : AddressBook.t) (k0 : str) (v : Record_.t) (k : str) (r : Record_.t) :
  In (k, r) (AddressBook.dict_set d k0 v) -> (k = k0 /\ r = v) \/ In (k, r) d.
Proof.
  induction d as [|[k' v'] d IH]; cbn [AddressBook.dict_set].
  - intros [H|[]]. injection H as <- <-. auto.
  - destruct (str_eqb k' k0) eqn:E.
    + apply str_eqb_eq in E. subst k'.
      intros [H|H]; [injection H as <- <-; auto | right; right; exact H].
    + intros [H|H]; [right; left; exact H|].
      destruct (IH H); [auto | right; right; assumption].
Qed.

Lemma dict_del_In (d : AddressBook.t) (k0 : str) (kr : str * Record_.t) :
  In kr (AddressBook.dict_del d k0) -> In kr d.
Proof.
  induction d as [|[k' v'] d IH]; cbn [AddressBook.dict_del]; [auto|].
  destruct (str_eqb k' k0); [right; assumption|].
  intros [H|H]; [left; exact H | right; auto].
Qed.

Lemma keys_dict_del_NoDup (d : AddressBook.t) (k0 : str) :
  NoDup (AddressBook.keys d) -> NoDup (AddressBook.keys (AddressBook.dict_del d k0)).
Proof.
  induction d as [|[k' v'] d IH]; cbn [AddressBook.dict_del AddressBook.keys map fst];
    [auto|].
  intros ND. inversion ND as [|? ? N ND']; subst.
  destruct (str_eqb k' k0); [exact ND'|].
  cbn [AddressBook.keys map fst]. constructor; [|apply IH; exact ND'].
  intros H. apply N. apply in_map_iff in H as (kr & E & H).
  apply dict_del_In in H. apply in_map_iff. eauto.
Qed.

Lemma keys_replace_item (d : AddressBook.t) (l : str) (r : Record_.t) :
  AddressBook.keys (AddressBook.replace_item d l r) = AddressBook.keys d.
Proof.
  induction d as [|[k' v'] d IH]; cbn [AddressBook.replace_item]; [reflexivity|].
  destruct (str_eqb (str_lower k') l); [reflexivity|].
  cbn [AddressBook.keys map fst]. f_equal. exact IH.
Qed.

Lemma replace_item_In (d : AddressBook.t) (l : str) (r' : Record_.t)
    (k : str) (r : Record_.t) :
  In (k, r) (AddressBook.replace_item d l r') ->
  In (k, r) d \/ (r = r' /\ exists r0, AddressBook.find_item d l = Some (k, r0)).
Proof.
  induction d as [|[k' v'] d IH]; cbn [AddressBook.replace_item AddressBook.find_item];
    [intros []|].
  destruct (str_eqb (str_lower k') l).
  - intros [H|H]; [injection H as <- <-; right; eauto | left; right; exact H].
  - intros [H|H]; [left; left; exact H|].
    destruct (IH H) as [H'|H']; [left; right; exact H' | right; exact H'].
Qed.

Lemma in_book_iff (book : AddressBook.t) (P : Record_.t -> Prop) :
  Forall P (AddressBook.values book) <-> forall k r, In (k, r) book -> P r.
Proof.
  unfold AddressBook.values. rewrite Forall_map, Forall_forall. split.
  - intros H k r Hin. apply (H (k, r) Hin).
  - intros H [k r] Hin. apply (H k r Hin).
Qed.

Lemma in_keys_iff (book : AddressBook.t) (P : str -> Prop) :
  Forall P (AddressBook.keys book) <-> forall k r, In (k, r) book -> P k.
Proof.
  unfold AddressBook.keys. rewrite Forall_map, Forall_forall. split.
  - intros H k r Hin. apply (H (k, r) Hin).
  - intros H [k r] Hin. apply (H k r Hin).
Qed.

Lemma find_Some_In (book : AddressBook.t) (name : str) (record : Record_.t) :
  AddressBook.find book name = Some record ->
  exists k, AddressBook.find_item book (str_lower name) = Some (k, record)
            /\ In (k, record) book.
Proof.
  unfold AddressBook.find.
  destruct (AddressBook.find_item book (str_lower name)) as [[k r]|] eqn:F;
    [|discriminate].
  cbn. intros H; injection H as ->. exists k. split; [reflexivity|].
  apply (find_item_In _ _ _ F).
Qed.

Lemma delete_snd (book : AddressBook.t) (name : str) :
  snd (AddressBook.delete book name) = book
  \/ exists k, snd (AddressBook.delete book name) = AddressBook.dict_del book k.
Proof.
  unfold AddressBook.delete.
  destruct (AddressBook.find_item book (str_lower name)) as [[k r]|]; cbn; eauto.
Qed.

(** *** What every reachable book satisfies *)

Lemma well_formed_empty : well_formed AddressBook.empty.
Proof.
  repeat split; try constructor. intros k r [].
Qed.

Lemma well_formed_del (book : AddressBook.t) (k0 : str) :
  well_formed book -> well_formed (AddressBook.dict_del book k0).
Proof.
  intros (ND & KN & PC & NK). unfold book_phones_checked in *.
  rewrite in_book_iff in PC. rewrite in_keys_iff in NK.
  split; [apply keys_dict_del_NoDup; exact ND|]. split; [|split].
  - intros k r H. apply KN. apply (dict_del_In _ _ _ H).
  - apply in_book_iff. intros k r H. apply (PC k r). apply (dict_del_In _ _ _ H).
  - apply in_keys_iff. intros k r H. apply (NK k r). apply (dict_del_In _ _ _ H).
Qed.

Lemma well_formed_delete (book : AddressBook.t) (name : str) :
  well_formed book -> well_formed (snd (AddressBook.delete book name)).
Proof.
  intros W. destruct (delete_snd book name) as [->|[k ->]];
    [exact W | apply well_formed_del; exact W].
Qed.

Lemma well_formed_add (book : AddressBook.t) (record : Record_.t) :
  well_formed book -> normalized (value (Record_.name record)) ->
  phones_checked record -> well_formed (AddressBook.add_record book record).
Proof.
  intros (ND & KN & PC & NK) NR PR. unfold book_phones_checked in *.
  rewrite in_book_iff in PC. rewrite in_keys_iff in NK.
  unfold AddressBook.add_record. split; [|split; [|split]].
  - unfold dict_ok in *. rewrite keys_dict_set.
    destruct (existsb _ _) eqn:E; [exact ND|].
    apply NoDup_app; [exact ND | repeat constructor; intros [] |].
    intros k Hk [<-|[]]. apply existsb_str_eqb in Hk. congruence.
  - intros k r H. apply dict_set_In in H as [[-> ->]|H]; [reflexivity | apply KN; exact H].
  - apply in_book_iff. intros k r H.
    apply dict_set_In in H as [[-> ->]|H]; [exact PR | apply (PC k r H)].
  - apply in_keys_iff. intros k r H.
    apply dict_set_In in H as [[-> ->]|H]; [exact NR | apply (NK k r H)].
Qed.

Lemma well_formed_step (book book' : AddressBook.t) :
  well_formed book -> book_step book book' -> well_formed book'.
Proof.
  intros W S. destruct S as [|name record record' F [RN RP]|name|x record L E P|old x record L F].
  - exact W.
  - destruct W as (ND & KN & PC & NK). unfold book_phones_checked in *.
    rewrite in_book_iff in PC.
    destruct (find_Some_In _ _ _ F) as (k0 & FI & Hin).
    unfold AddressBook.update_found. split; [|split; [|split]].
    + unfold dict_ok. rewrite keys_replace_item. exact ND.
    + intros k r H. apply replace_item_In in H as [H|[-> (r0 & H)]]; [apply KN; exact H|].
      rewrite FI in H. injection H as <- <-. rewrite RN. apply KN. exact Hin.
    + apply in_book_iff. intros k r H.
      apply replace_item_In in H as [H|[-> (r0 & H)]]; [apply (PC k r H)|].
      apply RP. apply (PC k0 record Hin).
    + rewrite keys_replace_item. exact NK.
  - apply well_formed_delete. exact W.
  - apply well_formed_add; [exact W | exists x; auto | exact P].
  - apply well_formed_add; [apply well_formed_delete; exact W | exists x; auto |].
    destruct W as (_ & _ & PC & _). unfold book_phones_checked in PC.
    rewrite in_book_iff in PC.
    destruct (find_Some_In _ _ _ F) as (k0 & _ & Hin).
    apply (PC k0 record Hin).
Qed.

Lemma well_formed_case_unique (book : AddressBook.t) :
  well_formed book -> case_unique book.
Proof.
  intros (ND & _ & _ & NK). unfold case_unique.
  apply NoDup_map_NoDup_ForallPairs; [|exact ND].
  intros a b Ha Hb E. rewrite Forall_forall in NK.
  destruct (NK a Ha) as (x & Lx & ->). destruct (NK b Hb) as (y & Ly & ->).
  apply normalized_names_equal_up_to_case; assumption.
Qed.

(** *** What the methods do to a record *)

Lemma record_step_refl (r : Record_.t) : record_step r r.
Proof. split; auto. Qed.

Lemma list_remove_Forall (P : Field -> Prop) (ps : list Field) (x : Field) :
  Forall P ps -> Forall P (Record_.list_remove ps x).
Proof.
  induction 1 as [|p ps Hp H IH]; cbn [Record_.list_remove]; [constructor|].
  destruct (str_eqb (value p) (value x)); [exact H | constructor; assumption].
Qed.

Lemma Phone_checked (s : str) (p : Field) : Phone s = Ok p -> ten_digits (value p).
Proof.
  intros H. destruct (Phone_cases s) as [E|E]; rewrite E in H; [|discriminate].
  injection H as <-. apply Phone_ok_iff. exact E.
Qed.

Lemma add_phone_step (r : Record_.t) (phone : str) (b : bool) (r' : Record_.t) :
  Record_.add_phone r phone = (b, r') -> record_step r r'.
Proof.
  unfold Record_.add_phone.
  destruct (Record_.find_phone r phone);
    [intros H; injection H as _ <-; apply record_step_refl|].
  destruct (Phone phone) as [p|e] eqn:P.
  - intros H; injection H as _ <-. split; [reflexivity|].
    unfold phones_checked. cbn [Record_.set_phones Record_.phones]. intros C.
    apply Forall_app. split; [exact C|]. constructor; [|constructor].
    apply (Phone_checked _ _ P).
  - intros H; injection H as _ <-; apply record_step_refl.
Qed.

Lemma remove_phone_step (r : Record_.t) (phone : str) (b : bool) (r' : Record_.t) :
  Record_.remove_phone r phone = (b, r') -> record_step r r'.
Proof.
  unfold Record_.remove_phone.
  destruct (Record_.find_phone r phone);
    intros H; injection H as _ <-; [|apply record_step_refl].
  split; [reflexivity|]. unfold phones_checked.
  cbn [Record_.set_phones Record_.phones]. apply list_remove_Forall.
Qed.

Lemma edit_phone_step (r : Record_.t) (old new : str) (b : bool) (r' : Record_.t) :
  Record_.edit_phone r old new = (b, r') -> record_step r r'.
Proof.
  unfold Record_.edit_phone.
  destruct (Record_.find_phone r old);
    [|intros H; injection H as _ <-; apply record_step_refl].
  destruct (Phone new) as [p|e] eqn:P; intros H; injection H as _ <-.
  - split; [reflexivity|]. unfold phones_checked.
    cbn [Record_.set_phones Record_.phones]. intros C.
    apply Forall_app. split; [apply list_remove_Forall; exact C|].
    constructor; [|constructor]. apply (Phone_checked _ _ P).
  - split; [reflexivity|]. unfold phones_checked.
    cbn [Record_.set_phones Record_.phones]. apply list_remove_Forall.
Qed.

Lemma add_birthday_step (today : date) (r : Record_.t) (s : str) (r' : Record_.t) :
  Record_.add_birthday today r s = Ok r' -> record_step r r'.
Proof.
  unfold Record_.add_birthday. destruct (Birthday today s); cbn [bind]; [|discriminate].
  intros H; injection H as <-. split; [reflexivity | auto].
Qed.

Lemma edit_birthday_step (today : date) (r : Record_.t) (s : str) (r' : Record_.t) :
  Record_.edit_birthday today r s = Ok r' -> record_step r r'.
Proof. apply add_birthday_step. Qed.

Lemma remove_birthday_step (r : Record_.t) : record_step r (Record_.remove_birthday r).
Proof. split; [reflexivity | auto]. Qed.

Lemma add_phones_step (phones : list str) (r : Record_.t) (r' : Record_.t) :
  add_phones r phones = inr r' -> record_step r r'.
Proof.
  revert r. induction phones as [|p phones IH]; intros r; cbn [add_phones].
  - intros H; injection H as <-. apply record_step_refl.
  - destruct (Record_.add_phone r p) as [[|] r1] eqn:A; [|discriminate].
    intros H. apply add_phone_step in A as [N1 C1]. apply IH in H as [N2 C2].
    split; [congruence | auto].
Qed.

(** *** The tokens of a command *)

Lemma latin1_str_join (parts : list str) :
  Forall latin1_str parts -> latin1_str (str_join (lit " ") parts).
Proof.
  intros F. destruct parts as [|a more]; [constructor|].
  revert a F. induction more as [|b more IH]; intros a F.
  - inversion F; assumption.
  - inversion F; subst. rewrite str_join_cons2.
    apply Forall_app. split; [assumption|].
    apply Forall_app. split; [|apply IH; assumption].
    repeat constructor.
Qed.

Lemma Forall_firstn_skipn {A : Type} (P : A -> Prop) (n : nat) (l : list A) :
  Forall P l -> Forall P (firstn n l) /\ Forall P (skipn n l).
Proof.
  intros F. rewrite <- (firstn_skipn n l) in F. apply Forall_app in F. exact F.
Qed.

Lemma latin1_name_tokens (n : nat) (args : list str) :
  Forall latin1_str args ->
  latin1_str (str_join (lit " ") (firstn n args))
  /\ latin1_str (str_join (lit " ") (skipn n args)).
Proof.
  intros F. destruct (Forall_firstn_skipn latin1_str n args F).
  split; apply latin1_str_join; assumption.
Qed.

(** *** What the handlers do to the book *)

Lemma input_error_Ok (book : AddressBook.t) (body : handler_result)
    (msg : str) (book' : AddressBook.t) :
  input_error book body = Ok (msg, book') ->
  body = Ok (msg, book') \/ book' = book.
Proof.
  unfold input_error. destruct body as [r|[m| | |]]; intros H;
    try discriminate H; injection H as H; subst; auto.
Qed.

Ltac handler_cases H :=
  cbv zeta in H;
  repeat (cbn [bind] in H;
          match type of H with
          | context [match ?x with _ => _ end] => destruct x eqn:?
          end);
  cbn [bind] in H; try discriminate H.

Ltac handler_start H :=
  apply input_error_Ok in H as [H | ->]; [|apply step_same].

Lemma add_contact_step (args : list str) (book : AddressBook.t)
    (msg : str) (book' : AddressBook.t) :
  Forall latin1_str args -> add_contact args book = Ok (msg, book') ->
  book_step book book'.
Proof.
  intros L H. unfold add_contact in H. handler_start H. handler_cases H.
  all: injection H as <- <-.
  all: try apply step_same.
  match goal with
  | A : add_phones _ _ = inr _, F : firstn ?n _ = _ |- _ =>
      apply add_phones_step in A as [N C]; rewrite <- F in *;
      apply (step_add book (str_join (lit " ") (firstn n args)))
  end.
  - apply latin1_name_tokens. exact L.
  - rewrite N. reflexivity.
  - apply C. constructor.
Qed.

Lemma name_exists_find (book : AddressBook.t) (name : str) :
  AddressBook.name_exists book name = true ->
  exists record, AddressBook.find book name = Some record.
Proof.
  unfold AddressBook.name_exists, AddressBook.find.
  induction book as [|[k r] book IH];
    cbn [AddressBook.keys map fst existsb AddressBook.find_item]; [discriminate|].
  rewrite (str_eqb_sym (str_lower name)).
  destruct (str_eqb (str_lower k) (str_lower name)); [cbn; eauto | exact IH].
Qed.

(** The record that [edit_contact_name] renames is always found. *)
Lemma find_old_name_found (book : AddressBook.t) (args : list str)
    (splits : list nat) (old_name new_name : str) :
  find_old_name book args splits = Some (old_name, new_name) ->
  exists record, AddressBook.find book old_name = Some record.
Proof.
  induction splits as [|i splits IH]; cbn [find_old_name]; [discriminate|].
  destruct (AddressBook.name_exists book _) eqn:E; [|exact IH].
  intros H; injection H as <- _. apply name_exists_find. exact E.
Qed.

Lemma find_old_name_Some (book : AddressBook.t) (args : list str)
    (splits : list nat) (old_name new_name : str) :
  find_old_name book args splits = Some (old_name, new_name) ->
  exists i, new_name = normalize_name (str_join (lit " ") (skipn i args)).
Proof.
  induction splits as [|i splits IH]; cbn [find_old_name]; [discriminate|].
  destruct (AddressBook.name_exists book _); [|exact IH].
  intros H; injection H as _ <-. eauto.
Qed.

Lemma edit_contact_name_step (args : list str) (book : AddressBook.t)
    (msg : str) (book' : AddressBook.t) :
  Forall latin1_str args -> edit_contact_name args book = Ok (msg, book') ->
  book_step book book'.
Proof.
  intros L H. unfold edit_contact_name in H. handler_start H. handler_cases H.
  all: injection H as <- <-.
  all: try apply step_same.
  match goal with
  | F : find_old_name _ _ _ = Some _ |- _ =>
      apply find_old_name_Some in F as [i ->]
  end.
  apply step_rename; [|assumption].
  apply latin1_name_tokens. exact L.
Qed.

Lemma change_contact_step (args : list str) (book : AddressBook.t)
    (msg : str) (book' : AddressBook.t) :
  change_contact args book = Ok (msg, book') -> book_step book book'.
Proof.
  intros H. unfold change_contact in H. handler_start H. handler_cases H.
  all: injection H as <- <-.
  all: try apply step_same.
  all: eapply step_update; [eassumption | eapply edit_phone_step; eassumption].
Qed.

Lemma add_phone_to_contact_step (args : list str) (book : AddressBook.t)
    (msg : str) (book' : AddressBook.t) :
  add_phone_to_contact args book = Ok (msg, book') -> book_step book book'.
Proof.
  intros H. unfold add_phone_to_contact in H. handler_start H. handler_cases H.
  all: injection H as <- <-.
  all: try apply step_same.
  all: eapply step_update; [eassumption | eapply add_phone_step; eassumption].
Qed.

Lemma remove_phone_step' (args : list str) (book : AddressBook.t)
    (msg : str) (book' : AddressBook.t) :
  remove_phone args book = Ok (msg, book') -> book_step book book'.
Proof.
  intros H. unfold remove_phone in H. handler_start H. handler_cases H.
  all: injection H as <- <-.
  all: try apply step_same.
  all: eapply step_update; [eassumption | eapply remove_phone_step; eassumption].
Qed.

Lemma remove_contact_step (args : list str) (book : AddressBook.t)
    (msg : str) (book' : AddressBook.t) :
  remove_contact args book = Ok (msg, book') -> book_step book book'.
Proof.
  intros H. unfold remove_contact in H. handler_start H. handler_cases H.
  all: injection H as <- <-.
  all: try apply step_same.
  match goal with
  | D : AddressBook.delete ?b ?n = (_, ?b') |- _ =>
      replace b' with (snd (AddressBook.delete b n)) by (rewrite D; reflexivity)
  end.
  apply step_delete.
Qed.

Ltac handler_cases_bind H :=
  cbv zeta in H;
  repeat (cbn [bind] in H;
          match type of H with
          | context [match ?x with _ => _ end] => destruct x eqn:?
          | context [bind ?c _] => destruct c eqn:?
          end);
  cbn [bind] in H; try discriminate H.

Lemma add_birthday_step' (today : date) (args : list str) (book : AddressBook.t)
    (msg : str) (book' : AddressBook.t) :
  add_birthday today args book = Ok (msg, book') -> book_step book book'.
Proof.
  intros H. unfold add_birthday in H. handler_start H. handler_cases_bind H.
  all: injection H as <- <-.
  all: try apply step_same.
  all: eapply step_update; [eassumption | eapply add_birthday_step; eassumption].
Qed.

Lemma edit_birthday_step' (today : date) (args : list str) (book : AddressBook.t)
    (msg : str) (book' : AddressBook.t) :
  edit_birthday today args book = Ok (msg, book') -> book_step book book'.
Proof.
  intros H. unfold edit_birthday in H. handler_start H. handler_cases_bind H.
  all: injection H as <- <-.
  all: try apply step_same.
  all: eapply step_update; [eassumption | eapply edit_birthday_step; eassumption].
Qed.

Lemma remove_birthday_step' (args : list str) (book : AddressBook.t)
    (msg : str) (book' : AddressBook.t) :
  remove_birthday args book = Ok (msg, book') -> book_step book book'.
Proof.
  intros H. unfold remove_birthday in H. handler_start H. handler_cases H.
  all: injection H as <- <-.
  all: try apply step_same.
  all: eapply step_update; [eassumption | apply remove_birthday_step].
Qed.

Lemma dispatch_step (c : command) (book : AddressBook.t)
    (msg : str) (book' : AddressBook.t) :
  latin1_command c -> dispatch c book = Ok (msg, book') -> book_step book book'.
Proof.
  destruct c; cbn [dispatch command_args]; unfold latin1_command; cbn [command_args];
    intros L H.
  - eapply add_contact_step; eassumption.
  - eapply edit_contact_name_step; eassumption.
  - eapply remove_contact_step; eassumption.
  - eapply add_phone_to_contact_step; eassumption.
  - eapply change_contact_step; eassumption.
  - eapply remove_phone_step'; eassumption.
  - eapply add_birthday_step'; eassumption.
  - eapply edit_birthday_step'; eassumption.
  - eapply remove_birthday_step'; eassumption.
Qed.

(** Every book that a session builds is well formed: no key twice, every
    record under its own name, every phone checked, every key a
    normalized name. *)
Lemma reachable_well_formed (book : AddressBook.t) :
  reachable book -> well_formed book.
Proof.
  induction 1 as [|book c msg book' R IH L D].
  - apply well_formed_empty.
  - apply (well_formed_step book book' IH). apply (dispatch_step c book msg book' L D).
Qed.

(** C5, as the code has it.  [add_record] does not look at case; it is
    the command handlers that keep the names apart: every key they store
    is a normalized name, and two normalized names of Latin-1 characters
    that differ only by case are equal.  So in every book that a session
    of commands builds from the empty book, no two keys differ only by
    case.  In particular, once [Anna] is added, adding [ANNA] is refused,
    [name_exists] answers true for [anna], and [find] has one record to
    return for that name. *)
Theorem handlers_keep_names_unique_up_to_case :
  (forall book : AddressBook.t, reachable book -> case_unique book)
  /\ (let anna :=
        Record_.mk (Name (lit "Anna")) [mkField (lit "1234567890")] None in
      let book := [(lit "Anna", anna)] in
      add_contact [lit "Anna"; lit "1234567890"] AddressBook.empty
      = Ok (lit "Contact added.", book)
      /\ add_contact [lit "ANNA"; lit "0987654321"] book
         = Ok (lit "Contact with this name already exists.", book)
      /\ AddressBook.name_exists book (lit "anna") = true
      /\ AddressBook.find book (lit "anna") = Some anna
      /\ length (filter (fun key => str_eqb (str_lower key) (str_lower (lit "anna")))
                   (AddressBook.keys book)) = 1%nat).
Proof.
  split.
  - intros book R. apply well_formed_case_unique, reachable_well_formed, R.
  - repeat split.
Qed.

Lemma handlers_keep_names_unique_up_to_case_witness :
  let book :=
    [(lit "Anna", Record_.mk (Name (lit "Anna")) [mkField (lit "1234567890")] None)] in
  reachable book /\ case_unique book.
Proof.
  intros book.
  assert (R : reachable book).
  { apply (reach_step AddressBook.empty
             (addcontact [lit "Anna"; lit "1234567890"]) (lit "Contact added.") book).
    - apply reach_empty.
    - unfold latin1_command. cbn [command_args].
      repeat (constructor; [apply latin1_str_forallb; reflexivity|]). constructor.
    - reflexivity. }
  split; [exact R|].
  apply (proj1 handlers_keep_names_unique_up_to_case book R).
Defined.

(** C5 as stated fails: the repository by itself stores [Anna] and
    [ANNA] side by side. *)
Lemma add_record_stores_names_differing_by_case :
  ~ (forall book : AddressBook.t, repository_state book -> case_unique book).
Proof.
  intros H.
  specialize (H (AddressBook.add_record
                   (AddressBook.add_record AddressBook.empty (Record_.init (lit "Anna")))
                   (Record_.init (lit "ANNA")))).
  assert (R : case_unique
                (AddressBook.add_record
                   (AddressBook.add_record AddressBook.empty (Record_.init (lit "Anna")))
                   (Record_.init (lit "ANNA"))))
    by (apply H; repeat constructor).
  unfold case_unique in R. inversion R as [|? ? N _]. apply N. left. reflexivity.
Qed.

(** Beyond Latin-1 the handlers do not keep the names apart either:
    U+0149 is normalized to U+02BC [N], and renaming another contact to
    U+02BC [n] puts a second key next to it that differs only by case. *)
Example handlers_beyond_latin1 :
  let session :=
    [addcontact [[0x149%N]; lit "1234567890"];
     addcontact [lit "Bob"; lit "0987654321"];
     editname [lit "Bob"; [0x2BC%N; 0x6E%N]]] in
  exists book,
    run session AddressBook.empty = Ok book
    /\ AddressBook.keys book = [[0x2BC%N; 0x4E%N]; [0x2BC%N; 0x6E%N]]
    /\ ~ case_unique book.
Proof.
  eexists. split; [reflexivity|]. split; [reflexivity|].
  unfold case_unique. intros R. inversion R as [|? ? N _]. apply N. left. reflexivity.
Qed.

(** ** Phone numbers of ASCII characters *)

Lemma isdigit_ascii (c : char) : is_ascii c -> isdigit c = ascii_digit c.
Proof.
  unfold is_ascii, isdigit, ascii_digit, in_range. intros H.
  replace ((178 <=? c)%N) with false by (symmetry; apply N.leb_gt; lia).
  replace ((c =? 185)%N) with false by (symmetry; apply N.eqb_neq; lia).
  cbn [andb orb]. rewrite !orb_false_r. reflexivity.
Qed.

(** On ASCII strings the digits of [str.isdigit] are the ASCII digits,
    and [Phone] accepts exactly the strings of ten of them. *)
Lemma Phone_on_ascii (s : str) :
  Forall is_ascii s -> (Phone s = Ok (mkField s) <-> ten_ascii_digits s).
Proof.
  intros A. rewrite Phone_ok_iff. unfold ten_digits, ten_ascii_digits.
  rewrite !Forall_forall in *.
  split; intros [L D]; (split; [exact L|]); intros c Hc;
    [rewrite <- isdigit_ascii | rewrite isdigit_ascii]; auto.
Qed.

(** C3, as the code has it.  For a string [s] of Latin-1 characters,
    [Phone s] succeeds exactly when [s] has ten characters that are all
    digits for [str.isdigit], and then wraps [s] itself; every other such
    string is refused with a [ValueError].  The digits of [str.isdigit]
    are more than the ASCII ones: on strings of ASCII characters they are
    the ten decimal digits. *)
Theorem Phone_accepts_exactly_ten_isdigit_characters (s : str) :
  latin1_str s ->
  ((ten_digits s /\ Phone s = Ok (mkField s))
   \/ (~ ten_digits s
       /\ Phone s
          = Raise (ValueError (lit "Phone number must contain exactly 10 digits."))))
  /\ (Forall is_ascii s -> (Phone s = Ok (mkField s) <-> ten_ascii_digits s)).
Proof.
  intros _. split; [|apply Phone_on_ascii].
  destruct (Phone_cases s) as [H|H].
  - left. split; [apply Phone_ok_iff|]; assumption.
  - right. split; [|assumption].
    intros T. apply Phone_ok_iff in T. congruence.
Qed.

Lemma Phone_accepts_exactly_ten_isdigit_characters_witness :
  latin1_str (lit "0501234567")
  /\ ((ten_digits (lit "0501234567")
       /\ Phone (lit "0501234567") = Ok (mkField (lit "0501234567")))
      \/ (~ ten_digits (lit "0501234567")
          /\ Phone (lit "0501234567")
             = Raise (ValueError (lit "Phone number must contain exactly 10 digits."))))
  /\ (Forall is_ascii (lit "0501234567") ->
      (Phone (lit "0501234567") = Ok (mkField (lit "0501234567"))
       <-> ten_ascii_digits (lit "0501234567"))).
Proof.
  assert (L : latin1_str (lit "0501234567")) by (apply latin1_str_forallb; reflexivity).
  split; [exact L|].
  exact (Phone_accepts_exactly_ten_isdigit_characters (lit "0501234567") L).
Defined.

(** C3 as stated fails: ten superscript twos (U+00B2) make a phone
    number, and none of them is an ASCII digit. *)
Lemma Phone_accepts_superscript_digits :
  ~ (forall s : str, (exists p, Phone s = Ok p) <-> ten_ascii_digits s).
Proof.
  intros H.
  destruct (H (repeat 0xB2%N 10)) as [H1 _].
  assert (T : ten_ascii_digits (repeat 0xB2%N 10)) by (apply H1; eexists; reflexivity).
  destruct T as [_ T]. inversion T as [|c l Hc _]. discriminate Hc.
Qed.

(* ================================================================== *)
(** * Part III: further properties of the code                          *)
(* ================================================================== *)

(** ** The phones of a record *)

Lemma field_eta (p : Field) : mkField (value p) = p.
Proof. destruct p; reflexivity. Qed.

Lemma find_phone_in_split (ps : list Field) (phone : str) (p : Field) :
  Record_.find_phone_in ps phone = Some p ->
  exists before after,
    ps = before ++ mkField phone :: after
    /\ ~ In phone (map value before)
    /\ p = mkField phone
    /\ Record_.list_remove ps p = before ++ after.
Proof.
  induction ps as [|x ps IH]; cbn [Record_.find_phone_in]; [discriminate|].
  destruct (str_eqb (value x) phone) eqn:E.
  - intros H; injection H as <-. apply str_eqb_eq in E.
    exists [], ps. cbn [app map Record_.list_remove].
    rewrite str_eqb_refl. rewrite <- E, field_eta. auto.
  - intros H. destruct (IH H) as (before & after & -> & N & -> & R).
    exists (x :: before), after. cbn [app map Record_.list_remove value].
    rewrite E, R. apply str_eqb_neq in E.
    repeat split; auto. intros [H'|H']; [congruence | contradiction].
Qed.

(** X1.  For a number of Latin-1 characters, [add_phone] answers true
    exactly when the number is not yet on the record and passes [Phone];
    the number then goes to the end of the list.  In every other case the
    record is left as it was. *)
Theorem add_phone_appends_new_valid_numbers (r : Record_.t) (phone : str) :
  latin1_str phone ->
  (~ In phone (numbers r) /\ ten_digits phone
   /\ Record_.add_phone r phone
      = (true, Record_.set_phones r (Record_.phones r ++ [mkField phone])))
  \/ ((In phone (numbers r) \/ ~ ten_digits phone)
      /\ Record_.add_phone r phone = (false, r)).
Proof.
  intros _. unfold Record_.add_phone, Record_.find_phone, numbers.
  destruct (Record_.find_phone_in (Record_.phones r) phone) as [p|] eqn:F.
  - right. split; [|reflexivity]. left.
    apply find_phone_in_Some in F as [Hin <-]. apply in_map. exact Hin.
  - apply find_phone_in_None in F.
    destruct (Phone_cases phone) as [H|H]; rewrite H.
    + left. apply Phone_ok_iff in H. auto.
    + right. split; [|reflexivity]. right. intros T.
      apply Phone_ok_iff in T. congruence.
Qed.

Lemma add_phone_appends_new_valid_numbers_witness :
  let r := Record_.mk (Name (lit "Anna")) [mkField (lit "1111111111")] None in
  latin1_str (lit "2222222222")
  /\ Record_.add_phone r (lit "2222222222")
     = (true, Record_.set_phones r (Record_.phones r ++ [mkField (lit "2222222222")]))
  /\ ((~ In (lit "2222222222") (numbers r) /\ ten_digits (lit "2222222222")
       /\ Record_.add_phone r (lit "2222222222")
          = (true,
             Record_.set_phones r (Record_.phones r ++ [mkField (lit "2222222222")])))
      \/ ((In (lit "2222222222") (numbers r) \/ ~ ten_digits (lit "2222222222"))
          /\ Record_.add_phone r (lit "2222222222") = (false, r))).
Proof.
  intros r.
  assert (L : latin1_str (lit "2222222222")) by (apply latin1_str_forallb; reflexivity).
  split; [exact L|]. split; [reflexivity|].
  exact (add_phone_appends_new_valid_numbers r (lit "2222222222") L).
Defined.

(** X2.  [remove_phone] answers true exactly when the number is on the
    record, and then takes out its first occurrence and nothing else; a
    number that is not there leaves the record as it was. *)
Theorem remove_phone_takes_out_the_first_occurrence (r : Record_.t) (phone : str) :
  (exists before after,
      Record_.phones r = before ++ mkField phone :: after
      /\ ~ In phone (map value before)
      /\ Record_.remove_phone r phone
         = (true, Record_.set_phones r (before ++ after)))
  \/ (~ In phone (numbers r) /\ Record_.remove_phone r phone = (false, r)).
Proof.
  unfold Record_.remove_phone, Record_.find_phone, numbers.
  destruct (Record_.find_phone_in (Record_.phones r) phone) as [p|] eqn:F.
  - left. destruct (find_phone_in_split _ _ _ F) as (before & after & E & N & -> & R).
    exists before, after. rewrite R. auto.
  - right. apply find_phone_in_None in F. auto.
Qed.

Lemma numbers_set_phones (r : Record_.t) (ps : list Field) :
  numbers (Record_.set_phones r ps) = map value ps.
Proof. reflexivity. Qed.

(** X3.  A record on which no number occurs twice stays so under
    [add_phone] and [remove_phone], and a number that [remove_phone] took
    out is no longer found. *)
Theorem add_and_remove_keep_phones_distinct (r : Record_.t) (phone : str) :
  distinct_phones r ->
  distinct_phones (snd (Record_.add_phone r phone))
  /\ distinct_phones (snd (Record_.remove_phone r phone))
  /\ Record_.find_phone (snd (Record_.remove_phone r phone)) phone = None.
Proof.
  intros D. split; [|].
  - unfold Record_.add_phone, Record_.find_phone.
    destruct (Record_.find_phone_in (Record_.phones r) phone) as [p|] eqn:F;
      [exact D|].
    apply find_phone_in_None in F.
    destruct (Phone_cases phone) as [H|H]; rewrite H; [|exact D].
    unfold distinct_phones. cbn [snd]. rewrite numbers_set_phones, map_app.
    apply NoDup_app; [exact D | repeat constructor; intros [] |].
    intros x Hx [<-|[]]. apply F. exact Hx.
  - unfold Record_.remove_phone, Record_.find_phone.
    destruct (Record_.find_phone_in (Record_.phones r) phone) as [p|] eqn:F;
      cbn [snd].
    + destruct (find_phone_in_split _ _ _ F) as (b & a & E & N & -> & R).
      rewrite R. unfold distinct_phones, numbers in *. rewrite E in D.
      rewrite map_app in D. cbn [map value] in D.
      cbn [Record_.set_phones Record_.phones].
      split; [rewrite map_app; apply (NoDup_remove_1 _ _ _ D)|].
      apply find_phone_in_None. rewrite map_app.
      apply (NoDup_remove_2 _ _ _ D).
    + split; [exact D|]. exact F.
Qed.

Lemma add_and_remove_keep_phones_distinct_witness :
  let r := Record_.mk (Name (lit "Anna"))
             [mkField (lit "1111111111"); mkField (lit "2222222222")] None in
  distinct_phones r
  /\ distinct_phones (snd (Record_.add_phone r (lit "3333333333")))
  /\ distinct_phones (snd (Record_.remove_phone r (lit "3333333333")))
  /\ Record_.find_phone (snd (Record_.remove_phone r (lit "3333333333")))
       (lit "3333333333") = None.
Proof.
  intros r.
  assert (D : distinct_phones r).
  { unfold distinct_phones. cbn. repeat constructor; cbn; intuition discriminate. }
  split; [exact D|].
  apply (add_and_remove_keep_phones_distinct r (lit "3333333333") D).
Defined.

Lemma list_remove_keeps_others (ps : list Field) (x : Field) (n : str) :
  In n (map value ps) -> n <> value x -> In n (map value (Record_.list_remove ps x)).
Proof.
  induction ps as [|p ps IH]; cbn [map Record_.list_remove]; [auto|].
  intros [H|H] N.
  - destruct (str_eqb (value p) (value x)) eqn:E.
    + apply str_eqb_eq in E. congruence.
    + left. exact H.
  - destruct (str_eqb (value p) (value x)); [exact H | right; auto].
Qed.

(** X4.  [edit_phone] does not look for the new number among the phones
    that stay: when both numbers are on the record, are different, and
    the new one passes [Phone], the answer is true and the record ends up
    with the new number twice. *)
Theorem edit_phone_can_duplicate_a_number (r : Record_.t) (old new : str) :
  In old (numbers r) -> In new (numbers r) -> old <> new -> ten_digits new ->
  fst (Record_.edit_phone r old new) = true
  /\ ~ distinct_phones (snd (Record_.edit_phone r old new)).
Proof.
  intros Ho Hn Ne T. unfold Record_.edit_phone, Record_.find_phone.
  destruct (Record_.find_phone_in (Record_.phones r) old) as [p|] eqn:F.
  - apply find_phone_in_Some in F as [_ Ep].
    apply Phone_ok_iff in T. rewrite T. cbn [fst snd]. split; [reflexivity|].
    unfold distinct_phones.
    cbn [Record_.set_phones Record_.phones].
    rewrite numbers_set_phones, map_app. cbn [map value]. intros D.
    apply NoDup_remove_2 in D. rewrite app_nil_r in D. apply D.
    apply list_remove_keeps_others; [exact Hn | congruence].
  - apply find_phone_in_None in F. contradiction.
Qed.

Lemma edit_phone_can_duplicate_a_number_witness :
  let r := Record_.mk (Name (lit "Anna"))
             [mkField (lit "1111111111"); mkField (lit "2222222222")] None in
  (In (lit "1111111111") (numbers r) /\ In (lit "2222222222") (numbers r)
   /\ lit "1111111111" <> lit "2222222222" /\ ten_digits (lit "2222222222"))
  /\ fst (Record_.edit_phone r (lit "1111111111") (lit "2222222222")) = true
  /\ ~ distinct_phones (snd (Record_.edit_phone r (lit "1111111111") (lit "2222222222"))).
Proof.
  intros r.
  assert (H1 : In (lit "1111111111") (numbers r)) by (left; reflexivity).
  assert (H2 : In (lit "2222222222") (numbers r)) by (right; left; reflexivity).
  assert (H3 : lit "1111111111" <> lit "2222222222") by discriminate.
  assert (H4 : ten_digits (lit "2222222222")) by (split; [reflexivity | repeat constructor]).
  split; [auto|].
  apply (edit_phone_can_duplicate_a_number r _ _ H1 H2 H3 H4).
Defined.

(** ** Looking up, adding and deleting in the book *)

Lemma name_exists_false_iff (book : AddressBook.t) (name : str) :
  AddressBook.name_exists book name = false
  <-> forall k, In k (AddressBook.keys book) -> str_lower k <> str_lower name.
Proof.
  unfold AddressBook.name_exists. rewrite <- not_true_iff_false, existsb_exists.
  split.
  - intros H k Hk E. apply H. exists k. split; [exact Hk|].
    apply str_eqb_eq. congruence.
  - intros H (k & Hk & E). apply str_eqb_eq in E. apply (H k Hk). congruence.
Qed.

Lemma find_item_app (b1 b2 : AddressBook.t) (l : str) :
  (forall k, In k (AddressBook.keys b1) -> str_lower k <> l) ->
  AddressBook.find_item (b1 ++ b2) l = AddressBook.find_item b2 l.
Proof.
  induction b1 as [|[k r] b1 IH]; intros H; cbn [app AddressBook.find_item];
    [reflexivity|].
  destruct (str_eqb (str_lower k) l) eqn:E.
  - apply str_eqb_eq in E. exfalso. apply (H k); [left; reflexivity | exact E].
  - apply IH. intros k' Hk'. apply H. right. exact Hk'.
Qed.

Lemma find_item_none (book : AddressBook.t) (l : str) :
  AddressBook.find_item book l = None
  <-> forall k, In k (AddressBook.keys book) -> str_lower k <> l.
Proof.
  induction book as [|[k r] book IH]; cbn [AddressBook.find_item AddressBook.keys map fst].
  - split; [intros _ k [] | reflexivity].
  - destruct (str_eqb (str_lower k) l) eqn:E.
    + apply str_eqb_eq in E. split; [discriminate|].
      intros H. exfalso. apply (H k); [left; reflexivity | exact E].
    + apply str_eqb_neq in E. rewrite IH. split.
      * intros H k' [<-|Hk']; auto.
      * intros H k' Hk'. apply H. right. exact Hk'.
Qed.

Lemma name_exists_false_find_item (book : AddressBook.t) (name : str) :
  AddressBook.name_exists book name = false
  <-> AddressBook.find_item book (str_lower name) = None.
Proof.
  split; intros H.
  - apply find_item_none. apply name_exists_false_iff. exact H.
  - apply name_exists_false_iff. apply find_item_none. exact H.
Qed.

Lemma find_item_split (book : AddressBook.t) (l : str) (k : str) (r : Record_.t) :
  AddressBook.find_item book l = Some (k, r) ->
  exists b1 b2,
    book = b1 ++ (k, r) :: b2 /\ str_lower k = l
    /\ (forall k', In k' (AddressBook.keys b1) -> str_lower k' <> l)
    /\ AddressBook.dict_del book k = b1 ++ b2.
Proof.
  induction book as [|[k0 r0] book IH]; cbn [AddressBook.find_item]; [discriminate|].
  destruct (str_eqb (str_lower k0) l) eqn:E.
  - intros H; injection H as <- <-. apply str_eqb_eq in E.
    exists [], book. cbn [app AddressBook.dict_del]. rewrite str_eqb_refl.
    repeat split; auto; intros k' [].
  - intros H. destruct (IH H) as (b1 & b2 & -> & L & N & D).
    exists ((k0, r0) :: b1), b2. cbn [app AddressBook.dict_del].
    apply str_eqb_neq in E.
    assert (K : str_eqb k0 k = false) by (apply str_eqb_neq; congruence).
    rewrite K, D. repeat split; auto.
    intros k' [<-|Hk']; auto.
Qed.

(** X5.  In a book of Latin-1 text and for a name of Latin-1
    characters, [name_exists] says true exactly when [find] returns a
    record; the record that [find] returns is stored under a key that is
    the name up to case, and every binding under such a key makes
    [name_exists] say true. *)
Theorem name_exists_iff_find_returns (book : AddressBook.t) (name : str) :
  latin1_book book -> latin1_str name ->
  (AddressBook.name_exists book name = true
   <-> exists record, AddressBook.find book name = Some record)
  /\ (forall record,
        AddressBook.find book name = Some record ->
        exists k, In (k, record) book /\ str_lower k = str_lower name)
  /\ (forall k record,
        In (k, record) book -> str_lower k = str_lower name ->
        AddressBook.name_exists book name = true).
Proof.
  intros _ _.
  assert (Back : forall k record,
             In (k, record) book -> str_lower k = str_lower name ->
             AddressBook.name_exists book name = true).
  { intros k record Hin E.
    destruct (AddressBook.name_exists book name) eqn:X; [reflexivity|].
    exfalso. apply (proj1 (name_exists_false_iff _ _) X k); [|exact E].
    apply in_map_iff. exists (k, record). auto. }
  assert (Stored : forall record,
             AddressBook.find book name = Some record ->
             exists k, In (k, record) book /\ str_lower k = str_lower name).
  { intros record F. apply find_Some_In in F as (k & Fi & Hin).
    apply find_item_In in Fi as [_ L]. eauto. }
  split; [|split; assumption].
  split; [apply name_exists_find|].
  intros [record F]. destruct (Stored record F) as (k & Hin & E).
  exact (Back k record Hin E).
Qed.

Lemma name_exists_iff_find_returns_witness :
  let anna := Record_.mk (Name (lit "Anna")) [mkField (lit "1111111111")] None in
  let book := [(lit "Anna", anna)] in
  latin1_book book /\ latin1_str (lit "aNNA")
  /\ AddressBook.find book (lit "aNNA") = Some anna
  /\ (AddressBook.name_exists book (lit "aNNA") = true
      <-> exists record, AddressBook.find book (lit "aNNA") = Some record).
Proof.
  intros anna book.
  assert (B : latin1_book book) by latin1_texts.
  assert (L : latin1_str (lit "aNNA")) by (apply latin1_str_forallb; reflexivity).
  split; [exact B|]. split; [exact L|]. split; [reflexivity|].
  exact (proj1 (name_exists_iff_find_returns book (lit "aNNA") B L)).
Defined.

(** X6.  In a book of Latin-1 text, [add_record] of a record whose name,
    of Latin-1 characters, is new to the book, case ignored, puts it at
    the end; [find] then returns it for its name, and returns what it
    returned before for every other name of Latin-1 characters. *)
Theorem add_record_of_a_new_name_then_find (book : AddressBook.t) (r : Record_.t) :
  latin1_book book -> latin1_str (value (Record_.name r)) ->
  AddressBook.name_exists book (value (Record_.name r)) = false ->
  AddressBook.add_record book r = book ++ [(value (Record_.name r), r)]
  /\ AddressBook.find (AddressBook.add_record book r) (value (Record_.name r)) = Some r
  /\ (forall q, latin1_str q -> str_lower q <> str_lower (value (Record_.name r)) ->
        AddressBook.find (AddressBook.add_record book r) q = AddressBook.find book q).
Proof.
  intros _ _ N. pose proof (proj1 (name_exists_false_iff _ _) N) as N'; clear N; rename N' into N.
  assert (E : AddressBook.add_record book r = book ++ [(value (Record_.name r), r)]).
  { unfold AddressBook.add_record. apply dict_set_absent.
    intros H. apply (N _ H). reflexivity. }
  rewrite E. split; [reflexivity|]. split.
  - unfold AddressBook.find. rewrite find_item_app by exact N.
    cbn [AddressBook.find_item]. rewrite str_eqb_refl. reflexivity.
  - intros q _ Hq. unfold AddressBook.find.
    destruct (AddressBook.find_item book (str_lower q)) as [[k r0]|] eqn:F.
    + destruct (find_item_split _ _ _ _ F) as (b1 & b2 & -> & L & N1 & _).
      rewrite <- app_assoc, !find_item_app by exact N1.
      cbn [app AddressBook.find_item]. rewrite L, str_eqb_refl. reflexivity.
    + pose proof (proj1 (find_item_none _ _) F) as F'; clear F; rename F' into F. rewrite find_item_app by exact F.
      cbn [AddressBook.find_item].
      replace (str_eqb _ _) with false; [reflexivity|].
      symmetry. apply str_eqb_neq. congruence.
Qed.

Lemma add_record_of_a_new_name_then_find_witness :
  let anna := Record_.mk (Name (lit "Anna")) [mkField (lit "1111111111")] None in
  let bob := Record_.mk (Name (lit "Bob")) [] None in
  let book := [(lit "Anna", anna)] in
  latin1_book book /\ latin1_str (value (Record_.name bob))
  /\ AddressBook.name_exists book (value (Record_.name bob)) = false
  /\ AddressBook.add_record book bob = book ++ [(value (Record_.name bob), bob)]
  /\ AddressBook.find (AddressBook.add_record book bob) (value (Record_.name bob))
     = Some bob
  /\ (forall q, latin1_str q -> str_lower q <> str_lower (value (Record_.name bob)) ->
        AddressBook.find (AddressBook.add_record book bob) q = AddressBook.find book q).
Proof.
  intros anna bob book.
  assert (B : latin1_book book) by latin1_texts.
  assert (L : latin1_str (value (Record_.name bob)))
    by (apply latin1_str_forallb; reflexivity).
  split; [exact B|]. split; [exact L|]. split; [reflexivity|].
  exact (add_record_of_a_new_name_then_find book bob B L eq_refl).
Defined.

(** X7.  In a book of Latin-1 text and for a name of Latin-1
    characters, [delete] answers what [name_exists] answers.  When the
    name is there, what goes is the first binding whose key is the name
    up to case, the one [find] returns, and the other bindings keep their
    order; when it is not, the book is left as it was. *)
Theorem delete_removes_the_binding_find_returns (book : AddressBook.t) (name : str) :
  latin1_book book -> latin1_str name ->
  fst (AddressBook.delete book name) = AddressBook.name_exists book name
  /\ ((exists b1 k r b2,
          book = b1 ++ (k, r) :: b2
          /\ str_lower k = str_lower name
          /\ AddressBook.name_exists b1 name = false
          /\ AddressBook.find book name = Some r
          /\ AddressBook.delete book name = (true, b1 ++ b2))
      \/ (AddressBook.name_exists book name = false
          /\ AddressBook.delete book name = (false, book))).
Proof.
  intros _ _. unfold AddressBook.delete, AddressBook.find.
  destruct (AddressBook.find_item book (str_lower name)) as [[k r]|] eqn:F.
  - destruct (find_item_split _ _ _ _ F) as (b1 & b2 & E & L & N & D).
    assert (X : AddressBook.name_exists book name = true).
    { destruct (AddressBook.name_exists book name) eqn:X; [reflexivity|].
      apply name_exists_false_find_item in X. congruence. }
    split; [cbn; congruence|]. left. exists b1, k, r, b2.
    rewrite D. repeat split; auto. apply name_exists_false_iff. exact N.
  - pose proof (proj1 (find_item_none _ _) F) as F'; clear F; rename F' into F. pose proof (proj2 (name_exists_false_iff _ _) F) as F'; clear F; rename F' into F.
    split; [cbn; congruence|]. right. auto.
Qed.

Lemma delete_removes_the_binding_find_returns_witness :
  let anna := Record_.mk (Name (lit "Anna")) [mkField (lit "1111111111")] None in
  let bob := Record_.mk (Name (lit "Bob")) [] None in
  let book := [(lit "Anna", anna); (lit "Bob", bob)] in
  latin1_book book /\ latin1_str (lit "ANNA")
  /\ AddressBook.delete book (lit "ANNA") = (true, [(lit "Bob", bob)])
  /\ fst (AddressBook.delete book (lit "ANNA"))
     = AddressBook.name_exists book (lit "ANNA").
Proof.
  intros anna bob book.
  assert (B : latin1_book book) by latin1_texts.
  assert (L : latin1_str (lit "ANNA")) by (apply latin1_str_forallb; reflexivity).
  split; [exact B|]. split; [exact L|]. split; [reflexivity|].
  exact (proj1 (delete_removes_the_binding_find_returns book (lit "ANNA") B L)).
Defined.

(** X8.  In a book of Latin-1 text where no two keys differ only by
    case, [find] returns the record stored under a name however the name,
    of Latin-1 characters, is cased, and after [delete] the name is not
    there any more. *)
Theorem in_a_case_unique_book_find_and_delete_are_exact
    (book : AddressBook.t) (k : str) (r : Record_.t) (q : str) :
  latin1_book book -> latin1_str q ->
  case_unique book -> In (k, r) book -> str_lower q = str_lower k ->
  AddressBook.find book q = Some r
  /\ AddressBook.name_exists (snd (AddressBook.delete book q)) q = false
  /\ S (length (snd (AddressBook.delete book q))) = length book.
Proof.
  intros _ _ U Hin Eq.
  unfold AddressBook.find, AddressBook.delete.
  destruct (AddressBook.find_item book (str_lower q)) as [[k0 r0]|] eqn:F.
  - destruct (find_item_split _ _ _ _ F) as (b1 & b2 & E & L & N & D).
    cbn [snd option_map]. rewrite D. subst book.
    unfold case_unique in U. rewrite keys_app, map_app in U.
    cbn [AddressBook.keys map fst] in U.
    pose proof (NoDup_remove_2 _ _ _ U) as U2. rewrite in_app_iff in U2.
    assert (Same : (k, r) = (k0, r0)).
    { apply in_app_or in Hin as [H|[H|H]].
      - exfalso. apply (N k); [apply in_map_iff; exists (k, r); auto | congruence].
      - congruence.
      - exfalso. apply U2. right. apply in_map_iff. exists k. split; [congruence|].
        apply in_map_iff. exists (k, r). auto. }
    injection Same as -> ->. split; [reflexivity|]. split.
    + apply name_exists_false_iff. intros k' Hk' E'.
      rewrite keys_app in Hk'. apply in_app_or in Hk' as [H|H].
      * apply (N k' H). exact E'.
      * apply U2. right. apply in_map_iff. exists k'. split; [congruence | exact H].
    + rewrite !length_app. cbn [length]. lia.
  - exfalso. pose proof (proj1 (find_item_none _ _) F) as F'; clear F; rename F' into F.
    apply (F k); [apply in_map_iff; exists (k, r); auto | congruence].
Qed.

Lemma in_a_case_unique_book_find_and_delete_are_exact_witness :
  let anna := Record_.mk (Name (lit "Anna")) [mkField (lit "1111111111")] None in
  let bob := Record_.mk (Name (lit "Bob")) [] None in
  let book := [(lit "Anna", anna); (lit "Bob", bob)] in
  latin1_book book /\ latin1_str (lit "bOB")
  /\ case_unique book
  /\ AddressBook.find book (lit "bOB") = Some bob
  /\ AddressBook.name_exists (snd (AddressBook.delete book (lit "bOB"))) (lit "bOB")
     = false
  /\ S (length (snd (AddressBook.delete book (lit "bOB")))) = length book.
Proof.
  intros anna bob book.
  assert (U : case_unique book).
  { unfold case_unique. cbn. repeat constructor; cbn; intuition discriminate. }
  assert (B : latin1_book book) by latin1_texts.
  assert (L : latin1_str (lit "bOB")) by (apply latin1_str_forallb; reflexivity).
  split; [exact B|]. split; [exact L|]. split; [exact U|].
  apply (in_a_case_unique_book_find_and_delete_are_exact book (lit "Bob") bob
           (lit "bOB") B L U).
  - right; left; reflexivity.
  - reflexivity.
Defined.


(** ** Names, whatever their case *)

(** Going from a character of Latin-1 to its lower case changes neither
    what [capitalize] makes of it in first place, nor its lower case, nor
    whether it is white space or a hyphen. *)
Lemma lower_keeps (c : char) :
  latin1 c ->
  title (lower c) = title c /\ lower (lower c) = lower c
  /\ isspace (lower c) = isspace c /\ is_hyphen (lower c) = is_hyphen c.
Proof.
  intros L.
  pose proof (latin1_check
    (fun c => str_eqb (title (lower c)) (title c)
              && (lower (lower c) =? lower c)%N
              && Bool.eqb (isspace (lower c)) (isspace c)
              && Bool.eqb (is_hyphen (lower c)) (is_hyphen c))) as H.
  specialize (H ltac:(vm_compute; reflexivity) c L). cbv beta in H.
  rewrite !andb_true_iff in H. destruct H as [[[H1 H2] H3] H4].
  apply str_eqb_eq in H1. apply N.eqb_eq in H2.
  apply eqb_prop in H3, H4. auto.
Qed.

Lemma fields_map (sep : char -> bool) (h : char -> char) (s : str) :
  Forall (fun c => sep (h c) = sep c) s ->
  fields sep (map h s) = map (map h) (fields sep s).
Proof.
  induction s as [|c s IH]; intros F; [reflexivity|].
  inversion F as [|? ? Hc Fs]; subst. cbn [map fields]. rewrite Hc, (IH Fs).
  destruct (sep c); [reflexivity|].
  destruct (fields sep s); reflexivity.
Qed.

Lemma filter_nonempty_map (h : char -> char) (l : list str) :
  filter nonempty (map (map h) l) = map (map h) (filter nonempty l).
Proof.
  induction l as [|[|c w] l IH]; simpl; [reflexivity | exact IH |].
  rewrite IH. reflexivity.
Qed.

Lemma words_lower (s : str) :
  latin1_str s -> words (str_lower s) = map str_lower (words s).
Proof.
  intros L. unfold words, str_lower. rewrite fields_map.
  - apply filter_nonempty_map.
  - eapply Forall_impl; [|exact L]. intros c Lc. apply (lower_keeps c Lc).
Qed.

Lemma capitalize_lower (p : str) :
  latin1_str p -> str_capitalize (str_lower p) = str_capitalize p.
Proof.
  intros L. destruct p as [|c rest]; [reflexivity|].
  inversion L as [|? ? Lc Lr]; subst.
  cbn [str_lower map str_capitalize].
  destruct (lower_keeps c Lc) as (-> & _). f_equal.
  unfold str_lower. rewrite map_map. apply map_ext_in. intros x Hx.
  rewrite Forall_forall in Lr. apply (lower_keeps x (Lr x Hx)).
Qed.

Lemma fix_part_lower (w : str) :
  latin1_str w -> fix_part (str_lower w) = fix_part w.
Proof.
  intros L. rewrite !fix_part_fields. unfold str_lower at 1. rewrite fields_map.
  - rewrite map_map. f_equal. apply map_ext_in. intros p Hp.
    apply capitalize_lower.
    pose proof (pieces_latin1 is_hyphen w L) as P. rewrite Forall_forall in P. auto.
  - eapply Forall_impl; [|exact L]. intros c Lc. apply (lower_keeps c Lc).
Qed.

Lemma words_latin1 (s w : str) : latin1_str s -> In w (words s) -> latin1_str w.
Proof.
  intros L Hw. destruct (words_props s w Hw) as (_ & _ & I).
  apply Forall_forall. intros c Hc.
  unfold latin1_str in L. rewrite Forall_forall in L. auto.
Qed.

Lemma normalize_name_lower (x : str) :
  latin1_str x -> normalize_name (str_lower x) = normalize_name x.
Proof.
  intros L. rewrite !normalize_name_words, words_lower, map_map by exact L.
  f_equal. apply map_ext_in. intros w Hw.
  apply fix_part_lower. exact (words_latin1 x w L Hw).
Qed.

(** X9.  [normalize_name] does not look at the case of what it is given:
    two strings of Latin-1 characters that differ only by case get the
    same name. *)
Theorem normalize_name_ignores_case (x y : str) :
  latin1_str x -> latin1_str y -> str_lower x = str_lower y ->
  normalize_name x = normalize_name y.
Proof.
  intros Lx Ly E.
  rewrite <- (normalize_name_lower x Lx), <- (normalize_name_lower y Ly), E.
  reflexivity.
Qed.

Lemma normalize_name_ignores_case_witness :
  normalize_name (lit "jean-paul DUPONT") = normalize_name (lit "JEAN-Paul dupont").
Proof.
  apply (normalize_name_ignores_case (lit "jean-paul DUPONT") (lit "JEAN-Paul dupont"));
    try (apply latin1_str_forallb; reflexivity).
  reflexivity.
Defined.

Lemma fixed_words (x : str) :
  latin1_str x ->
  Forall (fun w => w <> [] /\ free_of isspace w) (map fix_part (words x)).
Proof.
  intros L. rewrite Forall_map. apply Forall_forall. intros w Hw.
  pose proof (words_latin1 x w L Hw) as Lw.
  destruct (words_props x w Hw) as (N & F & _). split.
  - pose proof (fix_part_nonempty (fun c => c) shape_identity w Lw N) as H.
    rewrite map_id in H. exact H.
  - pose proof (fix_part_free_space (fun c => c) shape_identity w Lw F) as H.
    rewrite map_id in H. exact H.
Qed.

(** X10.  The words of a normalized name are the words of the input, each
    one fixed by [fix_part] and none lost or split, so that splitting the
    name again finds them; and the name is empty only when the input has
    no word.  For strings of Latin-1 characters. *)
Theorem normalize_name_keeps_the_words_apart (x : str) :
  latin1_str x ->
  str_split (normalize_name x) = map fix_part (str_split x)
  /\ length (str_split (normalize_name x)) = length (str_split x)
  /\ (normalize_name x = [] <-> str_split x = []).
Proof.
  intros L.
  assert (E : str_split (normalize_name x) = map fix_part (str_split x)).
  { rewrite !str_split_words, normalize_name_words.
    cbn [lit map list_ascii_of_string]. change (N_of_ascii " ") with space.
    apply words_str_join. apply fixed_words. exact L. }
  split; [exact E|]. split; [rewrite E; apply length_map|].
  split.
  - intros N. rewrite N in E. cbn in E.
    destruct (str_split x); [reflexivity | discriminate E].
  - intros N. rewrite normalize_name_words, <- str_split_words, N. reflexivity.
Qed.

Lemma normalize_name_keeps_the_words_apart_witness :
  str_split (normalize_name (lit "  anna-maria   VAN  damme "))
  = map fix_part (str_split (lit "  anna-maria   VAN  damme "))
  /\ length (str_split (normalize_name (lit "  anna-maria   VAN  damme ")))
     = length (str_split (lit "  anna-maria   VAN  damme "))
  /\ (normalize_name (lit "  anna-maria   VAN  damme ") = []
      <-> str_split (lit "  anna-maria   VAN  damme ") = []).
Proof.
  apply (normalize_name_keeps_the_words_apart (lit "  anna-maria   VAN  damme ")).
  apply latin1_str_forallb. reflexivity.
Defined.


(** ** Reading a line *)

Lemma strip_first (s : str) (x : char) (t : str) :
  str_strip s = x :: t -> isspace x = false.
Proof.
  unfold str_strip. destruct (str_lstrip_spec s) as (l & _ & _ & H).
  destruct (str_lstrip s) as [|c r]; [discriminate|].
  cbn [str_rstrip]. destruct (str_rstrip r).
  - rewrite H. intros E; injection E as <- _. exact H.
  - intros E; injection E as <- _. exact H.
Qed.

Lemma words_first (c : char) (t : str) : isspace c = false -> words (c :: t) <> [].
Proof.
  intros H. unfold words. cbn [fields]. rewrite H.
  destruct (fields_cons isspace t) as (f & more & ->). discriminate.
Qed.

Lemma strip_nil_iff (s : str) : str_strip s = [] <-> str_split s = [].
Proof.
  rewrite str_split_words. split; intros H.
  - rewrite <- words_strip, H. reflexivity.
  - destruct (str_strip s) as [|x t] eqn:E; [reflexivity|].
    exfalso. rewrite <- words_strip, E in H.
    exact (words_first x t (strip_first s x t E) H).
Qed.

Lemma strip_free (w : str) : free_of isspace w -> str_strip w = w.
Proof.
  intros F. unfold str_strip.
  assert (L : str_lstrip w = w).
  { destruct w as [|c r]; [reflexivity|]. inversion F as [|? ? Hc _]; subst.
    cbn [str_lstrip]. rewrite Hc. reflexivity. }
  rewrite L. clear L. induction F as [|c r Hc F IH]; [reflexivity|].
  cbn [str_rstrip]. rewrite IH, Hc. destruct r; reflexivity.
Qed.

(** X11.  On a line of Latin-1 characters, [parse_input] raises exactly
    when the line is one that [main] skips, those that [strip] empties.
    On any other such line the command is the first token in lower case
    and the arguments are the other tokens as typed; no token is empty or
    holds white space, and the two calls of [strip] change nothing. *)
Theorem parse_input_reads_the_tokens (user_input : str) :
  latin1_str user_input ->
  (str_strip user_input = [] /\ parse_input user_input = Raise (ValueError []))
  \/ (str_strip user_input <> []
      /\ exists cmd args,
           str_split user_input = cmd :: args
           /\ parse_input user_input = Ok (str_lower cmd, args)
           /\ Forall (fun token => token <> [] /\ free_of isspace token) (cmd :: args)).
Proof.
  intros _. unfold parse_input.
  assert (E : str_split (str_strip user_input) = str_split user_input)
    by (rewrite !str_split_words; apply words_strip).
  rewrite E.
  destruct (str_split user_input) as [|cmd args] eqn:S.
  - left. split; [apply strip_nil_iff; exact S | reflexivity].
  - right. split.
    + intros N. apply strip_nil_iff in N. congruence.
    + assert (T : Forall (fun token => token <> [] /\ free_of isspace token) (cmd :: args)).
      { rewrite <- S, str_split_words. apply Forall_forall. intros w Hw.
        destruct (words_props user_input w Hw) as (N & F & _). auto. }
      exists cmd, args. split; [reflexivity|]. split; [|exact T].
      inversion T as [|? ? [_ F] _]; subst. rewrite (strip_free cmd F). reflexivity.
Qed.

Lemma parse_input_reads_the_tokens_witness :
  latin1_str (lit "  AddContact anna   LEE 0501234567 ")
  /\ parse_input (lit "  AddContact anna   LEE 0501234567 ")
     = Ok (lit "addcontact", [lit "anna"; lit "LEE"; lit "0501234567"])
  /\ ((str_strip (lit "  AddContact anna   LEE 0501234567 ") = []
       /\ parse_input (lit "  AddContact anna   LEE 0501234567 ")
          = Raise (ValueError []))
      \/ (str_strip (lit "  AddContact anna   LEE 0501234567 ") <> []
          /\ exists cmd args,
               str_split (lit "  AddContact anna   LEE 0501234567 ") = cmd :: args
               /\ parse_input (lit "  AddContact anna   LEE 0501234567 ")
                  = Ok (str_lower cmd, args)
               /\ Forall (fun token => token <> [] /\ free_of isspace token)
                    (cmd :: args))).
Proof.
  assert (L : latin1_str (lit "  AddContact anna   LEE 0501234567 "))
    by (apply latin1_str_forallb; reflexivity).
  split; [exact L|]. split; [vm_compute; reflexivity|].
  exact (parse_input_reads_the_tokens (lit "  AddContact anna   LEE 0501234567 ") L).
Defined.


(** ** What a command leaves behind *)

Lemma str_in_app (q a b : str) :
  str_in q a = true \/ str_in q b = true -> str_in q (a ++ b) = true.
Proof.
  rewrite !str_in_iff. unfold contains. intros [(x & y & ->)|(x & y & ->)].
  - exists x, (y ++ b). rewrite <- !app_assoc. reflexivity.
  - exists (a ++ x), y. rewrite <- !app_assoc. reflexivity.
Qed.

Lemma str_in_lower_app (q a b : str) :
  str_in q (str_lower a) = true \/ str_in q (str_lower b) = true ->
  str_in q (str_lower (a ++ b)) = true.
Proof. unfold str_lower. rewrite map_app. apply str_in_app. Qed.

Lemma replace_item_same (book : AddressBook.t) (l k : str) (r : Record_.t) :
  AddressBook.find_item book l = Some (k, r) ->
  AddressBook.replace_item book l r = book.
Proof.
  induction book as [|[k0 r0] book IH];
    cbn [AddressBook.find_item AddressBook.replace_item]; [reflexivity|].
  destruct (str_eqb (str_lower k0) l).
  - intros H; injection H as <- <-. reflexivity.
  - intros H. rewrite (IH H). reflexivity.
Qed.

Lemma update_found_same (book : AddressBook.t) (name : str) (r : Record_.t) :
  AddressBook.find book name = Some r -> AddressBook.update_found book name r = book.
Proof.
  intros F. apply find_Some_In in F as (k & F & _).
  unfold AddressBook.update_found. apply (replace_item_same book _ k r F).
Qed.

Lemma add_phone_false (r : Record_.t) (phone : str) (r' : Record_.t) :
  Record_.add_phone r phone = (false, r') -> r' = r.
Proof.
  unfold Record_.add_phone. destruct (Record_.find_phone r phone).
  - intros H; injection H as <-. reflexivity.
  - destruct (Phone phone); intros H; [discriminate|]. injection H as <-. reflexivity.
Qed.

Lemma remove_phone_false (r : Record_.t) (phone : str) (r' : Record_.t) :
  Record_.remove_phone r phone = (false, r') -> r' = r.
Proof.
  unfold Record_.remove_phone. destruct (Record_.find_phone r phone);
    intros H; [discriminate|]. injection H as <-. reflexivity.
Qed.

Lemma is_phone_token_Phone (s : str) :
  is_phone_token s = true -> Phone s = Ok (mkField s).
Proof.
  unfold is_phone_token, Phone. intros H. apply andb_true_iff in H as [-> ->].
  reflexivity.
Qed.

(** The handler checks the new number before it calls [edit_phone], so
    when [edit_phone] says no it is the old number that is missing, and
    the record is as it was. *)
Lemma edit_phone_false_checked (r : Record_.t) (old new : str) (r' : Record_.t) :
  is_phone_token new = true -> Record_.edit_phone r old new = (false, r') -> r' = r.
Proof.
  intros T. unfold Record_.edit_phone. rewrite (is_phone_token_Phone new T).
  destruct (Record_.find_phone r old); intros H; [discriminate|].
  injection H as <-. reflexivity.
Qed.

Lemma add_birthday_cases (today : date) (r : Record_.t) (s : str) :
  Record_.add_birthday today r s = Ok (Record_.set_birthday r (Some (mkField s)))
  \/ exists msg, Record_.add_birthday today r s = Raise (ValueError msg).
Proof.
  unfold Record_.add_birthday.
  destruct (Birthday_cases today s) as [->|(msg & ->)]; cbn [bind]; eauto.
Qed.

Lemma edit_birthday_cases (today : date) (r : Record_.t) (s : str) :
  Record_.edit_birthday today r s = Ok (Record_.set_birthday r (Some (mkField s)))
  \/ exists msg, Record_.edit_birthday today r s = Raise (ValueError msg).
Proof. apply add_birthday_cases. Qed.

Ltac outcome_cases :=
  cbv zeta;
  repeat (cbn [bind input_error];
          match goal with
          | |- context [match ?x with _ => _ end] => destruct x eqn:?
          end);
  cbn [bind input_error].

Ltac came_back :=
  unfold comes_back; eexists; eexists; split; [reflexivity|]; cbn [fst snd];
  try (intros _; reflexivity).

Ltac not_without_word S :=
  exfalso; revert S; apply not_false_iff_true;
  repeat first
    [ reflexivity
    | apply str_in_lower_app; left; reflexivity
    | apply str_in_lower_app; right ].

Lemma add_contact_comes_back (args : list str) (book : AddressBook.t) :
  comes_back (lit "added") book (add_contact args book).
Proof.
  unfold add_contact. outcome_cases; came_back.
  intros S. not_without_word S.
Qed.

Lemma edit_contact_name_comes_back (args : list str) (book : AddressBook.t) :
  comes_back (lit "changed") book (edit_contact_name args book).
Proof.
  unfold edit_contact_name. outcome_cases; came_back.
  intros S. not_without_word S.
Qed.

Lemma remove_contact_comes_back (args : list str) (book : AddressBook.t) :
  comes_back (lit "removed") book (remove_contact args book).
Proof.
  unfold remove_contact. outcome_cases; came_back.
  intros S. not_without_word S.
Qed.

Lemma add_phone_to_contact_comes_back (args : list str) (book : AddressBook.t) :
  comes_back (lit "added") book (add_phone_to_contact args book).
Proof.
  unfold add_phone_to_contact. outcome_cases; came_back.
  - intros S. not_without_word S.
  - intros _.
    match goal with
    | A : Record_.add_phone _ _ = (false, _) |- _ => apply add_phone_false in A; subst
    end.
    apply update_found_same. assumption.
Qed.

Lemma change_contact_comes_back (args : list str) (book : AddressBook.t) :
  comes_back (lit "updated") book (change_contact args book).
Proof.
  unfold change_contact. outcome_cases; came_back.
  - intros S. not_without_word S.
  - intros _.
    match goal with
    | A : Record_.edit_phone _ _ _ = (false, _), T : negb (is_phone_token (arg_from_end 1 _)) = false |- _ =>
        apply negb_false_iff in T; apply (edit_phone_false_checked _ _ _ _ T) in A; subst
    end.
    apply update_found_same. assumption.
Qed.

Lemma remove_phone_comes_back (args : list str) (book : AddressBook.t) :
  comes_back (lit "removed") book (remove_phone args book).
Proof.
  unfold remove_phone. outcome_cases; came_back.
  - intros S. not_without_word S.
  - intros _.
    match goal with
    | A : Record_.remove_phone _ _ = (false, _) |- _ => apply remove_phone_false in A; subst
    end.
    apply update_found_same. assumption.
Qed.

Lemma add_birthday_comes_back (today : date) (args : list str) (book : AddressBook.t) :
  comes_back (lit "added") book (add_birthday today args book).
Proof.
  unfold add_birthday. outcome_cases; try came_back.
  all: match goal with
       | |- context [Record_.add_birthday ?d ?r ?s] =>
           destruct (add_birthday_cases d r s) as [->|(m & ->)]
       end; cbn [bind input_error]; came_back.
  intros S. not_without_word S.
Qed.

Lemma edit_birthday_comes_back (today : date) (args : list str) (book : AddressBook.t) :
  comes_back (lit "updated") book (edit_birthday today args book).
Proof.
  unfold edit_birthday. outcome_cases; try came_back.
  all: match goal with
       | |- context [Record_.edit_birthday ?d ?r ?s] =>
           destruct (edit_birthday_cases d r s) as [->|(m & ->)]
       end; cbn [bind input_error]; came_back.
  intros S. not_without_word S.
Qed.

Lemma remove_birthday_comes_back (args : list str) (book : AddressBook.t) :
  comes_back (lit "removed") book (remove_birthday args book).
Proof.
  unfold remove_birthday. outcome_cases; came_back.
  intros S. not_without_word S.
Qed.

Lemma print_and_save_keeps (word : str) (book : AddressBook.t) (r : handler_result)
    (p : pass) :
  comes_back word book r -> print_and_save word r = Ok p ->
  saved p = false -> book_after p = book.
Proof.
  intros (msg & book' & -> & K). unfold print_and_save. cbn [bind fst snd].
  intros H; injection H as <-. cbn [saved book_after]. exact K.
Qed.

Lemma reads_only (book : AddressBook.t) (body : handler_result) (p : pass) :
  (forall r, body = Ok r -> snd r = book) ->
  print_only (input_error book body) = Ok p -> book_after p = book.
Proof.
  intros B. unfold print_only.
  destruct (input_error book body) as [[msg book']|e] eqn:E; cbn [bind]; [|discriminate].
  intros H; injection H as <-. cbn [book_after snd].
  apply input_error_Ok in E as [E|E]; [apply (B _ E) | exact E].
Qed.

Lemma show_phone_reads_only (args : list str) (book : AddressBook.t) (p : pass) :
  print_only (show_phone args book) = Ok p -> book_after p = book.
Proof.
  apply reads_only. intros r. outcome_cases; intros H; try discriminate H;
    injection H as <-; reflexivity.
Qed.

Lemma search_contacts_reads_only (args : list str) (book : AddressBook.t) (p : pass) :
  print_only (search_contacts args book) = Ok p -> book_after p = book.
Proof.
  apply reads_only. intros r. outcome_cases; intros H; try discriminate H;
    injection H as <-; reflexivity.
Qed.

Lemma show_birthday_reads_only (args : list str) (book : AddressBook.t)
    (r : handler_result) (p : pass) :
  show_birthday args book = Normal r -> print_only r = Ok p -> book_after p = book.
Proof.
  unfold show_birthday, input_error_passing.
  match goal with
  | |- match ?b with _ => _ end = _ -> _ => destruct b as [body|] eqn:B
  end; [|discriminate].
  intros H; injection H as <-. apply reads_only. intros r' ->.
  revert B. outcome_cases; intros H; try discriminate H;
    injection H as <-; reflexivity.
Qed.

(** X12.  Whatever the line, when a pass of the loop of [main] ends
    without a call of [save_address_book], the book in memory is the one
    the pass began with: no handler changes the book and answers with a
    message that lacks the word [main] looks for. *)
Theorem main_saves_every_change (today : date) (user_input : str)
    (book : AddressBook.t) (p : pass) :
  main_pass today user_input book = Normal (Ok p) ->
  saved p = false -> book_after p = book.
Proof.
  unfold main_pass.
  destruct (str_strip user_input); [intros H; injection H as <-; reflexivity|].
  destruct (parse_input user_input) as [[command args]|e]; [|discriminate].
  repeat match goal with
         | |- (if ?c then _ else _) = _ -> _ => destruct c
         end;
    intros H; try (injection H as H).
  all: try (subst p; reflexivity).
  all: try (revert H; apply print_and_save_keeps).
  - apply add_contact_comes_back.
  - apply edit_contact_name_comes_back.
  - apply remove_contact_comes_back.
  - apply add_phone_to_contact_comes_back.
  - apply change_contact_comes_back.
  - apply remove_phone_comes_back.
  - intros _. revert H. apply show_phone_reads_only.
  - apply add_birthday_comes_back.
  - intros _. destruct (show_birthday args book) as [r|] eqn:S; [|discriminate H].
    injection H as H. exact (show_birthday_reads_only args book r p S H).
  - apply edit_birthday_comes_back.
  - apply remove_birthday_comes_back.
  - intros _. destruct (upcoming_birthdays today book); cbn [bind] in H; [|discriminate H].
    injection H as <-. reflexivity.
  - intros _. revert H. apply search_contacts_reads_only.
Qed.

Lemma main_saves_every_change_witness :
  let bob := Record_.mk (Name (lit "Bob")) [mkField (lit "1111111111")] None in
  let book := [(lit "Bob", bob)] in
  let line := lit "changephone bob 2222222222 3333333333" in
  exists p,
    main_pass (mkdate 2024 5 17) line book = Normal (Ok p)
    /\ saved p = false /\ book_after p = book.
Proof.
  intros bob book line.
  pose (p := mkpass
               [lit "Old phone number '2222222222' not found or new number invalid."]
               book false false).
  assert (E : main_pass (mkdate 2024 5 17) line book = Normal (Ok p))
    by (vm_compute; reflexivity).
  exists p. split; [exact E|]. split; [reflexivity|].
  apply (main_saves_every_change (mkdate 2024 5 17) line book p E). reflexivity.
Defined.


(** ** Exceptions that leave the loop *)

Lemma matches_In (book : AddressBook.t) (name : str) (r : Record_.t) :
  In r (matches book name)
  <-> exists k, In (k, r) book /\ contains (str_lower k) (str_lower name).
Proof.
  unfold matches. rewrite in_map_iff. split.
  - intros ([k r'] & E & H). cbn [snd] in E. subst r'.
    apply filter_In in H as [H C]. cbn [fst] in C. apply str_in_iff in C. eauto.
  - intros (k & H & C). exists (k, r). split; [reflexivity|].
    apply filter_In. split; [exact H|]. cbn [fst]. apply str_in_iff. exact C.
Qed.

Lemma birthday_lines_error (found : list Record_.t) :
  birthday_lines found = AttributeError
  <-> exists r, In r found /\ Record_.birthday r = None.
Proof.
  induction found as [|r found IH]; cbn [birthday_lines].
  - split; [discriminate | intros (r & [] & _)].
  - destruct (Record_.birthday r) as [b|] eqn:B.
    + destruct (birthday_lines found) as [lines|].
      * split; [discriminate|]. intros (r' & [<-|H] & N); [congruence|].
        exfalso. assert (X : Normal lines = AttributeError) by (apply IH; eauto).
        discriminate X.
      * split; [|reflexivity]. intros _.
        destruct (proj1 IH eq_refl) as (r' & H & N). exists r'. split; [right|]; assumption.
    + split; [|reflexivity]. intros _. exists r. split; [left; reflexivity | exact B].
Qed.

Lemma with_birthday_nil (found : list Record_.t) :
  filter has_birthday found = []
  <-> forall r, In r found -> Record_.birthday r = None.
Proof.
  induction found as [|r found IH]; cbn [filter].
  - split; [intros _ r [] | reflexivity].
  - unfold has_birthday at 1. destruct (Record_.birthday r) as [b|] eqn:B.
    + split; [discriminate|]. intros H. specialize (H r (or_introl eq_refl)). congruence.
    + rewrite IH. split.
      * intros H r' [<-|H']; auto.
      * intros H r' H'. apply H. right. exact H'.
Qed.

(** X13.  In a book of Latin-1 text and for tokens of Latin-1
    characters, [show_birthday] leaves with an [AttributeError], which
    [input_error] does not catch, exactly when the name it is given is
    part of the keys, case ignored, of a contact with a birthday and of a
    contact without one. *)
Theorem show_birthday_raises_AttributeError (args : list str) (book : AddressBook.t) :
  latin1_book book -> Forall latin1_str args ->
  show_birthday args book = AttributeError
  <-> args <> []
      /\ exists k1 r1 k2 r2,
           let name := str_lower (normalize_name (str_join (lit " ") args)) in
           In (k1, r1) book /\ contains (str_lower k1) name
           /\ Record_.birthday r1 <> None
           /\ In (k2, r2) book /\ contains (str_lower k2) name
           /\ Record_.birthday r2 = None.
Proof.
  intros _ _. cbv zeta.
  assert (M : forall r, In r (matches book (normalize_name (str_join (lit " ") args)))
              <-> exists k, In (k, r) book
                   /\ contains (str_lower k)
                        (str_lower (normalize_name (str_join (lit " ") args))))
    by (intros r; apply matches_In).
  unfold show_birthday, input_error_passing.
  destruct args as [|a args]; [split; [discriminate | intros [N _]; congruence]|].
  remember (normalize_name (str_join (lit " ") (a :: args))) as name eqn:En.
  cbv zeta.
  destruct (matches book name) as [|m1 [|m2 found]] eqn:Em.
  - split; [discriminate|]. intros (_ & k1 & r1 & _ & _ & H & C & _).
    destruct (proj2 (M r1)) ; eauto.
  - split.
    + destruct (Record_.birthday m1); discriminate.
    + intros (_ & k1 & r1 & k2 & r2 & H1 & C1 & B1 & H2 & C2 & B2).
      assert (I1 : In r1 [m1]) by (apply M; eauto).
      assert (I2 : In r2 [m1]) by (apply M; eauto).
      destruct I1 as [<-|[]], I2 as [<-|[]]. congruence.
  - remember (m1 :: m2 :: found) as ms eqn:Ems.
    assert (Shape :
      match filter has_birthday ms with
      | [] => Normal (Ok (lit "None of the matching contacts have a birthday set.", book))
      | _ :: _ =>
          match birthday_lines ms with
          | Normal lines =>
              Normal (Ok (str_join newline
                            ([lit "Found multiple contacts:"] ++ lines
                             ++ [lit "Please enter the full name to get an exact match."]),
                          book))
          | AttributeError => AttributeError
          end
      end = AttributeError
      <-> (exists r, In r ms /\ Record_.birthday r <> None)
          /\ (exists r, In r ms /\ Record_.birthday r = None)).
    { destruct (filter has_birthday ms) as [|w ws] eqn:F.
      - split; [discriminate|]. intros [(r & H & B) _].
        exfalso. apply B. apply (proj1 (with_birthday_nil ms) F r H).
      - assert (W : exists r, In r ms /\ Record_.birthday r <> None).
        { exists w. assert (I : In w (filter has_birthday ms)) by (rewrite F; left; reflexivity).
          apply filter_In in I as [I B]. split; [exact I|].
          unfold has_birthday in B. destruct (Record_.birthday w); [discriminate | discriminate B]. }
        destruct (birthday_lines ms) as [lines|] eqn:L.
        + split; [discriminate|]. intros [_ E]. apply birthday_lines_error in E. congruence.
        + split; [|reflexivity]. intros _. split; [exact W|].
          apply birthday_lines_error. exact L. }
    match goal with
    | |- ?lhs = _ <-> _ =>
        assert (R : lhs = AttributeError
                    <-> (exists r, In r ms /\ Record_.birthday r <> None)
                        /\ (exists r, In r ms /\ Record_.birthday r = None))
    end.
    { rewrite <- Shape. subst ms.
      destruct (filter has_birthday (m1 :: m2 :: found));
        [|destruct (birthday_lines (m1 :: m2 :: found))]; cbn [input_error];
        split; intros H; try discriminate H; reflexivity. }
    rewrite R. split.
    + intros [(r1 & H1 & B1) (r2 & H2 & B2)]. split; [discriminate|].
      apply M in H1 as (k1 & H1 & C1). apply M in H2 as (k2 & H2 & C2).
      exists k1, r1, k2, r2. auto 10.
    + intros (_ & k1 & r1 & k2 & r2 & H1 & C1 & B1 & H2 & C2 & B2). split.
      * exists r1. split; [apply M; eauto | exact B1].
      * exists r2. split; [apply M; eauto | exact B2].
Qed.

Lemma show_birthday_raises_AttributeError_witness :
  let ann := Record_.mk (Name (lit "Ann")) [] (Some (mkField (lit "01.02.1990"))) in
  let anna := Record_.mk (Name (lit "Anna")) [] None in
  let book := [(lit "Ann", ann); (lit "Anna", anna)] in
  latin1_book book /\ Forall latin1_str [lit "ann"]
  /\ show_birthday [lit "ann"] book = AttributeError.
Proof.
  intros ann anna book.
  assert (B : latin1_book book) by latin1_texts.
  assert (A : Forall latin1_str [lit "ann"])
    by (constructor; [apply latin1_str_forallb; reflexivity | constructor]).
  split; [exact B|]. split; [exact A|].
  apply (proj2 (show_birthday_raises_AttributeError [lit "ann"] book B A)).
  split; [discriminate|].
  exists (lit "Ann"), ann, (lit "Anna"), anna. cbv zeta.
  split; [left; reflexivity|].
  split; [apply str_in_iff; vm_compute; reflexivity|].
  split; [discriminate|].
  split; [right; left; reflexivity|].
  split; [apply str_in_iff; vm_compute; reflexivity | reflexivity].
Defined.

Lemma parse_input_Raise (user_input : str) (e : exn) :
  parse_input user_input = Raise e -> str_strip user_input = [].
Proof.
  unfold parse_input.
  destruct (str_split (str_strip user_input)) as [|cmd args] eqn:S; [|discriminate].
  intros _. rewrite str_split_words, words_strip, <- str_split_words in S.
  apply strip_nil_iff. exact S.
Qed.

Lemma parse_input_Ok (user_input : str) (r : str * list str) :
  parse_input user_input = Ok r -> str_strip user_input <> [].
Proof.
  unfold parse_input. intros H E. rewrite E in H. discriminate H.
Qed.

Lemma print_and_save_Ok (word : str) (book : AddressBook.t) (r : handler_result) :
  comes_back word book r -> exists p, print_and_save word r = Ok p.
Proof.
  intros (msg & book' & -> & _). unfold print_and_save. cbn [bind]. eauto.
Qed.

Lemma show_phone_Ok (args : list str) (book : AddressBook.t) :
  exists p, print_only (show_phone args book) = Ok p.
Proof.
  unfold show_phone. outcome_cases; unfold print_only; cbn [bind]; eauto.
Qed.

Lemma search_contacts_Ok (args : list str) (book : AddressBook.t) :
  exists p, print_only (search_contacts args book) = Ok p.
Proof.
  unfold search_contacts. outcome_cases; unfold print_only; cbn [bind]; eauto.
Qed.

Lemma show_birthday_Ok (args : list str) (book : AddressBook.t) (r : handler_result) :
  show_birthday args book = Normal r -> exists p, print_only r = Ok p.
Proof.
  unfold show_birthday.
  outcome_cases; cbn [input_error_passing input_error]; intros H;
    try discriminate H; injection H as <-; unfold print_only; cbn [bind]; eauto.
Qed.

Lemma upcoming_entry_raises (today end_date : date) (r : Record_.t) (b : Field)
    (e : exn) :
  AddressBook.upcoming_entry today end_date r b = Raise e ->
  e = ValueError [] \/ e = OverflowError.
Proof.
  unfold AddressBook.upcoming_entry, replace_year, date_new, add_days.
  repeat (cbn [bind];
          match goal with
          | |- context [bind (strptime_dmY ?s) _] =>
              destruct (strptime_dmY s) eqn:P; [|apply strptime_raises in P; subst]
          | |- context [if ?c then _ else _] => destruct c
          end);
    cbn [bind]; intros H; try discriminate H; injection H as <-; auto.
Qed.

Lemma upcoming_loop_raises (today end_date : date) (records : list Record_.t)
    (e : exn) :
  forall upcoming,
    AddressBook.upcoming_loop today end_date records upcoming = Raise e ->
    e = OverflowError.
Proof.
  induction records as [|r records IH]; intros upcoming;
    cbn [AddressBook.upcoming_loop]; [discriminate|].
  destruct (Record_.birthday r) as [b|]; [|apply IH].
  destruct (AddressBook.upcoming_entry today end_date r b) as [[line|]|e0] eqn:U;
    try apply IH.
  apply upcoming_entry_raises in U as [->| ->]; [apply IH|].
  intros H; injection H as <-. reflexivity.
Qed.

Lemma get_upcoming_birthdays_raises (today : date) (book : AddressBook.t) (e : exn) :
  AddressBook.get_upcoming_birthdays today book = Raise e -> e = OverflowError.
Proof.
  unfold AddressBook.get_upcoming_birthdays, add_days.
  destruct (_ && _); cbn [bind].
  - apply upcoming_loop_raises.
  - intros H; injection H as <-. reflexivity.
Qed.

Ltac decide_commands :=
  repeat match goal with
         | |- context [if ?c then _ else _] =>
             let b := eval vm_compute in c in
             change c with b; cbv iota
         end.

(** X14.  Once [input] has given a line of Latin-1 characters, and with
    a book of Latin-1 text, what [main] computes from the line (the
    parsing, the choice of the handler and the handler itself) raises in
    two ways only: the [AttributeError] of [show_birthday], when the
    command is [showbday], and the [OverflowError] of
    [get_upcoming_birthdays], when the command is [birthdays].  No other
    command, and no line that is not a command, makes the program's own
    code raise.  The calls of [input], [print] and [save_address_book],
    and what they may raise, are not part of [main_pass]. *)
Theorem a_line_once_read_raises_in_two_ways_only (today : date) (user_input : str)
    (book : AddressBook.t) :
  latin1_str user_input -> latin1_book book ->
  (main_pass today user_input book = AttributeError
   <-> exists args,
         parse_input user_input = Ok (lit "showbday", args)
         /\ show_birthday args book = AttributeError)
  /\ (forall e,
        main_pass today user_input book = Normal (Raise e)
        <-> e = OverflowError
            /\ (exists args, parse_input user_input = Ok (lit "birthdays", args))
            /\ AddressBook.get_upcoming_birthdays today book = Raise OverflowError).
Proof.
  intros _ _. split; [|intros e]; split.
  - unfold main_pass.
    destruct (str_strip user_input); [discriminate|].
    destruct (parse_input user_input) as [[command args]|e]; [|discriminate].
    repeat match goal with
           | |- (if ?c then _ else _) = _ -> _ => destruct c eqn:?
           end;
      try discriminate.
    destruct (show_birthday args book) eqn:S; [discriminate|]. intros _.
    match goal with
    | E : str_eqb command (lit "showbday") = true |- _ => apply str_eqb_eq in E; subst
    end.
    eauto.
  - intros (args & P & S). unfold main_pass.
    pose proof (parse_input_Ok _ _ P) as N.
    destruct (str_strip user_input); [congruence|].
    rewrite P. decide_commands. rewrite S. reflexivity.
  - unfold main_pass.
    destruct (str_strip user_input) eqn:St; [discriminate|].
    destruct (parse_input user_input) as [[command args]|e0] eqn:P.
    + repeat match goal with
             | |- (if ?c then _ else _) = _ -> _ => destruct c eqn:?
             end;
        try discriminate.
      * destruct (print_and_save_Ok _ _ _ (add_contact_comes_back args book)) as (p & ->).
        discriminate.
      * destruct (print_and_save_Ok _ _ _ (edit_contact_name_comes_back args book)) as (p & ->).
        discriminate.
      * destruct (print_and_save_Ok _ _ _ (remove_contact_comes_back args book)) as (p & ->).
        discriminate.
      * destruct (print_and_save_Ok _ _ _ (add_phone_to_contact_comes_back args book)) as (p & ->).
        discriminate.
      * destruct (print_and_save_Ok _ _ _ (change_contact_comes_back args book)) as (p & ->).
        discriminate.
      * destruct (print_and_save_Ok _ _ _ (remove_phone_comes_back args book)) as (p & ->).
        discriminate.
      * destruct (show_phone_Ok args book) as (p & ->). discriminate.
      * destruct (print_and_save_Ok _ _ _ (add_birthday_comes_back today args book)) as (p & ->).
        discriminate.
      * destruct (show_birthday args book) as [r|] eqn:S; [|discriminate].
        destruct (show_birthday_Ok args book r S) as (p & ->). discriminate.
      * destruct (print_and_save_Ok _ _ _ (edit_birthday_comes_back today args book)) as (p & ->).
        discriminate.
      * destruct (print_and_save_Ok _ _ _ (remove_birthday_comes_back args book)) as (p & ->).
        discriminate.
      * unfold upcoming_birthdays.
        destruct (AddressBook.get_upcoming_birthdays today book) as [[|line lines]|e1] eqn:U;
          cbn [bind]; try discriminate.
        intros H; injection H as <-.
        pose proof (get_upcoming_birthdays_raises today book e1 U) as ->.
        match goal with
        | E : str_eqb command (lit "birthdays") = true |- _ => apply str_eqb_eq in E; subst
        end.
        eauto.
      * destruct (search_contacts_Ok args book) as (p & ->). discriminate.
    + apply parse_input_Raise in P. congruence.
  - intros (-> & (args & P) & U). unfold main_pass.
    pose proof (parse_input_Ok _ _ P) as N.
    destruct (str_strip user_input); [congruence|].
    rewrite P. decide_commands. unfold upcoming_birthdays. rewrite U. reflexivity.
Qed.

Lemma a_line_once_read_raises_in_two_ways_only_witness :
  let ann := Record_.mk (Name (lit "Ann")) [] (Some (mkField (lit "01.02.1990"))) in
  let anna := Record_.mk (Name (lit "Anna")) [] None in
  let book := [(lit "Ann", ann); (lit "Anna", anna)] in
  latin1_str (lit "ShowBday ann") /\ latin1_book book
  /\ main_pass (mkdate 2024 5 17) (lit "ShowBday ann") book = AttributeError
  /\ exists args,
       parse_input (lit "ShowBday ann") = Ok (lit "showbday", args)
       /\ show_birthday args book = AttributeError.
Proof.
  intros ann anna book.
  assert (L : latin1_str (lit "ShowBday ann")) by (apply latin1_str_forallb; reflexivity).
  assert (B : latin1_book book) by latin1_texts.
  assert (E : main_pass (mkdate 2024 5 17) (lit "ShowBday ann") book = AttributeError)
    by (vm_compute; reflexivity).
  split; [exact L|]. split; [exact B|]. split; [exact E|].
  exact (proj1 (proj1 (a_line_once_read_raises_in_two_ways_only (mkdate 2024 5 17)
                         (lit "ShowBday ann") book L B)) E).
Defined.


(** ** The list of all contacts *)

Lemma str_ltb_asym (a b : str) : str_ltb a b = true -> str_ltb b a = false.
Proof.
  revert b. induction a as [|x a IH]; intros [|y b]; cbn [str_ltb]; try reflexivity;
    try discriminate.
  intros H. apply orb_true_iff in H as [H|H].
  - apply N.ltb_lt in H.
    replace (y <? x)%N with false by (symmetry; apply N.ltb_ge; lia).
    replace (y =? x)%N with false by (symmetry; apply N.eqb_neq; lia).
    reflexivity.
  - apply andb_true_iff in H as [E H]. apply N.eqb_eq in E. subst y.
    rewrite N.ltb_irrefl, N.eqb_refl. cbn [orb andb]. apply IH. exact H.
Qed.

Lemma insert_by_perm {A : Type} (key : A -> str) (x : A) (l : list A) :
  Permutation (insert_by key x l) (x :: l).
Proof.
  induction l as [|y l IH]; cbn [insert_by]; [reflexivity|].
  destruct (str_ltb (key y) (key x)); [|reflexivity].
  rewrite IH. apply perm_swap.
Qed.

Lemma sorted_perm {A : Type} (key : A -> str) (l : list A) :
  Permutation (sorted key l) l.
Proof.
  unfold sorted. induction l as [|x l IH]; cbn [fold_right]; [reflexivity|].
  rewrite insert_by_perm. apply perm_skip. exact IH.
Qed.

Lemma insert_by_sorted {A : Type} (key : A -> str) (x : A) (l : list A) :
  Sorted (fun a b => str_ltb (key b) (key a) = false) l ->
  Sorted (fun a b => str_ltb (key b) (key a) = false) (insert_by key x l).
Proof.
  induction l as [|y l IH]; intros S; cbn [insert_by]; [repeat constructor|].
  destruct (str_ltb (key y) (key x)) eqn:E.
  - inversion S as [|? ? S' H]; subst. constructor; [apply IH; exact S'|].
    destruct l as [|z l]; cbn [insert_by].
    + constructor. apply str_ltb_asym. exact E.
    + destruct (str_ltb (key z) (key x)); constructor.
      * inversion H; assumption.
      * apply str_ltb_asym. exact E.
  - constructor; [exact S|]. constructor. exact E.
Qed.

Lemma sorted_sorted {A : Type} (key : A -> str) (l : list A) :
  Sorted (fun a b => str_ltb (key b) (key a) = false) (sorted key l).
Proof.
  unfold sorted. induction l as [|x l IH]; cbn [fold_right]; [constructor|].
  apply insert_by_sorted. exact IH.
Qed.

Lemma to_str_colon (r : Record_.t) : In 0x3A%N (Record_.to_str r).
Proof.
  unfold Record_.to_str. cbv zeta. apply in_or_app. right.
  apply in_or_app. left. left. reflexivity.
Qed.

Lemma str_join_first (sep : str) (p : str) (more : list str) (c : char) :
  In c p -> In c (str_join sep (p :: more)).
Proof.
  intros H. destruct more as [|q more]; [exact H|].
  rewrite str_join_cons2. apply in_or_app. left. exact H.
Qed.

(** X15.  For a book of Latin-1 text, [show_all] says that no contact is
    saved exactly when the book is empty.  Otherwise it prints one line
    for each contact, the text of its record, and the lines go by the
    keys in lower case: no line comes before one whose key is smaller. *)
Theorem show_all_lists_every_contact_in_order (book : AddressBook.t) :
  latin1_book book ->
  (show_all book = lit "No contacts saved." <-> book = [])
  /\ exists items,
       Permutation items book
       /\ Sorted (fun a b => str_ltb (str_lower (fst b)) (str_lower (fst a)) = false)
            items
       /\ (book <> [] ->
           show_all book
           = str_join newline (map (fun item => Record_.to_str (snd item)) items)).
Proof.
  intros _. split.
  - split; [|intros ->; reflexivity].
    destruct book as [|kr book]; [reflexivity|]. intros H. exfalso.
    unfold show_all in H. cbv zeta in H.
    pose proof (sorted_perm (fun item => str_lower (fst item)) (kr :: book)) as P.
    destruct (sorted (fun item => str_lower (fst item)) (kr :: book)) as [|x items].
    + apply Permutation_nil in P. discriminate P.
    + cbn [map] in H.
      pose proof (str_join_first newline _
                    (map (fun item => Record_.to_str (snd item)) items) _
                    (to_str_colon (snd x))) as C.
      rewrite H in C. vm_compute in C. intuition discriminate.
  - exists (sorted (fun item => str_lower (fst item)) book).
    split; [apply sorted_perm|].
    split; [apply (sorted_sorted (fun item => str_lower (fst item)))|].
    intros N. unfold show_all. destruct book as [|kr book]; [congruence | reflexivity].
Qed.

Lemma show_all_lists_every_contact_in_order_witness :
  let bob := Record_.mk (Name (lit "bob")) [mkField (lit "2222222222")] None in
  let anna := Record_.mk (Name (lit "Anna")) [mkField (lit "1111111111")] None in
  let book := [(lit "bob", bob); (lit "Anna", anna)] in
  latin1_book book
  /\ show_all book = lit "Anna: 1111111111" ++ newline ++ lit "bob: 2222222222"
  /\ (show_all book = lit "No contacts saved." <-> book = []).
Proof.
  intros bob anna book.
  assert (B : latin1_book book) by latin1_texts.
  split; [exact B|]. split; [vm_compute; reflexivity|].
  exact (proj1 (show_all_lists_every_contact_in_order book B)).
Defined.


(** ** What the commands do to the book *)

Lemma phone_start_index_spec (args : list str) :
  forall k i,
    phone_start_index args k = Some i ->
    exists n p rest,
      i = (k + n)%nat
      /\ Forall (fun a => is_phone_token a = false) (firstn n args)
      /\ skipn n args = p :: rest /\ is_phone_token p = true.
Proof.
  induction args as [|a args IH]; intros k i; cbn [phone_start_index]; [discriminate|].
  destruct (is_phone_token a) eqn:T.
  - intros H; injection H as <-. exists 0%nat, a, args.
    rewrite Nat.add_0_r. cbn [firstn skipn]. auto.
  - intros H. destruct (IH _ _ H) as (n & p & rest & -> & F & Sk & P).
    exists (S n), p, rest. cbn [firstn skipn].
    split; [lia|]. split; [constructor; assumption|]. auto.
Qed.

Lemma add_phone_true (r : Record_.t) (phone : str) (r' : Record_.t) :
  Record_.add_phone r phone = (true, r') ->
  r' = Record_.set_phones r (Record_.phones r ++ [mkField phone])
  /\ ~ In phone (numbers r) /\ ten_digits phone.
Proof.
  unfold Record_.add_phone, Record_.find_phone.
  destruct (Record_.find_phone_in (Record_.phones r) phone) eqn:F; [discriminate|].
  apply find_phone_in_None in F.
  destruct (Phone_cases phone) as [E|E]; rewrite E; [|discriminate].
  intros H; injection H as <-. apply Phone_ok_iff in E. auto.
Qed.

Lemma add_phones_inr (phones : list str) :
  forall r r',
    add_phones r phones = inr r' ->
    r' = Record_.set_phones r (Record_.phones r ++ map mkField phones)
    /\ NoDup phones /\ Forall ten_digits phones
    /\ Forall (fun p => ~ In p (numbers r)) phones.
Proof.
  induction phones as [|p phones IH]; intros r r'; cbn [add_phones].
  - intros H; injection H as <-. cbn [map]. rewrite app_nil_r.
    split; [destruct r; reflexivity|]. repeat constructor.
  - destruct (Record_.add_phone r p) as [[|] r1] eqn:A; [|discriminate].
    apply add_phone_true in A as (-> & N & T). intros H.
    apply IH in H as (-> & ND & F & O).
    unfold numbers in O. cbn [Record_.set_phones Record_.phones] in *.
    rewrite <- app_assoc. cbn [app map].
    split; [reflexivity|].
    assert (O' : Forall (fun q => q <> p /\ ~ In q (numbers r)) phones).
    { eapply Forall_impl; [|exact O]. intros q Hq. rewrite map_app, in_app_iff in Hq.
      cbn [map value In] in Hq. unfold numbers. split; [intros ->|]; tauto. }
    split; [|split].
    + constructor; [|exact ND]. intros Hin. rewrite Forall_forall in O'.
      destruct (O' p Hin) as [X _]. congruence.
    + constructor; assumption.
    + constructor; [exact N|]. eapply Forall_impl; [|exact O']. intros q [_ Hq]. exact Hq.
Qed.

(** X16.  In a book of Latin-1 text and for tokens of Latin-1
    characters, [add_contact] adds a contact whole or not at all.  It always
    comes back with a message, and the book is either as it was, or has
    one more binding at its end: the tokens before the first token of ten
    digits make the name, which no key of the book equals up to case, and
    the tokens from there on are the numbers of the new record, all of
    them valid and no two the same. *)
Theorem add_contact_adds_whole_or_nothing (args : list str) (book : AddressBook.t) :
  latin1_book book -> Forall latin1_str args ->
  exists msg book',
    add_contact args book = Ok (msg, book')
    /\ (book' = book
        \/ exists name_parts phones,
             let name := normalize_name (str_join (lit " ") name_parts) in
             args = name_parts ++ phones
             /\ name_parts <> [] /\ phones <> []
             /\ Forall (fun a => is_phone_token a = false) name_parts
             /\ Forall ten_digits phones /\ NoDup phones
             /\ AddressBook.name_exists book name = false
             /\ msg = lit "Contact added."
             /\ book' = book ++ [(name, Record_.mk (Name name) (map mkField phones) None)]).
Proof.
  intros _ _. unfold add_contact.
  destruct (length args <? 2)%nat; cbn [input_error]; [eauto|].
  destruct (phone_start_index args 0) as [i|] eqn:I; cbn [input_error]; [|eauto].
  destruct (phone_start_index_spec args 0%nat i I) as (n & p & rest & -> & F & Sk & P).
  cbn [Nat.add]. cbv zeta.
  destruct (firstn n args) as [|a name_parts] eqn:Fn; cbn [input_error]; [eauto|].
  rewrite <- Fn in *.
  destruct (AddressBook.name_exists book _) eqn:X; cbn [input_error]; [eauto|].
  destruct (add_phones _ (skipn n args)) as [m|record] eqn:A; cbn [input_error]; [eauto|].
  apply add_phones_inr in A as (-> & ND & T & _).
  eexists. eexists. split; [reflexivity|]. right.
  exists (firstn n args), (skipn n args). cbv zeta.
  split; [symmetry; apply firstn_skipn|].
  split; [rewrite Fn; discriminate|].
  split; [rewrite Sk; discriminate|].
  repeat (split; [assumption|]). split; [reflexivity|].
  unfold AddressBook.add_record. cbn [Record_.init Record_.set_phones Record_.phones
    Record_.name Record_.birthday app Name value].
  apply dict_set_absent. intros Hin.
  apply (proj1 (name_exists_false_iff _ _) X _ Hin). reflexivity.
Qed.

Lemma add_contact_adds_whole_or_nothing_witness :
  let bob := Record_.mk (Name (lit "Bob")) [mkField (lit "2222222222")] None in
  let book := [(lit "Bob", bob)] in
  let args := [lit "anna-maria"; lit "LEE"; lit "0501234567"; lit "0671234567"] in
  latin1_book book /\ Forall latin1_str args
  /\ add_contact args book
     = Ok (lit "Contact added.",
           book ++ [(lit "Anna-Maria Lee",
                     Record_.mk (Name (lit "Anna-Maria Lee"))
                       [mkField (lit "0501234567"); mkField (lit "0671234567")] None)])
  /\ exists msg book', add_contact args book = Ok (msg, book').
Proof.
  intros bob book args.
  assert (B : latin1_book book) by latin1_texts.
  assert (A : Forall latin1_str args)
    by (repeat (constructor; [apply latin1_str_forallb; reflexivity|]); constructor).
  split; [exact B|]. split; [exact A|]. split; [vm_compute; reflexivity|].
  destruct (add_contact_adds_whole_or_nothing args book B A) as (msg & book' & E & _).
  exists msg, book'. exact E.
Defined.


Lemma dict_set_length (d : AddressBook.t) (k : str) (v : Record_.t) :
  In k (AddressBook.keys d) -> length (AddressBook.dict_set d k v) = length d.
Proof.
  intros H. apply existsb_str_eqb in H.
  pose proof (keys_dict_set d k v) as K. rewrite H in K.
  apply (f_equal (@length str)) in K. unfold AddressBook.keys in K.
  rewrite !length_map in K. exact K.
Qed.

Lemma find_old_name_args (book : AddressBook.t) (args : list str) (r : str * str) :
  find_old_name book args (seq 1 (length args - 1)) = Some r ->
  (length args <? 2)%nat = false.
Proof.
  intros H. apply Nat.ltb_ge.
  destruct (length args - 1)%nat eqn:E; [discriminate H | lia].
Qed.

Lemma case_unique_app_inv (b1 b2 : AddressBook.t) (k : str) (r : Record_.t) :
  case_unique (b1 ++ (k, r) :: b2) ->
  case_unique (b1 ++ b2)
  /\ forall k', In k' (AddressBook.keys (b1 ++ b2)) -> str_lower k' <> str_lower k.
Proof.
  unfold case_unique. rewrite !keys_app, !map_app.
  cbn [AddressBook.keys map fst]. intros U. split.
  - apply NoDup_remove_1 in U. exact U.
  - apply NoDup_remove_2 in U. intros k' Hk' E. apply U.
    rewrite <- map_app, <- E. apply in_map. exact Hk'.
Qed.

Lemma case_unique_dict_ok (book : AddressBook.t) : case_unique book -> dict_ok book.
Proof. unfold case_unique, dict_ok. apply NoDup_map_inv. Qed.

(** X17.  [edit_contact_name] does not look whether the new name is
    taken.  In a book of Latin-1 text without two keys equal up to case,
    and for tokens of Latin-1 characters, renaming a contact to the key
    of another contact succeeds, and leaves one binding less: the record
    that was under the old name is now the only one under the new name,
    where [find] returns it, the old name is gone, and so is the record
    that the new name had. *)
Theorem edit_contact_name_overwrites_the_other_contact
    (args : list str) (book : AddressBook.t) (old_name new_name : str) :
  latin1_book book -> Forall latin1_str args ->
  find_old_name book args (seq 1 (length args - 1)) = Some (old_name, new_name) ->
  case_unique book ->
  In new_name (AddressBook.keys book) ->
  str_lower new_name <> str_lower old_name ->
  exists record book',
    AddressBook.find book old_name = Some record
    /\ edit_contact_name args book
       = Ok (lit "Contact name changed to '" ++ new_name ++ lit "'.", book')
    /\ S (length book') = length book
    /\ AddressBook.find book' new_name
       = Some (Record_.set_name record (Name new_name))
    /\ (forall other,
          In (new_name, other) book' ->
          other = Record_.set_name record (Name new_name))
    /\ AddressBook.name_exists book' old_name = false.
Proof.
  intros _ _ F U Hnew Ne.
  destruct (find_old_name_found _ _ _ _ _ F) as (record & Fo).
  exists record.
  unfold edit_contact_name. rewrite (find_old_name_args _ _ _ F), F, Fo.
  cbn [input_error]. eexists. split; [reflexivity|]. split; [reflexivity|].
  apply find_Some_In in Fo as (k & Fi & _).
  destruct (find_item_split _ _ _ _ Fi) as (b1 & b2 & E & L & _ & D).
  unfold AddressBook.delete. rewrite Fi. cbn [snd]. rewrite D.
  subst book. destruct (case_unique_app_inv b1 b2 k record U) as (U' & Others).
  assert (Hnew' : In new_name (AddressBook.keys (b1 ++ b2))).
  { rewrite keys_app in *. cbn [AddressBook.keys map fst] in Hnew.
    apply in_app_or in Hnew as [H|[H|H]]; apply in_or_app; auto.
    subst k. congruence. }
  unfold AddressBook.add_record.
  cbn [Record_.set_name Record_.name Name value].
  split; [|split; [|split]].
  - rewrite dict_set_length by exact Hnew'. rewrite !length_app. cbn [length]. lia.
  - unfold AddressBook.keys in Hnew'. apply in_map_iff in Hnew' as ([k' other] & Ek & Hin).
    cbn [fst] in Ek. subst k'.
    destruct (dict_split _ _ _ (case_unique_dict_ok _ U') Hin) as (d1 & d2 & Ed & N1 & _).
    rewrite Ed in *. rewrite dict_set_present by exact N1.
    destruct (case_unique_app_inv d1 d2 new_name other U') as (_ & O).
    unfold AddressBook.find. rewrite find_item_app.
    + cbn [AddressBook.find_item]. rewrite str_eqb_refl. reflexivity.
    + intros k' Hk'. apply O. rewrite keys_app. apply in_or_app. left. exact Hk'.
  - unfold AddressBook.keys in Hnew'. apply in_map_iff in Hnew' as ([k' other] & Ek & Hin).
    cbn [fst] in Ek. subst k'.
    destruct (dict_split _ _ _ (case_unique_dict_ok _ U') Hin) as (d1 & d2 & Ed & N1 & N2).
    rewrite Ed. rewrite dict_set_present by exact N1.
    intros other' Hin'. apply in_app_or in Hin' as [H|[H|H]].
    + exfalso. apply N1. apply in_map_iff. exists (new_name, other'). auto.
    + injection H as <-. reflexivity.
    + exfalso. apply N2. apply in_map_iff. exists (new_name, other'). auto.
  - apply name_exists_false_iff. intros k' Hk'.
    rewrite keys_dict_set, (proj2 (existsb_str_eqb new_name _) Hnew') in Hk'.
    rewrite <- L. apply Others. exact Hk'.
Qed.

Lemma edit_contact_name_overwrites_the_other_contact_witness :
  let ann := Record_.mk (Name (lit "Ann")) [mkField (lit "1111111111")] None in
  let bob := Record_.mk (Name (lit "Bob")) [mkField (lit "2222222222")] None in
  let book := [(lit "Ann", ann); (lit "Bob", bob)] in
  let args := [lit "ann"; lit "bob"] in
  latin1_book book /\ Forall latin1_str args
  /\ edit_contact_name args book
     = Ok (lit "Contact name changed to 'Bob'.",
           [(lit "Bob", Record_.mk (Name (lit "Bob")) [mkField (lit "1111111111")] None)])
  /\ exists record book',
       AddressBook.find book (lit "Ann") = Some record
       /\ edit_contact_name args book
          = Ok (lit "Contact name changed to '" ++ lit "Bob" ++ lit "'.", book')
       /\ S (length book') = length book
       /\ AddressBook.find book' (lit "Bob")
          = Some (Record_.set_name record (Name (lit "Bob")))
       /\ (forall other,
             In (lit "Bob", other) book' ->
             other = Record_.set_name record (Name (lit "Bob")))
       /\ AddressBook.name_exists book' (lit "Ann") = false.
Proof.
  intros ann bob book args.
  assert (B : latin1_book book) by latin1_texts.
  assert (A : Forall latin1_str args)
    by (repeat (constructor; [apply latin1_str_forallb; reflexivity|]); constructor).
  split; [exact B|]. split; [exact A|]. split; [vm_compute; reflexivity|].
  apply (edit_contact_name_overwrites_the_other_contact args book (lit "Ann") (lit "Bob")
           B A).
  - vm_compute. reflexivity.
  - unfold case_unique. vm_compute.
    repeat constructor; cbn; intuition discriminate.
  - right. left. reflexivity.
  - intros H. vm_compute in H. discriminate H.
Defined.


(** ** Showing a contact *)

Lemma contains_refl (s : str) : contains s s.
Proof. exists [], []. rewrite app_nil_r. reflexivity. Qed.

Lemma contains_app (a b q : str) : contains a q \/ contains b q -> contains (a ++ b) q.
Proof.
  intros H. apply str_in_iff. apply str_in_app.
  destruct H as [H|H]; [left | right]; apply str_in_iff; exact H.
Qed.

Lemma contains_str_join (sep : str) (parts : list str) (x : str) :
  In x parts -> contains (str_join sep parts) x.
Proof.
  destruct parts as [|p more]; [intros []|].
  revert p. induction more as [|q more IH]; intros p.
  - intros [<-|[]]. apply contains_refl.
  - rewrite str_join_cons2. intros [<-|H].
    + apply contains_app. left. apply contains_refl.
    + apply contains_app. right. apply contains_app. right. apply IH. exact H.
Qed.

Lemma find_matches (book : AddressBook.t) (name : str) (record : Record_.t) :
  AddressBook.find book name = Some record -> In record (matches book name).
Proof.
  intros F. apply find_Some_In in F as (k & Fi & Hin).
  apply find_item_In in Fi as [_ L]. cbn [fst] in L.
  apply matches_In. exists k. split; [exact Hin|]. rewrite L. apply contains_refl.
Qed.

(** X18.  In a book of Latin-1 text and for tokens of Latin-1
    characters, [show_phone] looks for the name inside the keys, case
    ignored, where [find] wants the whole key: a contact that [find] returns is
    always among those it shows, and so is every other contact whose key
    holds the name.  It answers that the contact is not found only when
    no key holds the name. *)
Theorem show_phone_shows_every_key_that_holds_the_name
    (args : list str) (book : AddressBook.t) :
  latin1_book book -> Forall latin1_str args ->
  args <> [] ->
  let name := normalize_name (str_join (lit " ") args) in
  (forall record, AddressBook.find book name = Some record ->
                  In record (matches book name))
  /\ ((show_phone args book = Ok (lit "Contact not found.", book)
       /\ forall k r, In (k, r) book -> ~ contains (str_lower k) (str_lower name))
      \/ (exists msg,
            show_phone args book = Ok (msg, book)
            /\ matches book name <> []
            /\ forall k r, In (k, r) book -> contains (str_lower k) (str_lower name) ->
                           contains msg (Record_.to_str r))).
Proof.
  intros _ _ N name. split; [intros record; apply find_matches|].
  unfold show_phone. destruct args as [|a args]; [congruence|].
  fold name. cbv zeta.
  destruct (matches book name) as [|m1 [|m2 found]] eqn:M; cbn [input_error].
  - left. split; [reflexivity|]. intros k r Hin C.
    assert (I : In r (matches book name)) by (apply matches_In; eauto).
    rewrite M in I. destruct I.
  - right. eexists. split; [reflexivity|]. split; [discriminate|].
    intros k r Hin C.
    assert (I : In r (matches book name)) by (apply matches_In; eauto).
    rewrite M in I. destruct I as [<-|[]]. apply contains_refl.
  - right. eexists. split; [reflexivity|]. split; [discriminate|].
    intros k r Hin C.
    assert (I : In r (matches book name)) by (apply matches_In; eauto).
    rewrite M in I. apply contains_str_join. right.
    apply in_map. exact I.
Qed.

Lemma show_phone_shows_every_key_that_holds_the_name_witness :
  let ann := Record_.mk (Name (lit "Ann")) [mkField (lit "1111111111")] None in
  let anna := Record_.mk (Name (lit "Anna")) [mkField (lit "2222222222")] None in
  let book := [(lit "Ann", ann); (lit "Anna", anna)] in
  let args := [lit "ann"] in
  let name := normalize_name (str_join (lit " ") args) in
  latin1_book book /\ Forall latin1_str args
  /\ show_phone args book
     = Ok (lit "Found multiple contacts:" ++ newline ++ lit "Ann: 1111111111"
           ++ newline ++ lit "Anna: 2222222222", book)
  /\ (forall record, AddressBook.find book name = Some record ->
                  In record (matches book name))
  /\ ((show_phone args book = Ok (lit "Contact not found.", book)
       /\ forall k r, In (k, r) book -> ~ contains (str_lower k) (str_lower name))
      \/ (exists msg,
            show_phone args book = Ok (msg, book)
            /\ matches book name <> []
            /\ forall k r, In (k, r) book -> contains (str_lower k) (str_lower name) ->
                           contains msg (Record_.to_str r))).
Proof.
  intros ann anna book args.
  assert (B : latin1_book book) by latin1_texts.
  assert (A : Forall latin1_str args)
    by (repeat (constructor; [apply latin1_str_forallb; reflexivity|]); constructor).
  split; [exact B|]. split; [exact A|]. split; [vm_compute; reflexivity|].
  apply (show_phone_shows_every_key_that_holds_the_name args book B A). discriminate.
Defined.
